(** * Indexed d-ary priority queue (internal/priorityQueue/priorityQueue.go)

    A shallow embedding of the array-backed, index-tracking max-heap and the
    properties its specification states about it.

    Modelling conventions:
    - [int] is Go's 64-bit signed integer: every arithmetic operation of the
      source is written with its two's-complement wrap-around ([GoInt]);
      division truncates toward zero and panics on a zero divisor.
    - [float32] priorities are IEEE-754 binary32 values ([spec_float] with
      precision 24 and maximal exponent 128); the source only compares them,
      [a < b] is [SFltb a b] and [a > b] is [SFltb b a].
    - the slice [q.pairs] is a [list Pair], the map [q.indexMap] a
      [gmap T Z]; an out-of-range index is a run-time panic.
    - the two rebalancing loops are iterated with explicit fuel; running out
      of fuel is an outcome of its own, never confused with a result. *)

From Stdlib Require Import ZArith Lia Floats.SpecFloat.
From stdpp Require Import gmap strings list fin_maps.

Local Open Scope Z_scope.

(** ** Go's [int] *)

Module GoInt.

Definition min_int : Z := -9223372036854775808.
Definition max_int : Z := 9223372036854775807.

(** Two's-complement reduction into [[min_int, max_int]]. *)
Definition wrap (z : Z) : Z := (z + 9223372036854775808) mod 18446744073709551616 - 9223372036854775808.

Definition add (a b : Z) : Z := wrap (a + b).
Definition sub (a b : Z) : Z := wrap (a - b).
Definition mul (a b : Z) : Z := wrap (a * b).

(** Half of the positive range, [2^62]: below it the sum of two lengths
    cannot wrap. *)
Definition half_range : Z := 4611686018427387904.

End GoInt.

Declare Scope int_scope.
Delimit Scope int_scope with int.
(* operands of an [int] operation are [int] expressions themselves *)
Arguments GoInt.add (a b)%_int.
Arguments GoInt.sub (a b)%_int.
Arguments GoInt.mul (a b)%_int.
Infix "+" := GoInt.add : int_scope.
Infix "-" := GoInt.sub : int_scope.
Infix "*" := GoInt.mul : int_scope.

(** ** Outcomes of a call *)

Inductive outcome (A : Type) : Type :=
| Done (a : A)      (* the call returned *)
| Panic             (* run-time panic: index out of range, division by zero *)
| OutOfFuel.        (* the iteration budget of the model was exhausted *)

Arguments Done {A} a.
Arguments Panic {A}.
Arguments OutOfFuel {A}.

Definition obind {A B : Type} (m : outcome A) (k : A -> outcome B) : outcome B :=
  match m with
  | Done a => k a
  | Panic => Panic
  | OutOfFuel => OutOfFuel
  end.

Notation "'do' x <- m ; k" := (obind m (fun x => k))
  (at level 10, x name, m at level 100, k at level 200).
Notation "'do' ( x , y ) <- m ; k" := (obind m (fun '(x, y) => k))
  (at level 10, x name, y name, m at level 100, k at level 200).

(** [x / y] on [int]. *)
Definition int_quot (a b : Z) : outcome Z :=
  if b =? 0 then Panic else Done (GoInt.wrap (Z.quot a b)).

(** ** Loops with [break] *)

Inductive ctl (S : Type) : Type :=
| Next (s : S)      (* go round again from state [s] *)
| Break (s : S).    (* leave the loop in state [s] *)

Arguments Next {S} s.
Arguments Break {S} s.

Fixpoint for_loop {S : Type} (fuel : nat) (body : S -> outcome (ctl S)) (s : S) : outcome S :=
  match fuel with
  | O => OutOfFuel
  | Datatypes.S fuel' =>
      do r <- body s;
      match r with
      | Next s' => for_loop fuel' body s'
      | Break s' => Done s'
      end
  end.

(** ** float32 *)

Definition float32 : Type := spec_float.

(** The float32 nearest to an integer constant of the program text. *)
Definition f32 (z : Z) : float32 := binary_normalize 24 128 z 0 false.

Definition f32_zero : float32 := S754_zero false.

Definition f32_lt (a b : float32) : bool := SFltb a b.
Definition f32_gt (a b : float32) : bool := SFltb b a.

Definition is_nan (x : float32) : bool :=
  match x with S754_nan => true | _ => false end.

(** ** Errors *)

Inductive error : Type := ErrElementNotFound | ErrQueueIsEmpty.

(** ** Zero values

    [Pair[T]{}] is built from the zero value of the type parameter. *)

Class GoZero (T : Type) : Type := zero_value : T.

#[export] Instance string_zero : GoZero string := EmptyString.

(** ** Allocation

    [make([]Pair[T], 0, capacity)] panics ([makeslice: cap out of range])
    when the bytes asked for exceed what the runtime allocates at all. The
    bound depends on the platform and on the size of [Pair[T]], so the
    largest capacity that is granted is a parameter of the element type.
    Whether the machine then has the memory is outside the model. *)

Class GoMake (T : Type) : Type := max_cap : Z.

(** On 64-bit Linux the runtime allocates at most 2^48 bytes, and a
    [Pair[string]] takes 24 of them. *)
#[export] Instance string_make : GoMake string := 2 ^ 48 / 24.

(** ** The queue *)

Section PriorityQueue.

Context {T : Type} `{Countable T} `{GoZero T} `{GoMake T}.

Record Pair : Type := mkPair { priority : float32; value : T }.

Record PriorityQueue : Type := mkPQ {
  pairs : list Pair;
  sizeD : Z;
  indexMap : gmap T Z
}.

Definition zeroPair : Pair := mkPair f32_zero zero_value.

Definition set_pairs (q : PriorityQueue) (l : list Pair) : PriorityQueue :=
  mkPQ l (sizeD q) (indexMap q).

Definition set_indexMap (q : PriorityQueue) (m : gmap T Z) : PriorityQueue :=
  mkPQ (pairs q) (sizeD q) m.

(** [len(q.pairs)] *)
Definition len (q : PriorityQueue) : Z := Z.of_nat (length (pairs q)).

(** [l[i]] *)
Definition index_pairs (l : list Pair) (i : Z) : outcome Pair :=
  if 0 <=? i then
    match l !! Z.to_nat i with
    | Some p => Done p
    | None => Panic
    end
  else Panic.

(** [l[i] = p] *)
Definition store_pairs (l : list Pair) (i : Z) (p : Pair) : outcome (list Pair) :=
  if (0 <=? i) && (i <? Z.of_nat (length l)) then Done (<[Z.to_nat i := p]> l) else Panic.

(** [l[:k]] *)
Definition slice_to (l : list Pair) (k : Z) : outcome (list Pair) :=
  if (0 <=? k) && (k <=? Z.of_nat (length l)) then Done (take (Z.to_nat k) l) else Panic.

(** [q.indexMap[v] = i] *)
Definition map_store (q : PriorityQueue) (v : T) (i : Z) : PriorityQueue :=
  set_indexMap q (<[v := i]> (indexMap q)).

(** [delete(q.indexMap, v)] *)
Definition map_delete (q : PriorityQueue) (v : T) : PriorityQueue :=
  set_indexMap q (delete v (indexMap q)).

(** [make([]Pair[T], 0, capacity)]: an empty slice, or a panic when the
    capacity is negative or beyond what the runtime grants. *)
Definition make_pairs (capacity : Z) : outcome (list Pair) :=
  if (capacity <? 0) || ((0 <? capacity) && (max_cap <? capacity)) then Panic
  else Done [].

(** [make(map[T]int, capacity)]: the capacity is a hint; a hint the
    runtime cannot honour is ignored, so an empty map always comes back. *)
Definition make_indexMap (capacity : Z) : outcome (gmap T Z) := Done ∅.

(** [func NewPriorityQueue[T comparable](d int, capacity int) *PriorityQueue[T]] *)
Definition NewPriorityQueue (d capacity : Z) : outcome PriorityQueue :=
  let d := if d <? 2 then 2 else d in
  let capacity := if capacity <? 0 then 0 else capacity in
  do l <- make_pairs capacity;
  do m <- make_indexMap capacity;
  Done (mkPQ l d m).

(** [func (q *PriorityQueue[T]) isEmpty() bool] *)
Definition isEmpty (q : PriorityQueue) : bool := len q =? 0.

(** [func (q *PriorityQueue[T]) getParentIndex(parentIndex int) int] *)
Definition getParentIndex (q : PriorityQueue) (parentIndex : Z) : outcome Z :=
  int_quot (parentIndex - 1)%int (sizeD q).

(** [func (q *PriorityQueue[T]) firstLeafIndex() int] *)
Definition firstLeafIndex (q : PriorityQueue) : outcome Z :=
  do x <- int_quot (len q - 2)%int (sizeD q);
  Done (x + 1)%int.

(** [func (q *PriorityQueue[T]) removeLast() Pair[T]] *)
Definition removeLast (q : PriorityQueue) : outcome (PriorityQueue * Pair) :=
  do element <- index_pairs (pairs q) (len q - 1)%int;
  let q := map_delete q (value element) in
  do l <- slice_to (pairs q) (len q - 1)%int;
  Done (set_pairs q l, element).

(** One round of the loop of [bubbleUpIndex]; the state is the queue and
    [index]. *)
Definition bubbleUp_body (current : Pair) (s : PriorityQueue * Z)
  : outcome (ctl (PriorityQueue * Z)) :=
  let '(q, index) := s in
  if index >? 0 then
    do parentIndex <- getParentIndex q index;
    do parent <- index_pairs (pairs q) parentIndex;
    if f32_lt (priority parent) (priority current) then
      do moved <- index_pairs (pairs q) parentIndex;
      do l <- store_pairs (pairs q) index moved;
      let q := set_pairs q l in
      do at_index <- index_pairs (pairs q) index;
      let q := map_store q (value at_index) index in
      Done (Next (q, parentIndex))
    else Done (Break (q, index))
  else Done (Break (q, index)).

(** [func (q *PriorityQueue[T]) bubbleUpIndex(index int)] *)
Definition bubbleUpIndex (fuel : nat) (q : PriorityQueue) (index : Z) : outcome PriorityQueue :=
  do current <- index_pairs (pairs q) index;
  do (q, index) <- for_loop fuel (bubbleUp_body current) (q, index);
  do l <- store_pairs (pairs q) index current;
  let q := set_pairs q l in
  Done (map_store q (value current) index).

(** [func (q *PriorityQueue[T]) bubbleUp()] *)
Definition bubbleUp (fuel : nat) (q : PriorityQueue) : outcome PriorityQueue :=
  bubbleUpIndex fuel q (len q - 1)%int.

(** One round of the scan of [highestPriorityChild]; the state is
    [(i, best, bestIdx)]. *)
Definition scan_body (q : PriorityQueue) (end_ : Z) (s : Z * Pair * Z)
  : outcome (ctl (Z * Pair * Z)) :=
  let '(i, best, bestIdx) := s in
  if i <=? end_ then
    do p <- index_pairs (pairs q) i;
    if f32_gt (priority p) (priority best) then
      do p' <- index_pairs (pairs q) i;
      Done (Next ((i + 1)%int, p', i))
    else Done (Next ((i + 1)%int, best, bestIdx))
  else Done (Break s).

(** [func (q *PriorityQueue[T]) highestPriorityChild(currentIndex int) (best Pair[T], bestIdx int)] *)
Definition highestPriorityChild (fuel : nat) (q : PriorityQueue) (currentIndex : Z)
  : outcome (Pair * Z) :=
  let start := (currentIndex * sizeD q + 1)%int in
  if start >=? len q then Done (zeroPair, -1)
  else
    let end_ := (start + sizeD q - 1)%int in
    let end_ := if end_ >=? len q then (len q - 1)%int else end_ in
    let bestIdx := start in
    do best <- index_pairs (pairs q) start;
    do (ibest, bestIdx) <- for_loop fuel (scan_body q end_) ((start + 1)%int, best, bestIdx);
    Done (snd ibest, bestIdx).

(** One round of the loop of [pushDownIndex]; the state is the queue and
    [currentIndex]. *)
Definition pushDown_body (fuel : nat) (s : PriorityQueue * Z)
  : outcome (ctl (PriorityQueue * Z)) :=
  let '(q, currentIndex) := s in
  do first <- firstLeafIndex q;
  if currentIndex <? first then
    do (best, childIndex) <- highestPriorityChild fuel q currentIndex;
    if childIndex =? -1 then Done (Break (q, currentIndex))
    else
      do child <- index_pairs (pairs q) childIndex;
      do cur <- index_pairs (pairs q) currentIndex;
      if f32_gt (priority child) (priority cur) then
        do a <- index_pairs (pairs q) childIndex;
        do b <- index_pairs (pairs q) currentIndex;
        do l <- store_pairs (pairs q) currentIndex a;
        do l <- store_pairs l childIndex b;
        let q := set_pairs q l in
        do x <- index_pairs (pairs q) currentIndex;
        let q := map_store q (value x) currentIndex in
        do y <- index_pairs (pairs q) childIndex;
        let q := map_store q (value y) childIndex in
        Done (Next (q, childIndex))
      else Done (Break (q, currentIndex))
  else Done (Break (q, currentIndex)).

(** [func (q *PriorityQueue[T]) pushDownIndex(currentIndex int)] *)
Definition pushDownIndex (fuel : nat) (q : PriorityQueue) (currentIndex : Z)
  : outcome PriorityQueue :=
  do (q, last) <- for_loop fuel (pushDown_body fuel) (q, currentIndex);
  Done q.

(** [func (q *PriorityQueue[T]) pushDown()] *)
Definition pushDown (fuel : nat) (q : PriorityQueue) : outcome PriorityQueue :=
  pushDownIndex fuel q 0.

(** [func (q *PriorityQueue[T]) Top() (Pair[T], error)]; a [nil] error is
    [None]. *)
Definition Top (fuel : nat) (q : PriorityQueue)
  : outcome (PriorityQueue * (Pair * option error)) :=
  if isEmpty q then Done (q, (zeroPair, Some ErrQueueIsEmpty))
  else
    do (q, p) <- removeLast q;
    if isEmpty q then Done (q, (p, None))
    else
      do element <- index_pairs (pairs q) 0;
      do l <- store_pairs (pairs q) 0 p;
      let q := set_pairs q l in
      let q := map_store q (value p) 0 in
      do q <- pushDown fuel q;
      let q := map_delete q (value element) in
      Done (q, (element, None)).

(** [func (q *PriorityQueue[T]) Peek() (Pair[T], error)] *)
Definition Peek (q : PriorityQueue) : outcome (PriorityQueue * (Pair * option error)) :=
  if isEmpty q then Done (q, (zeroPair, Some ErrQueueIsEmpty))
  else
    do p <- index_pairs (pairs q) 0;
    Done (q, (p, None)).

(** [func (q *PriorityQueue[T]) Insert(element T, priority float32)] *)
Definition Insert (fuel : nat) (q : PriorityQueue) (element : T) (prio : float32)
  : outcome PriorityQueue :=
  let newPair := mkPair prio element in
  let q := set_pairs q (pairs q ++ [newPair]) in
  let q := map_store q element (len q - 1)%int in
  bubbleUp fuel q.

(** [func (q *PriorityQueue[T]) Remove(element T) error] *)
Definition Remove (fuel : nat) (q : PriorityQueue) (element : T)
  : outcome (PriorityQueue * option error) :=
  match indexMap q !! element with
  | None => Done (q, Some ErrElementNotFound)
  | Some index =>
      let lastIndex := (len q - 1)%int in
      if index =? lastIndex then
        do l <- slice_to (pairs q) lastIndex;
        let q := set_pairs q l in
        let q := map_delete q element in
        Done (q, None)
      else
        do removed <- index_pairs (pairs q) index;
        let removedElement := value removed in
        let removedPriority := priority removed in
        do last <- index_pairs (pairs q) lastIndex;
        do l <- store_pairs (pairs q) index last;
        let q := set_pairs q l in
        do at_index <- index_pairs (pairs q) index;
        let q := map_store q (value at_index) index in
        do l <- slice_to (pairs q) lastIndex;
        let q := set_pairs q l in
        let q := map_delete q removedElement in
        do moved <- index_pairs (pairs q) index;
        if f32_lt (priority moved) removedPriority then
          do q <- bubbleUpIndex fuel q index;
          Done (q, None)
        else
          do moved' <- index_pairs (pairs q) index;
          if f32_gt (priority moved') removedPriority then
            do q <- pushDownIndex fuel q index;
            Done (q, None)
          else Done (q, None)
  end.

(** [func (q *PriorityQueue[T]) Update(element T, newPriority float32) error] *)
Definition Update (fuel : nat) (q : PriorityQueue) (element : T) (newPriority : float32)
  : outcome (PriorityQueue * option error) :=
  match indexMap q !! element with
  | None => Done (q, Some ErrElementNotFound)
  | Some index =>
      do old <- index_pairs (pairs q) index;
      let oldPriority := priority old in
      do l <- store_pairs (pairs q) index (mkPair newPriority (value old));
      let q := set_pairs q l in
      if f32_lt newPriority oldPriority then
        do q <- bubbleUpIndex fuel q index;
        Done (q, None)
      else if f32_gt newPriority oldPriority then
        do q <- pushDownIndex fuel q index;
        Done (q, None)
      else Done (q, None)
  end.

(** The first loop of [heapify]: [for i, pair := range q.pairs] writes
    [q.indexMap[pair.value] = i]; [i] is the position of the head of [l]. *)
Fixpoint range_index (i : Z) (l : list Pair) (m : gmap T Z) : gmap T Z :=
  match l with
  | [] => m
  | p :: l' => range_index (i + 1)%int l' (<[value p := i]> m)
  end.

(** One round of the second loop of [heapify]; the state is the queue and
    [index]. *)
Definition heapify_body (fuel : nat) (s : PriorityQueue * Z)
  : outcome (ctl (PriorityQueue * Z)) :=
  let '(q, index) := s in
  if index >=? 0 then
    do q <- pushDownIndex fuel q index;
    Done (Next (q, (index - 1)%int))
  else Done (Break (q, index)).

(** [func (q *PriorityQueue[T]) heapify()] *)
Definition heapify (fuel : nat) (q : PriorityQueue) : outcome PriorityQueue :=
  let q := set_indexMap q (range_index 0 (pairs q) ∅) in
  do start <- int_quot (len q - 1)%int (sizeD q);
  do (q, index) <- for_loop fuel (heapify_body fuel) (q, start);
  Done q.

End PriorityQueue.

Arguments Pair T : clear implicits.
Arguments PriorityQueue T {_ _}.

Arguments mkPair {T} priority value.

(** ** Call sequences *)

Inductive op (T : Type) : Type :=
| OpInsert (v : T) (p : float32)
| OpRemove (v : T)
| OpUpdate (v : T) (p : float32)
| OpTop.

Arguments OpInsert {T} v p.
Arguments OpRemove {T} v.
Arguments OpUpdate {T} v p.
Arguments OpTop {T}.

Section Runs.

Context {T : Type} `{Countable T} `{GoZero T}.

(** One public mutating call; the value it hands back is dropped. *)
Definition exec (fuel : nat) (q : PriorityQueue T) (o : op T) : outcome (PriorityQueue T) :=
  match o with
  | OpInsert v p => Insert fuel q v p
  | OpRemove v => do (q', e) <- Remove fuel q v; Done q'
  | OpUpdate v p => do (q', e) <- Update fuel q v p; Done q'
  | OpTop => do (q', r) <- Top fuel q; Done q'
  end.

Fixpoint run (fuel : nat) (q : PriorityQueue T) (ops : list (op T)) : outcome (PriorityQueue T) :=
  match ops with
  | [] => Done q
  | o :: ops' => do q' <- exec fuel q o; run fuel q' ops'
  end.

(** The values held in storage, in storage order. *)
Definition stored (q : PriorityQueue T) : list T := value <$> pairs q.

(** Precondition of [Insert]: the value is not already stored. *)
Definition op_pre (q : PriorityQueue T) (o : op T) : Prop :=
  match o with
  | OpInsert v _ => v ∉ stored q
  | _ => True
  end.

(** Every [Insert] of the sequence meets its precondition in the state it
    is called in. *)
Fixpoint fresh_inserts (fuel : nat) (q : PriorityQueue T) (ops : list (op T)) : Prop :=
  match ops with
  | [] => True
  | o :: ops' =>
      op_pre q o ∧
      match exec fuel q o with
      | Done q' => fresh_inserts fuel q' ops'
      | _ => True
      end
  end.

(** [Top] until the queue is empty, at most [n] times; the entries in the
    order they come out. *)
Fixpoint drain (fuel : nat) (n : nat) (q : PriorityQueue T) : outcome (list (Pair T)) :=
  if isEmpty q then Done []
  else
    match n with
    | O => OutOfFuel
    | S n' =>
        do (q', r) <- Top fuel q;
        do rest <- drain fuel n' q';
        Done (fst r :: rest)
    end.

(** ** The structural invariants of the specification *)

(** Max-heap: the priority of every entry but the root is at most its
    parent's. *)
Definition max_heap (q : PriorityQueue T) : Prop :=
  ∀ (i : nat) (p pp : Pair T),
    (0 < i)%nat →
    pairs q !! i = Some p →
    pairs q !! Z.to_nat ((Z.of_nat i - 1) / sizeD q) = Some pp →
    SFleb (priority p) (priority pp) = true.

(** Index consistency: every occupied position is the one the index gives
    for its value, and the index has exactly the stored values as keys. *)
Definition index_consistent (q : PriorityQueue T) : Prop :=
  (∀ (i : nat) (p : Pair T), pairs q !! i = Some p → indexMap q !! value p = Some (Z.of_nat i))
  ∧ dom (indexMap q) = list_to_set (stored q).

(** Extraction order: no entry comes out with a priority above the one
    that came out just before it. *)
Definition non_increasing (out : list (Pair T)) : Prop :=
  ∀ (i : nat) (p p' : Pair T),
    out !! i = Some p → out !! S i = Some p' →
    SFleb (priority p') (priority p) = true.

(** The two halves of index consistency on bare storage and index.
    [indexed]: storage is recorded in the index. [covered stale]: every
    key of the index other than the [stale] ones is a stored value. *)
Definition indexed (l : list (Pair T)) (m : gmap T Z) : Prop :=
  ∀ (i : nat) (p : Pair T), l !! i = Some p → m !! value p = Some (Z.of_nat i).

Definition covered (stale : T → Prop) (l : list (Pair T)) (m : gmap T Z) : Prop :=
  ∀ (v : T) (z : Z), m !! v = Some z → stale v ∨ v ∈ value <$> l.

Definition no_stale : T → Prop := λ _, False.

(** No stored priority is a NaN. *)
Definition no_nan (l : list (Pair T)) : bool :=
  forallb (λ p, negb (is_nan (priority p))) l.

(** The queue a bubble-up would leave if it stopped now: the travelling
    entry written at the hole and indexed there. *)
Definition plug (current : Pair T) (s : PriorityQueue T * Z) : PriorityQueue T :=
  mkPQ (<[Z.to_nat (snd s) := current]> (pairs (fst s))) (sizeD (fst s))
       (<[value current := snd s]> (indexMap (fst s))).

(** The position of the parent, [(i-1)/d], of position [i]. *)
Definition parent_of (d : Z) (i : nat) : nat := Z.to_nat ((Z.of_nat i - 1) / d).

(** Position [i] is in order with its parent. *)
Definition ordered_at (d : Z) (l : list (Pair T)) (i : nat) : Prop :=
  ∀ p pp, l !! i = Some p → l !! parent_of d i = Some pp →
          SFleb (priority p) (priority pp) = true.

(** Heap order at every position whose parent is at [k] or beyond;
    [heap_from d 0] is the max-heap order. *)
Definition heap_from (d : Z) (k : nat) (l : list (Pair T)) : Prop :=
  ∀ i, (0 < i)%nat → (k <= parent_of d i)%nat → ordered_at d l i.

(** Heap order but for the entry at the hole [h], which may be above its
    parent; the children of [h] are in order with the parent of [h]. *)
Definition hole_heap (d : Z) (l : list (Pair T)) (h : nat) : Prop :=
  (∀ i, (0 < i)%nat → i ≠ h → ordered_at d l i)
  ∧ ((0 < h)%nat →
     ∀ c pc pg, (0 < c)%nat → parent_of d c = h →
       l !! c = Some pc → l !! parent_of d h = Some pg →
       SFleb (priority pc) (priority pg) = true).

(** Heap order from [k] on but for the entry at [cur], which may be below
    its children; the children of [cur] are in order with the parent of
    [cur]. *)
Definition sift_heap (d : Z) (k : nat) (l : list (Pair T)) (cur : nat) : Prop :=
  (∀ i, (0 < i)%nat → (k <= parent_of d i)%nat → parent_of d i ≠ cur → ordered_at d l i)
  ∧ ((k < cur)%nat →
     ∀ c pc pg, (0 < c)%nat → parent_of d c = cur →
       l !! c = Some pc → l !! parent_of d cur = Some pg →
       SFleb (priority pc) (priority pg) = true).

(** No stored priority is a NaN, as a proposition. *)
Definition nan_free (l : list (Pair T)) : Prop :=
  ∀ p, p ∈ l → is_nan (priority p) = false.

(** Every stored priority is at most [r]'s. *)
Definition all_below (r : Pair T) (l : list (Pair T)) : Prop :=
  ∀ p, p ∈ l → SFleb (priority p) (priority r) = true.

(** Calls that only insert a number or extract the maximum. *)
Definition insert_or_top (o : op T) : Prop :=
  match o with
  | OpInsert _ p => is_nan p = false
  | OpTop => True
  | _ => False
  end.

(** Position [j] is one of the up to [d] children of position [i]. *)
Definition children_of (d : Z) (i j : nat) : Prop :=
  Z.of_nat i * d + 1 <= Z.of_nat j <= Z.of_nat i * d + d.

(** The child a round of push-down is to compare with: [c] holds the
    highest priority among the stored children of [i], and every child
    before it holds a strictly lower one, so that among equals the lowest
    position wins. *)
Definition highest_child (d : Z) (l : list (Pair T)) (i c : nat) (child : Pair T) : Prop :=
  children_of d i c
  ∧ l !! c = Some child
  ∧ (∀ j pj, children_of d i j → l !! j = Some pj →
       SFleb (priority pj) (priority child) = true)
  ∧ (∀ j pj, children_of d i j → (j < c)%nat → l !! j = Some pj →
       f32_lt (priority pj) (priority child) = true).

(** The descent of the entry at position [i], in the words of the
    specification: while the highest child strictly exceeds the entry the
    two are exchanged and the descent goes on from the child's position;
    it stops, leaving storage as it is, when no stored child exceeds the
    entry (in particular when there is none). [descent d l i l'] says that
    the descent from [i] turns storage [l] into [l']. *)
Inductive descent (d : Z) : list (Pair T) → nat → list (Pair T) → Prop :=
| descent_stop (l : list (Pair T)) (i : nat) (entry : Pair T) :
    l !! i = Some entry →
    (∀ j pj, children_of d i j → l !! j = Some pj →
       f32_gt (priority pj) (priority entry) = false) →
    descent d l i l
| descent_swap (l : list (Pair T)) (i : nat) (entry : Pair T) (c : nat) (child : Pair T)
    (l' : list (Pair T)) :
    l !! i = Some entry →
    highest_child d l i c child →
    f32_gt (priority child) (priority entry) = true →
    descent d (<[c := entry]> (<[i := child]> l)) c l' →
    descent d l i l'.

(** The calls that insert the entries of [l], first to last. *)
Definition insert_all (l : list (Pair T)) : list (op T) :=
  (λ p, OpInsert (value p) (priority p)) <$> l.

(** What the constructor and the slice type guarantee. *)
Definition wf (q : PriorityQueue T) : Prop :=
  2 <= sizeD q <= GoInt.max_int ∧ len q <= GoInt.max_int.

End Runs.

(** ** The scenario of the specification *)

Module Scenario.

Definition A : string := "A".
Definition B : string := "B".
Definition C : string := "C".

Definition fuel : nat := 8.

(** The queue [NewPriorityQueue(2, 0)] returns ([Instances.q0_is_new]). *)
Definition q0 : PriorityQueue string := mkPQ [] 2 ∅.

(** [Insert(A,10), Insert(B,5), Insert(C,8)], then [Update(B,20)],
    [Remove(A)] and [Top()] twice, with a [Peek()] after each stage. *)
Definition observations : outcome (list (Pair string * option error)) :=
  do q <- run fuel q0 [OpInsert A (f32 10); OpInsert B (f32 5); OpInsert C (f32 8)];
  do (q, peek1) <- Peek q;
  do (q, e) <- Update fuel q B (f32 20);
  do (q, peek2) <- Peek q;
  do (q, e) <- Remove fuel q A;
  do (q, peek3) <- Peek q;
  do (q, top1) <- Top fuel q;
  do (q, peek4) <- Peek q;
  do (q, top2) <- Top fuel q;
  do (q, peek5) <- Peek q;
  Done [peek1; peek2; peek3; top1; peek4; top2; peek5].

Definition D : string := "D".
Definition E : string := "E".

(** Two entries, then the root's priority lowered. *)
Definition lowered_root : list (op string) :=
  [OpInsert A (f32 10); OpInsert B (f32 5); OpUpdate A (f32 1)].

(** Two entries, then the leaf's priority raised. *)
Definition raised_leaf : list (op string) :=
  [OpInsert A (f32 10); OpInsert B (f32 5); OpUpdate B (f32 20)].

(** Five entries stored as [10, 9, 8, 7, 6], then the entry of priority 9
    removed. *)
Definition removed_inner : list (op string) :=
  [OpInsert A (f32 10); OpInsert B (f32 9); OpInsert C (f32 8);
   OpInsert D (f32 7); OpInsert E (f32 6); OpRemove B].

(** Three entries, then the root's priority lowered. *)
Definition lowered_root3 : list (op string) :=
  [OpInsert A (f32 10); OpInsert B (f32 5); OpInsert C (f32 8); OpUpdate A (f32 1)].

(** The whole scenario as one call sequence. *)
Definition calls : list (op string) :=
  [OpInsert A (f32 10); OpInsert B (f32 5); OpInsert C (f32 8);
   OpUpdate B (f32 20); OpRemove A; OpTop; OpTop].

(** A queue whose root is below both its children. *)
Definition low_root : PriorityQueue string :=
  mkPQ [mkPair (f32 1) A; mkPair (f32 5) B; mkPair (f32 8) C] 2
       (<[C := 2]> (<[B := 1]> (<[A := 0]> ∅))).

(** Four entries in heap order; [Top] moves (1,D) to the root and lets it
    descend. *)
Definition four_entries : PriorityQueue string :=
  mkPQ [mkPair (f32 10) A; mkPair (f32 5) B; mkPair (f32 8) C; mkPair (f32 1) D] 2
       (<[D := 3]> (<[C := 2]> (<[B := 1]> (<[A := 0]> ∅)))).

(** Calls that leave a NaN priority at position 1: a NaN neither rises
    nor lets a later entry pass. *)
Definition nan_calls : list (op string) :=
  [OpInsert D (f32 100); OpInsert B S754_nan; OpInsert C (f32 7); OpInsert A (f32 1)].

(** The queue those calls build from [q0]. *)
Definition nan_child : PriorityQueue string :=
  mkPQ [mkPair (f32 100) D; mkPair S754_nan B; mkPair (f32 7) C; mkPair (f32 1) A] 2
       (<[A := 3]> (<[C := 2]> (<[B := 1]> (<[D := 0]> ∅)))).

(** A queue holding [A] twice would arise from this one. *)
Definition two_entries : PriorityQueue string :=
  mkPQ [mkPair (f32 10) A; mkPair (f32 5) B] 2 (<[B := 1]> (<[A := 0]> ∅)).

(** What the specification announces for the same calls. *)
Definition announced : list (Pair string * option error) :=
  [ (mkPair (f32 10) A, None); (mkPair (f32 20) B, None); (mkPair (f32 20) B, None);
    (mkPair (f32 20) B, None); (mkPair (f32 8) C, None); (mkPair (f32 8) C, None);
    (zeroPair, Some ErrQueueIsEmpty) ].

End Scenario.

(** * Properties *)

(** ** Machine arithmetic *)

Lemma wrap_id (z : Z) : GoInt.min_int <= z <= GoInt.max_int → GoInt.wrap z = z.
Proof.
  unfold GoInt.min_int, GoInt.max_int, GoInt.wrap. intros Hz.
  rewrite Z.mod_small by lia. lia.
Qed.

Lemma wrap_sub_l (a b : Z) : GoInt.wrap (GoInt.wrap a - b) = GoInt.wrap (a - b).
Proof.
  unfold GoInt.wrap. f_equal.
  replace ((a + 9223372036854775808) mod 18446744073709551616 - 9223372036854775808 - b
           + 9223372036854775808)
    with ((a + 9223372036854775808) mod 18446744073709551616 - b) by lia.
  rewrite Zminus_mod_idemp_l. f_equal. lia.
Qed.

(** Closes the side conditions of [wrap_id]. *)
Ltac int_range := unfold GoInt.min_int, GoInt.max_int, GoInt.half_range in *; lia.

(** Removes the wrap-around of operations whose result provably fits. *)
Ltac int_simpl :=
  unfold GoInt.add, GoInt.sub, GoInt.mul;
  repeat match goal with
  | |- context [GoInt.wrap ?z] =>
      lazymatch z with
      | context [GoInt.wrap _] => fail
      | _ => rewrite (wrap_id z) by int_range
      end
  end.

Lemma int_quot_pos (a b : Z) :
  0 <= a <= GoInt.max_int → 0 < b → int_quot a b = Done (a / b).
Proof.
  intros Ha Hb. unfold int_quot.
  destruct (Z.eqb_spec b 0) as [->|_]; [lia|].
  rewrite Z.quot_div_nonneg by lia.
  assert (0 <= a / b <= a).
  { split; [apply Z.div_pos; lia|]. apply Z.div_le_upper_bound; nia. }
  rewrite wrap_id by int_range. reflexivity.
Qed.

(** ** Outcomes and loops *)

Lemma obind_fuel {A B : Type} (m : outcome A) (k : A → outcome B) :
  m ≠ OutOfFuel → (∀ a, m = Done a → k a ≠ OutOfFuel) → obind m k ≠ OutOfFuel.
Proof. destruct m; simpl; intros Hm Hk; auto; try discriminate. Qed.

(** A loop whose rounds keep [I] and decrease [measure] ends normally, in a
    state that some round left through [Break]. *)
Lemma for_loop_total {S : Type} (body : S → outcome (ctl S))
    (I Q : S → Prop) (measure : S → nat) :
  (∀ s, I s → ∃ r, body s = Done r ∧
      match r with
      | Next s' => I s' ∧ (measure s' < measure s)%nat
      | Break s' => Q s'
      end) →
  ∀ fuel s, I s → (measure s < fuel)%nat → ∃ s', for_loop fuel body s = Done s' ∧ Q s'.
Proof.
  intros Hbody fuel. induction fuel as [|fuel IH]; intros s Hs Hm; [lia|].
  destruct (Hbody s Hs) as (r & Er & Hr). simpl. rewrite Er. simpl.
  destruct r as [s'|s'].
  - destruct Hr as [Hs' Hdec]. apply IH; [exact Hs'|lia].
  - eauto.
Qed.

(** The same without asking the rounds to succeed: whatever happens, the
    budget is not what stops the loop. *)
Lemma for_loop_fuel {S : Type} (body : S → outcome (ctl S))
    (I : S → Prop) (measure : S → nat) :
  (∀ s, I s → body s ≠ OutOfFuel ∧
      ∀ s', body s = Done (Next s') → I s' ∧ (measure s' < measure s)%nat) →
  ∀ fuel s, I s → (measure s < fuel)%nat → for_loop fuel body s ≠ OutOfFuel.
Proof.
  intros Hbody fuel. induction fuel as [|fuel IH]; intros s Hs Hm; [lia|].
  destruct (Hbody s Hs) as [Hne Hnext]. simpl.
  destruct (body s) as [[s'|s']| |] eqn:Er; simpl; try discriminate; try congruence.
  destruct (Hnext s' eq_refl) as [Hs' Hdec]. apply IH; [exact Hs'|lia].
Qed.

(** ** float32 comparisons *)

Ltac cmp_cases :=
  repeat match goal with
  | H : context [Pos.compare_cont Eq ?a ?b] |- _ =>
      change (Pos.compare_cont Eq a b) with (Pos.compare a b) in H
  | |- context [Pos.compare_cont Eq ?a ?b] =>
      change (Pos.compare_cont Eq a b) with (Pos.compare a b)
  | H : context [Z.compare ?a ?b] |- _ => destruct (Z.compare_spec a b); subst
  | |- context [Z.compare ?a ?b] => destruct (Z.compare_spec a b); subst
  | H : context [Pos.compare ?a ?b] |- _ => destruct (Pos.compare_spec a b); subst
  | |- context [Pos.compare ?a ?b] => destruct (Pos.compare_spec a b); subst
  end.

Lemma f32_lt_trans (a b c : float32) :
  f32_lt a b = true → f32_lt b c = true → f32_lt a c = true.
Proof.
  unfold f32_lt, SFltb, SFcompare.
  destruct a as [sa|sa| |sa ma ea], b as [sb|sb| |sb mb eb], c as [sc|sc| |sc mc ec];
    try discriminate; try reflexivity;
    repeat match goal with s : bool |- _ => destruct s end;
    try discriminate; try reflexivity; intros H1 H2;
    cmp_cases; simpl in *; try discriminate; try reflexivity; lia.
Qed.

(** Away from NaN the order is total enough: an element that is not above
    [a] is below everything [a] is below. *)
Lemma f32_lt_cotrans (a b c : float32) :
  is_nan c = false → f32_lt a b = true → f32_lt a c = true ∨ f32_lt c b = true.
Proof.
  unfold f32_lt, SFltb, SFcompare.
  destruct a as [sa|sa| |sa ma ea], b as [sb|sb| |sb mb eb], c as [sc|sc| |sc mc ec];
    try discriminate;
    repeat match goal with s : bool |- _ => destruct s end;
    try discriminate; intros _ H1; auto;
    cmp_cases; simpl in *; try discriminate; auto; lia.
Qed.

Lemma f32_le_not_lt (a b : float32) : SFleb a b = true → f32_lt b a = false.
Proof.
  unfold f32_lt, SFltb, SFleb, SFcompare.
  destruct a as [sa|sa| |sa ma ea], b as [sb|sb| |sb mb eb];
    try discriminate; try reflexivity;
    repeat match goal with s : bool |- _ => destruct s end;
    try discriminate; try reflexivity;
    cmp_cases; simpl; try discriminate; try reflexivity; intros _; lia.
Qed.

Lemma f32_lt_irrefl (a : float32) : f32_lt a a = false.
Proof.
  unfold f32_lt, SFltb, SFcompare.
  destruct a as [[]|[]| |[] m e]; try reflexivity;
    cmp_cases; simpl; try reflexivity; lia.
Qed.

(** ** Storage and index primitives *)

Section Primitives.

Context {T : Type} `{Countable T} `{GoZero T}.
Implicit Types (q : PriorityQueue T) (l : list (Pair T)) (m : gmap T Z) (p : Pair T).

Lemma index_pairs_ok l i p :
  0 <= i → l !! Z.to_nat i = Some p → index_pairs l i = Done p.
Proof.
  intros Hi Hl. unfold index_pairs.
  destruct (Z.leb_spec 0 i); [|lia]. rewrite Hl. reflexivity.
Qed.

Lemma index_pairs_inv l i p :
  index_pairs l i = Done p →
  0 <= i < Z.of_nat (length l) ∧ l !! Z.to_nat i = Some p.
Proof.
  unfold index_pairs. destruct (Z.leb_spec 0 i); [|discriminate].
  destruct (l !! Z.to_nat i) as [p'|] eqn:E; [|discriminate].
  intros [= ->]. pose proof (lookup_lt_Some _ _ _ E). split; [lia|reflexivity].
Qed.

Lemma index_pairs_fuel l i : index_pairs l i ≠ OutOfFuel.
Proof.
  unfold index_pairs. destruct (0 <=? i); [|discriminate].
  destruct (l !! Z.to_nat i); discriminate.
Qed.

Lemma store_pairs_ok l i p :
  0 <= i < Z.of_nat (length l) → store_pairs l i p = Done (<[Z.to_nat i := p]> l).
Proof.
  intros Hi. unfold store_pairs.
  destruct (Z.leb_spec 0 i); [|lia].
  destruct (Z.ltb_spec i (Z.of_nat (length l))); [|lia]. reflexivity.
Qed.

Lemma store_pairs_inv l i p l' :
  store_pairs l i p = Done l' →
  0 <= i < Z.of_nat (length l) ∧ l' = <[Z.to_nat i := p]> l.
Proof.
  unfold store_pairs.
  destruct (Z.leb_spec 0 i); [|discriminate].
  destruct (Z.ltb_spec i (Z.of_nat (length l))); [|discriminate].
  intros [= <-]. split; [lia|reflexivity].
Qed.

Lemma store_pairs_fuel l i p : store_pairs l i p ≠ OutOfFuel.
Proof. unfold store_pairs. destruct (_ && _); discriminate. Qed.

Lemma slice_to_ok l k :
  0 <= k <= Z.of_nat (length l) → slice_to l k = Done (take (Z.to_nat k) l).
Proof.
  intros Hk. unfold slice_to.
  destruct (Z.leb_spec 0 k); [|lia].
  destruct (Z.leb_spec k (Z.of_nat (length l))); [|lia]. reflexivity.
Qed.

Lemma slice_to_fuel l k : slice_to l k ≠ OutOfFuel.
Proof. unfold slice_to. destruct (_ && _); discriminate. Qed.

Lemma int_quot_fuel (a b : Z) : int_quot a b ≠ OutOfFuel.
Proof. unfold int_quot. destruct (b =? 0); discriminate. Qed.

Lemma isEmpty_true q : isEmpty q = true ↔ pairs q = [].
Proof.
  unfold isEmpty, len. rewrite Z.eqb_eq.
  destruct (pairs q) as [|p l]; cbn [length].
  - split; reflexivity.
  - split; [lia|discriminate].
Qed.

Lemma isEmpty_false q : isEmpty q = false ↔ pairs q ≠ [].
Proof.
  rewrite <- isEmpty_true. destruct (isEmpty q); split; congruence.
Qed.

End Primitives.

(** ** Proof steps shared below *)

(** Exposes the record a chain of field updates denotes. *)
Ltac unfold_setters :=
  unfold map_delete, map_store, set_indexMap, set_pairs;
  cbn [pairs sizeD indexMap].

(** Steps over a primitive read or write, which never uses fuel. *)
Ltac fuel_bind :=
  apply obind_fuel;
  [ first [apply index_pairs_fuel | apply store_pairs_fuel | apply slice_to_fuel]
  | intros ? ? ].

(** Splits on the outcome of every call a goal still waits for. *)
Ltac step_binds :=
  repeat match goal with
  | |- context [obind ?m _] => destruct m as [?| |] eqn:?; simpl
  | |- context [match ?x with (_, _) => _ end] => destruct x; simpl
  | |- context [if ?b then _ else _] => destruct b eqn:?; simpl
  end.

(** Checks the precondition of every [Insert] of a concrete sequence. *)
Ltac fresh_tac :=
  vm_compute; repeat split;
  try (intros Hin; apply list_elem_of_In in Hin; cbn in Hin; intuition discriminate).

(** ** Error returns *)

Section Errors.

Context {T : Type} `{Countable T} `{GoZero T}.
Implicit Types (q : PriorityQueue T) (r : Pair T) (e : error) (v : T).

Lemma Peek_error q q' r e :
  Peek q = Done (q', (r, Some e)) ↔
  pairs q = [] ∧ q' = q ∧ r = zeroPair ∧ e = ErrQueueIsEmpty.
Proof.
  unfold Peek. destruct (isEmpty q) eqn:E.
  - apply isEmpty_true in E. split.
    + intros [= <- <- <-]. auto.
    + intros (_ & -> & -> & ->). reflexivity.
  - apply isEmpty_false in E. split.
    + step_binds; discriminate.
    + intros (E' & _). contradiction.
Qed.

Lemma Top_error fuel q q' r e :
  Top fuel q = Done (q', (r, Some e)) ↔
  pairs q = [] ∧ q' = q ∧ r = zeroPair ∧ e = ErrQueueIsEmpty.
Proof.
  unfold Top. destruct (isEmpty q) eqn:E.
  - apply isEmpty_true in E. split.
    + intros [= <- <- <-]. auto.
    + intros (_ & -> & -> & ->). reflexivity.
  - apply isEmpty_false in E. split.
    + step_binds; discriminate.
    + intros (E' & _). contradiction.
Qed.

Lemma Remove_error fuel q v q' e :
  Remove fuel q v = Done (q', Some e) ↔
  indexMap q !! v = None ∧ q' = q ∧ e = ErrElementNotFound.
Proof.
  unfold Remove. destruct (indexMap q !! v) as [index|] eqn:E.
  - split.
    + step_binds; discriminate.
    + intros (E' & _). discriminate.
  - split.
    + intros [= <- <-]. auto.
    + intros (_ & -> & ->). reflexivity.
Qed.

Lemma Update_error fuel q v newPriority q' e :
  Update fuel q v newPriority = Done (q', Some e) ↔
  indexMap q !! v = None ∧ q' = q ∧ e = ErrElementNotFound.
Proof.
  unfold Update. destruct (indexMap q !! v) as [index|] eqn:E.
  - split.
    + step_binds; discriminate.
    + intros (E' & _). discriminate.
  - split.
    + intros [= <- <-]. auto.
    + intros (_ & -> & ->). reflexivity.
Qed.

(** C7. [Peek] and [Top] hand back the [ErrQueueIsEmpty] error exactly when
    the queue holds no entry, [Remove] and [Update] hand back
    [ErrElementNotFound] exactly when the value is not a key of the index;
    in each case the call returns normally (an error value, not a panic)
    and the queue it leaves is the queue it was given. No other error is
    ever returned by these four calls. *)
Theorem errors_are_returned_values (fuel : nat) (q : PriorityQueue T) (v : T) (newPriority : float32) :
  (∀ q' r e, Peek q = Done (q', (r, Some e)) ↔
      pairs q = [] ∧ q' = q ∧ r = zeroPair ∧ e = ErrQueueIsEmpty)
  ∧ (∀ q' r e, Top fuel q = Done (q', (r, Some e)) ↔
      pairs q = [] ∧ q' = q ∧ r = zeroPair ∧ e = ErrQueueIsEmpty)
  ∧ (∀ q' e, Remove fuel q v = Done (q', Some e) ↔
      indexMap q !! v = None ∧ q' = q ∧ e = ErrElementNotFound)
  ∧ (∀ q' e, Update fuel q v newPriority = Done (q', Some e) ↔
      indexMap q !! v = None ∧ q' = q ∧ e = ErrElementNotFound).
Proof.
  split; [|split; [|split]]; intros.
  - apply Peek_error.
  - apply Top_error.
  - apply Remove_error.
  - apply Update_error.
Qed.

End Errors.

(** ** Storage and index move together *)

Section Bookkeeping.

Context {T : Type} `{Countable T} `{GoZero T}.
Implicit Types (q : PriorityQueue T) (l : list (Pair T)) (m : gmap T Z).
Implicit Types (p a b : Pair T) (stale : T → Prop).

Lemma index_consistent_alt q :
  index_consistent q ↔
  indexed (pairs q) (indexMap q) ∧ covered no_stale (pairs q) (indexMap q).
Proof.
  unfold index_consistent, indexed, covered, no_stale, stored. split.
  - intros [Hi Hd]. split; [exact Hi|]. intros v z Hv. right.
    assert (v ∈ dom (indexMap q)) as Hin by (apply elem_of_dom; eauto).
    rewrite Hd in Hin. apply elem_of_list_to_set in Hin. exact Hin.
  - intros [Hi Hc]. split; [exact Hi|]. apply set_eq. intros v.
    rewrite elem_of_dom, elem_of_list_to_set. split.
    + intros [z Hz]. destruct (Hc v z Hz) as [[]|Hin]. exact Hin.
    + intros Hin. apply list_elem_of_fmap in Hin as (p & -> & Hp).
      apply list_elem_of_lookup in Hp as [i Hp]. eauto.
Qed.

(** Two positions recorded in the index hold different values. *)
Lemma indexed_inj l m (i j : nat) a b :
  indexed l m → l !! i = Some a → l !! j = Some b → value a = value b → i = j.
Proof.
  intros Hi Ha Hb E. apply Hi in Ha, Hb. rewrite E in Ha. rewrite Ha in Hb.
  injection Hb. lia.
Qed.

(** Exchanging two entries together with their index records. *)
Lemma swap_indexed l m (i j : nat) a b :
  indexed l m → l !! i = Some a → l !! j = Some b → i ≠ j →
  indexed (<[j := a]> (<[i := b]> l)) (<[value a := Z.of_nat j]> (<[value b := Z.of_nat i]> m)).
Proof.
  intros Hi Ha Hb Hij k p Hk.
  pose proof (lookup_lt_Some _ _ _ Ha) as Hli.
  pose proof (lookup_lt_Some _ _ _ Hb) as Hlj.
  assert (value a ≠ value b) as Hab.
  { intros E. apply Hij. eapply indexed_inj; eauto. }
  destruct (decide (k = j)) as [->|Hkj].
  - rewrite list_lookup_insert_eq in Hk by (rewrite length_insert; lia).
    injection Hk as <-. apply lookup_insert_eq.
  - rewrite list_lookup_insert_ne in Hk by congruence.
    destruct (decide (k = i)) as [->|Hki].
    + rewrite list_lookup_insert_eq in Hk by lia. injection Hk as <-.
      rewrite lookup_insert_ne by exact Hab. apply lookup_insert_eq.
    + rewrite list_lookup_insert_ne in Hk by congruence.
      assert (value p ≠ value a) by (intros E; apply Hki; eapply indexed_inj; eauto).
      assert (value p ≠ value b) by (intros E; apply Hkj; eapply indexed_inj; eauto).
      rewrite !lookup_insert_ne by congruence. apply Hi. exact Hk.
Qed.

Lemma swap_indexed_Z l m (i j : Z) a b :
  indexed l m → 0 <= i → 0 <= j →
  l !! Z.to_nat i = Some a → l !! Z.to_nat j = Some b → i ≠ j →
  indexed (<[Z.to_nat j := a]> (<[Z.to_nat i := b]> l)) (<[value a := j]> (<[value b := i]> m)).
Proof.
  intros Hi Hi0 Hj0 Ha Hb Hij.
  pose proof (swap_indexed l m (Z.to_nat i) (Z.to_nat j) a b Hi Ha Hb) as Hs.
  rewrite !Z2Nat.id in Hs by lia. apply Hs. lia.
Qed.

Lemma swap_covered stale l m (i j : nat) a b (x y : Z) :
  covered stale l m → l !! i = Some a → l !! j = Some b →
  covered stale (<[j := a]> (<[i := b]> l)) (<[value a := x]> (<[value b := y]> m)).
Proof.
  intros Hc Ha Hb v z Hv.
  assert (∀ w, w ∈ value <$> l → w ∈ value <$> <[j := a]> (<[i := b]> l)) as Hperm.
  { intros w. rewrite (Permutation_insert_swap l i j a b Ha Hb). auto. }
  rewrite lookup_insert in Hv. case_decide as Ea.
  - right. apply Hperm. subst v. apply list_elem_of_fmap.
    exists a. split; [reflexivity|]. eapply list_elem_of_lookup_2; eauto.
  - rewrite lookup_insert in Hv. case_decide as Eb.
    + right. apply Hperm. subst v. apply list_elem_of_fmap.
      exists b. split; [reflexivity|]. eapply list_elem_of_lookup_2; eauto.
    + destruct (Hc v z Hv) as [Hs|Hin]; [left; exact Hs|right; apply Hperm; exact Hin].
Qed.

(** Writing a key twice: only the last write is seen. *)
Lemma insert_shadow m (k k' : T) (x y z : Z) :
  <[k := x]> (<[k' := y]> (<[k := z]> m)) = <[k := x]> (<[k' := y]> m).
Proof.
  apply map_eq. intros v. rewrite !lookup_insert.
  repeat case_decide; congruence.
Qed.

End Bookkeeping.

(** ** Bubble-up *)

Section BubbleUp.

Context {T : Type} `{Countable T} `{GoZero T}.
Implicit Types (q : PriorityQueue T) (l : list (Pair T)) (m : gmap T Z).
Implicit Types (p current : Pair T) (stale : T → Prop).

Lemma bubbleUp_body_root current q index :
  index <= 0 → bubbleUp_body current (q, index) = Done (Break (q, index)).
Proof.
  intros Hi. unfold bubbleUp_body.
  destruct (Z.gtb_spec index 0); [lia|reflexivity].
Qed.

(** A round away from the root: the parent is read at [(index-1)/d]; when
    its priority is below the travelling entry's it is copied down into
    [index], re-indexed there, and the round goes on from the parent. *)
Lemma bubbleUp_body_step current q index :
  1 <= sizeD q → 0 < index < len q → len q <= GoInt.max_int →
  ∃ parent,
    pairs q !! Z.to_nat ((index - 1) / sizeD q) = Some parent
    ∧ 0 <= (index - 1) / sizeD q < index
    ∧ bubbleUp_body current (q, index) =
        if f32_lt (priority parent) (priority current)
        then Done (Next (mkPQ (<[Z.to_nat index := parent]> (pairs q)) (sizeD q)
                              (<[value parent := index]> (indexMap q)),
                         (index - 1) / sizeD q))
        else Done (Break (q, index)).
Proof.
  intros Hd Hi Hlen. unfold len in *.
  assert (0 <= (index - 1) / sizeD q < index) as Hpar.
  { split; [apply Z.div_pos; lia|].
    apply Z.div_lt_upper_bound; [lia|nia]. }
  destruct (lookup_lt_is_Some_2 (pairs q) (Z.to_nat ((index - 1) / sizeD q)))
    as [parent Hparent]; [lia|].
  exists parent. split; [exact Hparent|]. split; [exact Hpar|].
  unfold bubbleUp_body, getParentIndex.
  destruct (Z.gtb_spec index 0); [|lia].
  int_simpl. rewrite int_quot_pos by int_range. simpl.
  rewrite (index_pairs_ok _ _ parent) by first [lia | exact Hparent]. simpl.
  destruct (f32_lt (priority parent) (priority current)); [|reflexivity].
  rewrite store_pairs_ok by lia. simpl.
  rewrite (index_pairs_ok _ _ parent).
  - reflexivity.
  - lia.
  - apply list_lookup_insert_eq. lia.
Qed.

Lemma bubbleUpIndex_spec fuel q index current :
  1 <= sizeD q → len q <= GoInt.max_int → 0 <= index →
  pairs q !! Z.to_nat index = Some current →
  (Z.to_nat index < fuel)%nat →
  ∃ q' index',
    bubbleUpIndex fuel q index = Done q'
    ∧ sizeD q' = sizeD q
    ∧ pairs q' ≡ₚ pairs q
    ∧ 0 <= index' <= index
    ∧ pairs q' !! Z.to_nat index' = Some current
    ∧ indexMap q' !! value current = Some index'
    ∧ (indexed (pairs q) (indexMap q) → indexed (pairs q') (indexMap q'))
    ∧ (∀ stale, covered stale (pairs q) (indexMap q) → covered stale (pairs q') (indexMap q')).
Proof.
  intros Hd Hlen Hi0 Hcur Hfuel.
  pose proof (lookup_lt_Some _ _ _ Hcur) as Hilen.
  set (I := λ s : PriorityQueue T * Z,
    sizeD (fst s) = sizeD q
    ∧ length (pairs (fst s)) = length (pairs q)
    ∧ 0 <= snd s <= index
    ∧ pairs (plug current s) ≡ₚ pairs q
    ∧ (indexed (pairs q) (indexMap q) →
         indexed (pairs (plug current s)) (indexMap (plug current s)))
    ∧ (∀ stale, covered stale (pairs q) (indexMap q) →
         covered stale (pairs (plug current s)) (indexMap (plug current s)))).
  assert (I (q, index)) as HI0.
  { unfold I, plug; simpl. repeat split; try reflexivity; try lia.
    - rewrite list_insert_id by exact Hcur. reflexivity.
    - intros Hix. rewrite list_insert_id by exact Hcur.
      rewrite insert_id; [exact Hix|].
      rewrite <- (Z2Nat.id index) by lia. apply Hix. exact Hcur.
    - intros stale Hc. rewrite list_insert_id by exact Hcur.
      intros v z Hv. rewrite lookup_insert in Hv. case_decide.
      + right. subst v. apply list_elem_of_fmap. exists current.
        split; [reflexivity|]. eapply list_elem_of_lookup_2; eauto.
      + eapply Hc; eauto. }
  destruct (for_loop_total (bubbleUp_body current) I I (λ s, Z.to_nat (snd s)))
    with (fuel := fuel) (s := (q, index)) as ([q1 index1] & Eloop & HI1);
    [|exact HI0|simpl; lia|].
  { intros [qs ix] HI. pose proof HI as (Hsd & Hsl & Hsi & Hsp & Hsx & Hsc).
    cbn [fst snd] in Hsd, Hsl, Hsi.
    destruct (Z_le_gt_dec ix 0) as [Hz|Hz].
    { rewrite bubbleUp_body_root by lia. eexists. split; [reflexivity|exact HI]. }
    destruct (bubbleUp_body_step current qs ix) as (parent & Hparent & Hpar & Ebody);
      [lia|unfold len in *; lia|unfold len in *; lia|].
    rewrite Ebody.
    destruct (f32_lt (priority parent) (priority current)).
    2:{ eexists. split; [reflexivity|exact HI]. }
    eexists. split; [reflexivity|]. simpl. rewrite Hsd in *.
    set (pi := (ix - 1) / sizeD q) in *.
    assert (Z.to_nat pi ≠ Z.to_nat ix) as Hne by lia.
    assert (<[Z.to_nat ix := current]> (pairs qs) !! Z.to_nat ix = Some current) as Hhole.
    { apply list_lookup_insert_eq. lia. }
    assert (<[Z.to_nat ix := current]> (pairs qs) !! Z.to_nat pi = Some parent) as Hpl.
    { rewrite list_lookup_insert_ne by lia. exact Hparent. }
    assert (<[Z.to_nat pi := current]> (<[Z.to_nat ix := parent]> (pairs qs))
            = <[Z.to_nat pi := current]> (<[Z.to_nat ix := parent]>
                 (<[Z.to_nat ix := current]> (pairs qs)))) as El.
    { rewrite list_insert_insert_eq. reflexivity. }
    split; [|lia].
    unfold I, plug in *; simpl in *. rewrite El.
    rewrite <- (insert_shadow _ _ _ pi ix ix).
    repeat split; try lia.
    - rewrite length_insert. exact Hsl.
    - rewrite (Permutation_insert_swap _ _ _ _ _ Hhole Hpl). exact Hsp.
    - intros Hix. specialize (Hsx Hix).
      apply swap_indexed_Z; auto; lia.
    - intros stale Hc. specialize (Hsc stale Hc).
      eapply swap_covered; eauto. }
  destruct HI1 as (Hsd & Hsl & Hsi & Hsp & Hsx & Hsc). simpl in *.
  exists (plug current (q1, index1)), index1.
  unfold bubbleUpIndex.
  rewrite (index_pairs_ok _ _ current) by assumption. simpl.
  rewrite Eloop. simpl.
  rewrite store_pairs_ok by lia. simpl.
  repeat split; auto; try lia.
  - unfold plug; simpl. apply list_lookup_insert_eq. lia.
  - unfold plug; simpl. apply lookup_insert_eq.
Qed.

End BubbleUp.

(** ** Choosing the child *)

Section Children.

Context {T : Type} `{Countable T} `{GoZero T}.
Implicit Types (q : PriorityQueue T) (l : list (Pair T)) (p best : Pair T).

Lemma no_nan_lookup l (i : nat) p :
  no_nan l = true → l !! i = Some p → is_nan (priority p) = false.
Proof.
  unfold no_nan. rewrite forallb_forall. intros Hall Hp.
  apply list_elem_of_lookup_2, list_elem_of_In, Hall in Hp.
  destruct (is_nan (priority p)); [discriminate|reflexivity].
Qed.

(** The scan from [start+1] to [end_]: the candidate is replaced only by
    an entry of strictly higher priority. *)
Lemma scan_spec fuel q start end_ best0 :
  len q <= GoInt.max_int → 0 <= start → end_ < len q →
  pairs q !! Z.to_nat start = Some best0 →
  (length (pairs q) < fuel)%nat →
  ∃ i best bestIdx,
    for_loop fuel (scan_body q end_) ((start + 1)%int, best0, start) = Done (i, best, bestIdx)
    ∧ start <= bestIdx <= Z.max start end_
    ∧ pairs q !! Z.to_nat bestIdx = Some best
    ∧ (∀ j pj, start <= j <= end_ → pairs q !! Z.to_nat j = Some pj →
         f32_gt (priority pj) (priority best) = false)
    ∧ (no_nan (pairs q) = true →
       ∀ j pj, start <= j < bestIdx → pairs q !! Z.to_nat j = Some pj →
         f32_lt (priority pj) (priority best) = true).
Proof.
  intros Hlen Hs0 Hend Hbest0 Hfuel. unfold len in *.
  pose proof (lookup_lt_Some _ _ _ Hbest0) as Hslen.
  set (I := λ s : Z * Pair T * Z,
    let '(i, best, bestIdx) := s in
    start < i <= Z.max (start + 1) (end_ + 1)
    ∧ start <= bestIdx < i
    ∧ pairs q !! Z.to_nat bestIdx = Some best
    ∧ (∀ j pj, start <= j < i → pairs q !! Z.to_nat j = Some pj →
         f32_gt (priority pj) (priority best) = false)
    ∧ (no_nan (pairs q) = true →
       ∀ j pj, start <= j < bestIdx → pairs q !! Z.to_nat j = Some pj →
         f32_lt (priority pj) (priority best) = true)).
  set (Q := λ s : Z * Pair T * Z, I s ∧ end_ < fst (fst s)).
  destruct (for_loop_total (scan_body q end_) I Q (λ s, Z.to_nat (end_ + 1 - fst (fst s))))
    with (fuel := fuel) (s := ((start + 1)%int, best0, start))
    as ([[i best] bestIdx] & Eloop & HI & Hexit).
  - intros [[i best] bestIdx] HI.
    pose proof HI as (Hi & Hb & Hbest & Hmax & Hlow).
    unfold scan_body. cbv beta iota. destruct (Z.leb_spec i end_) as [Hle|Hgt].
    2:{ eexists. split; [reflexivity|]. split; [exact HI|simpl; lia]. }
    destruct (lookup_lt_is_Some_2 (pairs q) (Z.to_nat i)) as [p Hp]; [lia|].
    rewrite (index_pairs_ok (pairs q) i p) by first [lia | exact Hp]. cbn [obind].
    assert ((i + 1)%int = i + 1) as Ei by (int_simpl; reflexivity).
    destruct (f32_gt (priority p) (priority best)) eqn:Egt.
    + eexists. split; [reflexivity|]. rewrite Ei. cbn [fst].
      split; [|lia]. unfold I. repeat split; try lia; try exact Hp.
      * intros j pj Hj Hpj. destruct (Z.eq_dec j i) as [->|Hji].
        -- rewrite Hp in Hpj. injection Hpj as ->. apply f32_lt_irrefl.
        -- destruct (f32_gt (priority pj) (priority p)) eqn:E; [|reflexivity].
           rewrite <- (Hmax j pj) by first [lia | exact Hpj].
           unfold f32_gt in *. symmetry. eapply f32_lt_trans; eauto.
      * intros Hnn j pj Hj Hpj.
        pose proof (Hmax j pj ltac:(lia) Hpj) as Hnot.
        destruct (f32_lt_cotrans (priority best) (priority p) (priority pj)) as [Hc|Hc];
          [eapply no_nan_lookup; eauto|exact Egt| |exact Hc].
        unfold f32_gt, f32_lt in *. congruence.
    + eexists. split; [reflexivity|]. rewrite Ei. cbn [fst].
      split; [|lia]. unfold I. repeat split; try lia; try exact Hbest.
      * intros j pj Hj Hpj. destruct (Z.eq_dec j i) as [->|Hji].
        -- rewrite Hp in Hpj. injection Hpj as ->. exact Egt.
        -- apply (Hmax j pj); [lia|exact Hpj].
      * exact Hlow.
  - assert ((start + 1)%int = start + 1) as -> by (int_simpl; reflexivity).
    unfold I. repeat split; try lia; try exact Hbest0.
    intros j pj Hj Hpj. assert (j = start) as -> by lia.
    rewrite Hbest0 in Hpj. injection Hpj as ->. apply f32_lt_irrefl.
  - assert ((start + 1)%int = start + 1) as -> by (int_simpl; reflexivity).
    cbn [fst]. lia.
  - destruct HI as (Hi & Hb & Hbest & Hmax & Hlow). cbn [fst] in Hexit.
    exists i, best, bestIdx. split; [exact Eloop|]. repeat split; try lia; auto.
    intros j pj Hj Hpj. apply (Hmax j pj); [lia|exact Hpj].
Qed.

Lemma highestPriorityChild_none fuel q currentIndex :
  wf q → 0 <= currentIndex → currentIndex * sizeD q + 1 <= GoInt.max_int →
  len q <= currentIndex * sizeD q + 1 →
  highestPriorityChild fuel q currentIndex = Done (zeroPair, -1).
Proof.
  intros [Hd Hlen] Hc Hfit Hnone. unfold highestPriorityChild.
  assert (0 <= currentIndex * sizeD q) as Hcd by nia.
  assert ((currentIndex * sizeD q + 1)%int = currentIndex * sizeD q + 1) as ->
    by (int_simpl; reflexivity).
  destruct (Z.geb_spec (currentIndex * sizeD q + 1) (len q)); [reflexivity|lia].
Qed.

(** With at least one child in range: the result is a stored child, no
    child has a strictly higher priority and, NaN apart, every child
    before it has a strictly lower one. *)
Lemma highestPriorityChild_some fuel q currentIndex :
  wf q → 0 <= currentIndex → currentIndex * sizeD q + 1 < len q →
  (length (pairs q) < fuel)%nat →
  ∃ best bestIdx,
    highestPriorityChild fuel q currentIndex = Done (best, bestIdx)
    ∧ currentIndex * sizeD q + 1 <= bestIdx < len q
    ∧ pairs q !! Z.to_nat bestIdx = Some best
    ∧ (len q <= GoInt.half_range →
       bestIdx <= currentIndex * sizeD q + sizeD q
       ∧ (∀ j pj, currentIndex * sizeD q + 1 <= j <= currentIndex * sizeD q + sizeD q →
            pairs q !! Z.to_nat j = Some pj →
            f32_gt (priority pj) (priority best) = false)
       ∧ (no_nan (pairs q) = true →
          ∀ j pj, currentIndex * sizeD q + 1 <= j < bestIdx →
            pairs q !! Z.to_nat j = Some pj →
            f32_lt (priority pj) (priority best) = true)).
Proof.
  intros [Hd Hlen] Hc Hsome Hfuel. unfold highestPriorityChild.
  set (d := sizeD q) in *.
  assert (0 <= currentIndex * d) as Hcd by nia.
  assert ((currentIndex * d + 1)%int = currentIndex * d + 1) as -> by (int_simpl; reflexivity).
  set (start := currentIndex * d + 1) in *.
  destruct (Z.geb_spec start (len q)) as [Hge|_]; [lia|].
  assert ((start + d - 1)%int = GoInt.wrap (start + d - 1)) as ->.
  { unfold GoInt.sub, GoInt.add. apply wrap_sub_l. }
  assert ((len q - 1)%int = len q - 1) as -> by (int_simpl; reflexivity).
  set (end_ := if GoInt.wrap (start + d - 1) >=? len q then len q - 1
               else GoInt.wrap (start + d - 1)).
  assert (end_ < len q) as Hend.
  { unfold end_. destruct (Z.geb_spec (GoInt.wrap (start + d - 1)) (len q)); lia. }
  destruct (lookup_lt_is_Some_2 (pairs q) (Z.to_nat start)) as [best0 Hbest0];
    [unfold len in *; lia|].
  rewrite (index_pairs_ok _ _ best0) by first [lia | exact Hbest0]. simpl.
  destruct (scan_spec fuel q start end_ best0)
    as (i & best & bestIdx & Eloop & Hrange & Hbest & Hmax & Hlow); auto; try lia.
  rewrite Eloop. simpl.
  exists best, bestIdx. split; [reflexivity|].
  split; [lia|]. split; [exact Hbest|].
  intros Hhalf.
  assert (start + d - 1 <= GoInt.max_int) as Hfit.
  { destruct (Z.eq_dec currentIndex 0) as [->|Hnz]; [unfold start; lia|].
    assert (d <= currentIndex * d) by nia. int_range. }
  assert (end_ = Z.min (start + d - 1) (len q - 1)) as Eend.
  { unfold end_. rewrite wrap_id by int_range.
    destruct (Z.geb_spec (start + d - 1) (len q)); lia. }
  split; [lia|]. split.
  - intros j pj Hj Hpj. apply (Hmax j pj); [|exact Hpj].
    pose proof (lookup_lt_Some _ _ _ Hpj). unfold len in *. lia.
  - exact Hlow.
Qed.

End Children.

(** ** Push-down *)

Section PushDown.

Context {T : Type} `{Countable T} `{GoZero T}.
Implicit Types (q : PriorityQueue T) (l : list (Pair T)) (m : gmap T Z).
Implicit Types (p child entry : Pair T) (stale : T → Prop).

Lemma quot_small (a d : Z) :
  2 <= d → -2 <= a < 0 → -1 <= Z.quot a d <= 0.
Proof.
  intros Hd Ha.
  replace a with (- (- a)) by lia. rewrite Z.quot_opp_l by lia.
  rewrite Z.quot_div_nonneg by lia.
  assert (0 <= - a / d) by (apply Z.div_pos; lia).
  assert (- a / d <= 1) by (apply Z.div_le_upper_bound; lia).
  lia.
Qed.

Lemma firstLeafIndex_spec q :
  wf q → firstLeafIndex q = Done (Z.quot (len q - 2) (sizeD q) + 1).
Proof.
  intros [Hd Hlen]. unfold firstLeafIndex, int_quot.
  assert (0 <= len q) by (unfold len; lia).
  destruct (Z.eqb_spec (sizeD q) 0); [lia|].
  assert (-1 <= Z.quot (len q - 2) (sizeD q) <= Z.max 0 (len q - 2)) as Hq.
  { destruct (Z_lt_le_dec (len q - 2) 0).
    - pose proof (quot_small (len q - 2) (sizeD q)). lia.
    - rewrite Z.quot_div_nonneg by lia.
      assert (0 <= (len q - 2) / sizeD q) by (apply Z.div_pos; lia).
      assert ((len q - 2) / sizeD q <= len q - 2)
        by (apply Z.div_le_upper_bound; nia).
      lia. }
  int_simpl. cbn [obind]. int_simpl. reflexivity.
Qed.

(** Below the first leaf there is a child in range, and conversely. *)
Lemma firstLeaf_children q currentIndex :
  wf q → 0 <= currentIndex < len q →
  (currentIndex < Z.quot (len q - 2) (sizeD q) + 1 ∧ 2 <= len q
     ↔ currentIndex * sizeD q + 1 < len q).
Proof.
  intros [Hd Hlen] Hc.
  destruct (Z_lt_le_dec (len q - 2) 0) as [Hsmall|Hbig].
  - pose proof (quot_small (len q - 2) (sizeD q)). split; [lia|]. nia.
  - rewrite Z.quot_div_nonneg by lia.
    pose proof (Z.mul_div_le (len q - 2) (sizeD q) ltac:(lia)).
    pose proof (Z.mul_succ_div_gt (len q - 2) (sizeD q) ltac:(lia)).
    split.
    + intros [Hlt _]. nia.
    + intros Hlt. split; [|lia].
      assert (currentIndex <= (len q - 2) / sizeD q); [|lia].
      apply Z.div_le_lower_bound; lia.
Qed.

(** One round of push-down, case by case. *)
Lemma pushDown_body_shape fuel q currentIndex :
  wf q → 0 <= currentIndex < len q → (length (pairs q) < fuel)%nat →
  (len q <= currentIndex * sizeD q + 1 →
     pushDown_body fuel (q, currentIndex) = Done (Break (q, currentIndex)))
  ∧ (currentIndex * sizeD q + 1 < len q →
     ∃ childIndex child entry,
       currentIndex * sizeD q + 1 <= childIndex < len q
       ∧ pairs q !! Z.to_nat childIndex = Some child
       ∧ pairs q !! Z.to_nat currentIndex = Some entry
       ∧ (len q <= GoInt.half_range →
          childIndex <= currentIndex * sizeD q + sizeD q
          ∧ (∀ j pj, currentIndex * sizeD q + 1 <= j <= currentIndex * sizeD q + sizeD q →
               pairs q !! Z.to_nat j = Some pj →
               f32_gt (priority pj) (priority child) = false)
          ∧ (no_nan (pairs q) = true →
             ∀ j pj, currentIndex * sizeD q + 1 <= j < childIndex →
               pairs q !! Z.to_nat j = Some pj →
               f32_lt (priority pj) (priority child) = true))
       ∧ pushDown_body fuel (q, currentIndex) =
           if f32_gt (priority child) (priority entry)
           then Done (Next (mkPQ (<[Z.to_nat childIndex := entry]>
                                    (<[Z.to_nat currentIndex := child]> (pairs q)))
                                 (sizeD q)
                                 (<[value entry := childIndex]>
                                    (<[value child := currentIndex]> (indexMap q))),
                            childIndex))
           else Done (Break (q, currentIndex))).
Proof.
  intros Hwf Hc Hfuel. pose proof Hwf as [Hd Hlen].
  pose proof (firstLeaf_children q currentIndex Hwf Hc) as Hguard.
  assert (0 <= currentIndex * sizeD q) as Hcd by nia.
  unfold pushDown_body. rewrite firstLeafIndex_spec by exact Hwf. cbn [obind].
  split.
  - intros Hnone.
    destruct (Z.ltb_spec currentIndex (Z.quot (len q - 2) (sizeD q) + 1)) as [Hlt|Hge];
      [|reflexivity].
    assert (len q < 2) as Hone by lia.
    assert (currentIndex = 0) as -> by lia.
    rewrite highestPriorityChild_none by (auto; int_range). reflexivity.
  - intros Hsome. apply Hguard in Hsome as Hlt. destruct Hlt as [Hlt Hn2].
    destruct (Z.ltb_spec currentIndex (Z.quot (len q - 2) (sizeD q) + 1)); [|lia].
    destruct (highestPriorityChild_some fuel q currentIndex)
      as (child & childIndex & Ehpc & Hrange & Hchild & Hbest);
      [exact Hwf|lia|exact Hsome|exact Hfuel|].
    destruct (lookup_lt_is_Some_2 (pairs q) (Z.to_nat currentIndex)) as [entry Hentry];
      [unfold len in *; lia|].
    exists childIndex, child, entry.
    split; [exact Hrange|]. split; [exact Hchild|]. split; [exact Hentry|].
    split; [exact Hbest|].
    rewrite Ehpc. cbn [obind].
    destruct (Z.eqb_spec childIndex (-1)); [lia|].
    rewrite (index_pairs_ok (pairs q) childIndex child) by first [lia | exact Hchild].
    rewrite (index_pairs_ok (pairs q) currentIndex entry) by first [lia | exact Hentry].
    cbn [obind].
    destruct (f32_gt (priority child) (priority entry)); [|reflexivity].
    unfold len in *.
    rewrite store_pairs_ok by lia. cbn [obind].
    rewrite store_pairs_ok by (rewrite length_insert; lia). cbn [obind].
    unfold set_pairs, map_store, set_indexMap. cbn [pairs sizeD indexMap].
    assert (Z.to_nat currentIndex ≠ Z.to_nat childIndex) as Hne by nia.
    rewrite (index_pairs_ok _ currentIndex child).
    2: lia.
    2:{ rewrite list_lookup_insert_ne by lia. apply list_lookup_insert_eq. lia. }
    cbn [obind].
    rewrite (index_pairs_ok _ childIndex entry).
    2: lia.
    2:{ apply list_lookup_insert_eq. rewrite length_insert. lia. }
    reflexivity.
Qed.

Lemma pushDownIndex_spec fuel q currentIndex :
  wf q → 0 <= currentIndex < len q → (length (pairs q) < fuel)%nat →
  ∃ q',
    pushDownIndex fuel q currentIndex = Done q'
    ∧ sizeD q' = sizeD q
    ∧ pairs q' ≡ₚ pairs q
    ∧ (indexed (pairs q) (indexMap q) → indexed (pairs q') (indexMap q'))
    ∧ (∀ stale, covered stale (pairs q) (indexMap q) → covered stale (pairs q') (indexMap q')).
Proof.
  intros Hwf Hc Hfuel. pose proof Hwf as [Hd Hlen].
  set (I := λ s : PriorityQueue T * Z,
    sizeD (fst s) = sizeD q
    ∧ 0 <= snd s < len q
    ∧ pairs (fst s) ≡ₚ pairs q
    ∧ (indexed (pairs q) (indexMap q) → indexed (pairs (fst s)) (indexMap (fst s)))
    ∧ (∀ stale, covered stale (pairs q) (indexMap q) →
         covered stale (pairs (fst s)) (indexMap (fst s)))).
  destruct (for_loop_total (pushDown_body fuel) I I (λ s, Z.to_nat (len q - snd s)))
    with (fuel := fuel) (s := (q, currentIndex)) as ([q1 index1] & Eloop & HI1).
  - intros [qs ix] HI. pose proof HI as (Hsd & Hsi & Hsp & Hsx & Hsc).
    cbn [fst snd] in Hsd, Hsi, Hsp, Hsx, Hsc.
    assert (length (pairs qs) = length (pairs q)) as Hsl by (rewrite Hsp; reflexivity).
    assert (len qs = len q) as Hslen by (unfold len; lia).
    assert (wf qs) as Hwfs by (unfold wf; rewrite Hsd, Hslen; auto).
    destruct (pushDown_body_shape fuel qs ix) as [Hnone Hsome];
      [exact Hwfs|lia|lia|].
    destruct (Z_lt_le_dec (ix * sizeD qs + 1) (len qs)) as [Hlt|Hge].
    2:{ rewrite Hnone by lia. eexists. split; [reflexivity|exact HI]. }
    destruct (Hsome Hlt) as (ci & child & entry & Hci & Hchild & Hentry & _ & Ebody).
    rewrite Ebody. destruct (f32_gt (priority child) (priority entry)).
    2:{ eexists. split; [reflexivity|exact HI]. }
    eexists. split; [reflexivity|]. cbn [fst snd].
    assert (ix < ci) by nia.
    split; [|lia]. unfold I. cbn [fst snd pairs sizeD indexMap].
    split; [exact Hsd|]. split; [lia|]. split; [|split].
    + rewrite (Permutation_insert_swap _ _ _ _ _ Hentry Hchild). exact Hsp.
    + intros Hix. apply swap_indexed_Z; auto; lia.
    + intros stale Hcov. eapply swap_covered; eauto.
  - unfold I. cbn [fst snd]. repeat split; auto; lia.
  - cbn [snd]. unfold len. lia.
  - destruct HI1 as (Hsd & Hsi & Hsp & Hsx & Hsc). cbn [fst snd] in *.
    exists q1. unfold pushDownIndex. rewrite Eloop. cbn [obind].
    repeat split; auto.
Qed.

End PushDown.

(** ** The public operations on an index-consistent queue *)

Section Operations.

Context {T : Type} `{Countable T} `{GoZero T}.
Implicit Types (q : PriorityQueue T) (l : list (Pair T)) (m : gmap T Z).
Implicit Types (p : Pair T) (v : T) (stale : T → Prop).

Lemma len_nonneg q : 0 <= len q.
Proof. unfold len. lia. Qed.

Lemma indexed_range l m v z :
  indexed l m → covered no_stale l m → m !! v = Some z →
  ∃ p, 0 <= z < Z.of_nat (length l) ∧ l !! Z.to_nat z = Some p ∧ value p = v.
Proof.
  intros Hix Hc Hv. destruct (Hc v z Hv) as [[]|Hin].
  apply list_elem_of_fmap in Hin as (p & -> & Hp).
  apply list_elem_of_lookup in Hp as [i Hp].
  pose proof (Hix i p Hp) as Hi. rewrite Hv in Hi. injection Hi as ->.
  pose proof (lookup_lt_Some _ _ _ Hp).
  exists p. rewrite Nat2Z.id. split; [lia|]. split; [exact Hp|reflexivity].
Qed.

(** Dropping the last entry together with its index record. *)
Lemma drop_last_indexed l m p :
  indexed l m → l !! (length l - 1)%nat = Some p →
  indexed (take (length l - 1) l) (delete (value p) m).
Proof.
  intros Hix Hp i x Hx. apply lookup_take_Some in Hx as [Hx Hi].
  rewrite lookup_delete_ne; [apply Hix; exact Hx|].
  intros E. pose proof (indexed_inj l m _ _ _ _ Hix Hp Hx E). lia.
Qed.

Lemma drop_last_covered stale l m p :
  covered stale l m → l !! (length l - 1)%nat = Some p →
  covered stale (take (length l - 1) l) (delete (value p) m).
Proof.
  intros Hc Hp v z Hv. apply lookup_delete_Some in Hv as [Hne Hv].
  destruct (Hc v z Hv) as [Hs|Hin]; [left; exact Hs|right].
  apply list_elem_of_fmap in Hin as (x & -> & Hx).
  apply list_elem_of_lookup in Hx as [i Hx].
  apply list_elem_of_fmap. exists x. split; [reflexivity|].
  apply list_elem_of_lookup. exists i. apply lookup_take_Some. split; [exact Hx|].
  pose proof (lookup_lt_Some _ _ _ Hx).
  destruct (decide (i = length l - 1)%nat) as [->|]; [|lia].
  rewrite Hp in Hx. injection Hx as ->. contradiction.
Qed.

Lemma Insert_spec fuel q v prio :
  wf q → len q < GoInt.max_int → (length (pairs q) + 1 < fuel)%nat →
  ∃ q' k,
    Insert fuel q v prio = Done q'
    ∧ sizeD q' = sizeD q
    ∧ pairs q' ≡ₚ pairs q ++ [mkPair prio v]
    ∧ 0 <= k <= len q
    ∧ pairs q' !! Z.to_nat k = Some (mkPair prio v)
    ∧ indexMap q' !! v = Some k
    ∧ (indexed (pairs q) (indexMap q) → v ∉ stored q → indexed (pairs q') (indexMap q'))
    ∧ (covered no_stale (pairs q) (indexMap q) → covered no_stale (pairs q') (indexMap q')).
Proof.
  intros [Hd Hlen] Hroom Hfuel. unfold Insert, bubbleUp.
  set (new := mkPair prio v).
  set (q1 := map_store (set_pairs q (pairs q ++ [new])) v _).
  assert (len (set_pairs q (pairs q ++ [new])) = len q + 1) as El.
  { unfold len, set_pairs. cbn [pairs]. rewrite length_app. cbn [length]. lia. }
  assert (pairs q1 = pairs q ++ [new]) as Ep by reflexivity.
  assert (len q1 = len q + 1) as El1 by exact El.
  assert (indexMap q1 = <[v := len q]> (indexMap q)) as Em.
  { unfold q1, map_store, set_indexMap. cbn [indexMap]. rewrite El.
    pose proof (len_nonneg q). int_simpl. f_equal. lia. }
  assert ((len q1 - 1)%int = len q) as ->.
  { rewrite El1. pose proof (len_nonneg q). int_simpl. lia. }
  assert (pairs q1 !! Z.to_nat (len q) = Some new) as Hnew.
  { rewrite Ep. unfold len. rewrite Nat2Z.id. apply list_lookup_middle. reflexivity. }
  destruct (bubbleUpIndex_spec fuel q1 (len q) new)
    as (q' & k & Ebu & Hsd & Hperm & Hk & Hat & Hidx & Hix & Hcov).
  - change (sizeD q1) with (sizeD q). lia.
  - lia.
  - apply len_nonneg.
  - exact Hnew.
  - unfold len. lia.
  - exists q', k. split; [exact Ebu|]. split; [exact Hsd|].
    split; [rewrite Hperm, Ep; reflexivity|]. split; [exact Hk|].
    split; [exact Hat|]. split; [exact Hidx|]. split.
    + intros Hq Hfresh. apply Hix. rewrite Ep, Em. intros i x Hx.
      apply lookup_app_Some in Hx as [Hx|[Hi Hx]].
      * rewrite lookup_insert_ne; [apply Hq; exact Hx|].
        intros E. apply Hfresh. unfold stored. apply list_elem_of_fmap.
        exists x. split; [exact E|]. eapply list_elem_of_lookup_2; eauto.
      * destruct (i - length (pairs q))%nat as [|k'] eqn:Ek; [|discriminate].
        injection Hx as <-. cbn [value new]. unfold len.
        replace (Z.of_nat i) with (Z.of_nat (length (pairs q))) by lia.
        apply lookup_insert_eq.
    + intros Hq. apply Hcov. rewrite Ep, Em. intros w z Hw. right.
      rewrite fmap_app. apply elem_of_app.
      rewrite lookup_insert in Hw. case_decide as E.
      * right. subst w. cbn. apply list_elem_of_here.
      * left. destruct (Hq w z Hw) as [[]|Hin]. exact Hin.
Qed.

Lemma Update_spec fuel q v newPriority :
  wf q → indexed (pairs q) (indexMap q) → covered no_stale (pairs q) (indexMap q) →
  (length (pairs q) < fuel)%nat →
  ∃ q' e,
    Update fuel q v newPriority = Done (q', e)
    ∧ sizeD q' = sizeD q
    ∧ length (pairs q') = length (pairs q)
    ∧ indexed (pairs q') (indexMap q')
    ∧ covered no_stale (pairs q') (indexMap q').
Proof.
  intros Hwf Hix Hcov Hfuel. pose proof Hwf as [Hd Hlen]. unfold Update.
  destruct (indexMap q !! v) as [index|] eqn:Ev.
  2:{ exists q, (Some ErrElementNotFound). auto. }
  destruct (indexed_range _ _ _ _ Hix Hcov Ev) as (old & Hrange & Hold & Hval).
  rewrite (index_pairs_ok (pairs q) index old) by first [lia | exact Hold].
  cbn [obind]. rewrite store_pairs_ok by lia. cbn [obind].
  set (q1 := set_pairs q (<[Z.to_nat index := mkPair newPriority (value old)]> (pairs q))).
  assert (length (pairs q1) = length (pairs q)) as Hl1 by apply length_insert.
  assert (wf q1) as Hwf1.
  { unfold wf, len. rewrite Hl1. exact Hwf. }
  assert (indexed (pairs q1) (indexMap q1)) as Hix1.
  { intros i x Hx. cbn [q1 set_pairs pairs indexMap] in *.
    destruct (decide (i = Z.to_nat index)) as [->|Hne].
    - rewrite list_lookup_insert_eq in Hx by lia. injection Hx as <-.
      cbn [value]. apply Hix. exact Hold.
    - rewrite list_lookup_insert_ne in Hx by congruence. apply Hix. exact Hx. }
  assert (covered no_stale (pairs q1) (indexMap q1)) as Hcov1.
  { intros w z Hw. right. destruct (Hcov w z Hw) as [[]|Hin].
    apply list_elem_of_fmap in Hin as (x & -> & Hx).
    apply list_elem_of_lookup in Hx as [i Hx].
    apply list_elem_of_fmap. cbn [q1 set_pairs pairs].
    destruct (decide (i = Z.to_nat index)) as [->|Hne].
    - exists (mkPair newPriority (value old)). split.
      + rewrite Hold in Hx. injection Hx as <-. reflexivity.
      + apply list_elem_of_lookup. exists (Z.to_nat index).
        apply list_lookup_insert_eq. lia.
    - exists x. split; [reflexivity|]. apply list_elem_of_lookup. exists i.
      rewrite list_lookup_insert_ne by congruence. exact Hx. }
  destruct (f32_lt newPriority (priority old)).
  - destruct (bubbleUpIndex_spec fuel q1 index (mkPair newPriority (value old)))
      as (q' & k & Ebu & Hsd & Hperm & _ & _ & _ & Hix' & Hcov');
      [change (sizeD q1) with (sizeD q); lia|apply Hwf1|lia| |lia|].
    { apply list_lookup_insert_eq. lia. }
    rewrite Ebu. cbn [obind]. exists q', None. split; [reflexivity|].
    split; [exact Hsd|]. split; [rewrite Hperm; exact Hl1|]. auto.
  - destruct (f32_gt newPriority (priority old)).
    + destruct (pushDownIndex_spec fuel q1 index)
        as (q' & Epd & Hsd & Hperm & Hix' & Hcov');
        [exact Hwf1|unfold len; lia|lia|].
      rewrite Epd. cbn [obind]. exists q', None. split; [reflexivity|].
      split; [exact Hsd|]. split; [rewrite Hperm; exact Hl1|]. auto.
    + exists q1, None. auto.
Qed.

Lemma Remove_spec fuel q v :
  wf q → indexed (pairs q) (indexMap q) → covered no_stale (pairs q) (indexMap q) →
  (length (pairs q) < fuel)%nat →
  ∃ q' e,
    Remove fuel q v = Done (q', e)
    ∧ sizeD q' = sizeD q
    ∧ (length (pairs q') <= length (pairs q))%nat
    ∧ indexed (pairs q') (indexMap q')
    ∧ covered no_stale (pairs q') (indexMap q').
Proof.
  intros Hwf Hix Hcov Hfuel. pose proof Hwf as [Hd Hlen]. unfold Remove.
  destruct (indexMap q !! v) as [index|] eqn:Ev.
  2:{ exists q, (Some ErrElementNotFound). auto. }
  destruct (indexed_range _ _ _ _ Hix Hcov Ev) as (removed & Hrange & Hrem & Hval).
  assert ((len q - 1)%int = len q - 1) as -> by (unfold len in *; int_simpl; reflexivity).
  assert (Z.to_nat (len q - 1) = (length (pairs q) - 1)%nat) as Elast by (unfold len; lia).
  destruct (Z.eqb_spec index (len q - 1)) as [->|Hnl].
  - rewrite slice_to_ok by (unfold len in *; lia). cbn [obind].
    eexists _, None. split; [reflexivity|].
    unfold_setters.
    rewrite Elast in *. rewrite <- Hval.
    split; [reflexivity|]. split; [rewrite length_take; lia|].
    split; [apply drop_last_indexed|apply drop_last_covered]; assumption.
  - rewrite (index_pairs_ok (pairs q) index removed) by first [lia | exact Hrem].
    cbn [obind].
    destruct (lookup_lt_is_Some_2 (pairs q) (length (pairs q) - 1)) as [last Hlast]; [lia|].
    rewrite (index_pairs_ok (pairs q) (len q - 1) last)
      by first [unfold len in *; lia | rewrite Elast; exact Hlast].
    cbn [obind]. rewrite store_pairs_ok by lia. cbn [obind].
    unfold_setters.
    rewrite (index_pairs_ok _ index last) by first [lia | apply list_lookup_insert_eq; lia].
    cbn [obind].
    rewrite slice_to_ok by (rewrite length_insert; unfold len; lia). cbn [obind].
    rewrite Elast. rewrite Hval.
    set (l2 := take (length (pairs q) - 1) (<[Z.to_nat index := last]> (pairs q))).
    set (m2 := delete v (<[value last := index]> (indexMap q))).
    assert (Z.to_nat index < length (pairs q) - 1)%nat as Hlt by (unfold len in *; lia).
    assert (length l2 = (length (pairs q) - 1)%nat) as Hl2.
    { unfold l2. rewrite length_take, length_insert. lia. }
    assert (l2 !! Z.to_nat index = Some last) as Hmoved.
    { unfold l2. rewrite lookup_take_lt by lia. apply list_lookup_insert_eq. lia. }
    assert (value last ≠ v) as Hlv.
    { intros E. rewrite <- Hval in E.
      pose proof (indexed_inj _ _ _ _ _ _ Hix Hlast Hrem E). lia. }
    assert (indexed l2 m2) as Hix2.
    { intros i x Hx. unfold l2 in Hx. apply lookup_take_Some in Hx as [Hx Hi].
      unfold m2. destruct (decide (i = Z.to_nat index)) as [->|Hne].
      - rewrite list_lookup_insert_eq in Hx by lia. injection Hx as <-.
        rewrite lookup_delete_ne by congruence. rewrite lookup_insert_eq.
        f_equal. lia.
      - rewrite list_lookup_insert_ne in Hx by congruence.
        assert (value x ≠ v).
        { intros E. rewrite <- Hval in E.
          pose proof (indexed_inj _ _ _ _ _ _ Hix Hx Hrem E). lia. }
        assert (value x ≠ value last).
        { intros E. pose proof (indexed_inj _ _ _ _ _ _ Hix Hx Hlast E). lia. }
        rewrite lookup_delete_ne by congruence.
        rewrite lookup_insert_ne by congruence. apply Hix. exact Hx. }
    assert (covered no_stale l2 m2) as Hcov2.
    { intros w z Hw. right. unfold m2 in Hw.
      apply lookup_delete_Some in Hw as [Hwv Hw].
      apply list_elem_of_fmap. rewrite lookup_insert in Hw. case_decide as E.
      - exists last. split; [congruence|]. eapply list_elem_of_lookup_2; eauto.
      - destruct (Hcov w z Hw) as [[]|Hin].
        apply list_elem_of_fmap in Hin as (x & -> & Hx).
        apply list_elem_of_lookup in Hx as [i Hx].
        exists x. split; [reflexivity|]. apply list_elem_of_lookup. exists i.
        pose proof (lookup_lt_Some _ _ _ Hx).
        assert (i ≠ Z.to_nat index).
        { intros ->. rewrite Hrem in Hx. injection Hx as <-. congruence. }
        assert (i ≠ (length (pairs q) - 1)%nat).
        { intros ->. rewrite Hlast in Hx. injection Hx as <-. congruence. }
        unfold l2. rewrite lookup_take_lt by lia.
        rewrite list_lookup_insert_ne by congruence. exact Hx. }
    set (q2 := mkPQ l2 (sizeD q) m2).
    assert (wf q2) as Hwf2.
    { unfold wf, len. cbn [q2 pairs sizeD]. rewrite Hl2. unfold len in *. split; [exact Hd|lia]. }
    rewrite (index_pairs_ok l2 index last) by first [lia | exact Hmoved].
    cbn [obind].
    destruct (f32_lt (priority last) (priority removed)).
    + destruct (bubbleUpIndex_spec fuel q2 index last)
        as (q' & k & Ebu & Hsd & Hperm & _ & _ & _ & Hix' & Hcov');
        [cbn [q2 sizeD]; lia|apply Hwf2|lia|exact Hmoved|lia|].
      rewrite Ebu. cbn [obind]. exists q', None. split; [reflexivity|].
      split; [exact Hsd|]. split; [rewrite Hperm; cbn [q2 pairs]; lia|]. auto.
    + destruct (f32_gt (priority last) (priority removed)).
      * destruct (pushDownIndex_spec fuel q2 index)
          as (q' & Epd & Hsd & Hperm & Hix' & Hcov');
          [exact Hwf2|unfold len; cbn [q2 pairs]; lia|cbn [q2 pairs]; lia|].
        rewrite Epd. cbn [obind]. exists q', None. split; [reflexivity|].
        split; [exact Hsd|]. split; [rewrite Hperm; cbn [q2 pairs]; lia|]. auto.
      * exists q2, None. split; [reflexivity|]. split; [reflexivity|].
        split; [cbn [q2 pairs]; lia|]. auto.
Qed.

Lemma Top_spec fuel q :
  wf q → indexed (pairs q) (indexMap q) → covered no_stale (pairs q) (indexMap q) →
  pairs q ≠ [] → (length (pairs q) < fuel)%nat →
  ∃ q' r,
    Top fuel q = Done (q', (r, None))
    ∧ pairs q !! 0%nat = Some r
    ∧ sizeD q' = sizeD q
    ∧ length (pairs q') = (length (pairs q) - 1)%nat
    ∧ indexed (pairs q') (indexMap q')
    ∧ covered no_stale (pairs q') (indexMap q').
Proof.
  intros Hwf Hix Hcov Hne Hfuel. pose proof Hwf as [Hd Hlen]. unfold Top.
  rewrite (proj2 (isEmpty_false q) Hne).
  assert (0 < length (pairs q))%nat as Hpos.
  { destruct (pairs q); [contradiction|cbn; lia]. }
  unfold removeLast.
  assert ((len q - 1)%int = len q - 1) as -> by (unfold len in *; int_simpl; reflexivity).
  assert (Z.to_nat (len q - 1) = (length (pairs q) - 1)%nat) as Elast by (unfold len; lia).
  destruct (lookup_lt_is_Some_2 (pairs q) (length (pairs q) - 1)) as [last Hlast]; [lia|].
  rewrite (index_pairs_ok (pairs q) (len q - 1) last)
    by first [unfold len in *; lia | rewrite Elast; exact Hlast].
  cbn [obind].
  assert (len (map_delete q (value last)) = len q) as -> by reflexivity.
  assert ((len q - 1)%int = len q - 1) as -> by (unfold len in *; int_simpl; reflexivity).
  unfold_setters.
  rewrite slice_to_ok by (unfold len in *; lia). cbn [obind]. rewrite Elast.
  set (l1 := take (length (pairs q) - 1) (pairs q)).
  set (m1 := delete (value last) (indexMap q)).
  assert (length l1 = (length (pairs q) - 1)%nat) as Hl1.
  { unfold l1. rewrite length_take. lia. }
  pose proof (drop_last_indexed _ _ _ Hix Hlast) as Hix1.
  pose proof (drop_last_covered _ _ _ _ Hcov Hlast) as Hcov1.
  fold l1 m1 in Hix1, Hcov1.
  destruct (isEmpty (mkPQ l1 (sizeD q) m1)) eqn:Eempty.
  - apply isEmpty_true in Eempty. cbn [pairs] in Eempty.
    exists (mkPQ l1 (sizeD q) m1), last. split; [reflexivity|].
    rewrite Eempty in Hl1. cbn [length] in Hl1.
    replace (length (pairs q) - 1)%nat with 0%nat in Hlast by lia.
    split; [exact Hlast|]. cbn [pairs sizeD indexMap].
    split; [reflexivity|]. split; [rewrite Eempty; cbn; lia|]. auto.
  - apply isEmpty_false in Eempty. cbn [pairs] in Eempty.
    assert (0 < length l1)%nat as Hpos1.
    { destruct l1; [contradiction|cbn; lia]. }
    destruct (lookup_lt_is_Some_2 l1 0) as [element Helement]; [lia|].
    assert (pairs q !! 0%nat = Some element) as Hroot.
    { unfold l1 in Helement. apply lookup_take_Some in Helement as [Hx _]. exact Hx. }
    cbn [pairs].
    rewrite (index_pairs_ok l1 0 element) by first [lia | exact Helement].
    cbn [obind]. rewrite store_pairs_ok by lia. cbn [obind].
    unfold_setters. change (Z.to_nat 0) with 0%nat.
    set (l2 := <[0%nat := last]> l1).
    set (m2 := <[value last := 0]> m1).
    set (q2 := mkPQ l2 (sizeD q) m2).
    assert (length l2 = length l1) as Hl2 by apply length_insert.
    assert (wf q2) as Hwf2.
    { unfold wf, len. cbn [q2 pairs sizeD]. unfold len in *. split; [exact Hd|lia]. }
    assert (value element ≠ value last) as Hel.
    { intros E. pose proof (indexed_inj _ _ _ _ _ _ Hix Hroot Hlast E). lia. }
    assert (indexed l2 m2) as Hix2.
    { intros i x Hx. unfold l2 in Hx. unfold m2.
      destruct (decide (i = 0%nat)) as [->|Hi].
      - rewrite list_lookup_insert_eq in Hx by lia. injection Hx as <-.
        apply lookup_insert_eq.
      - rewrite list_lookup_insert_ne in Hx by congruence.
        pose proof (Hix1 i x Hx) as Hm1.
        rewrite lookup_insert_ne; [exact Hm1|].
        intros E. unfold m1 in Hm1. rewrite <- E, lookup_delete_eq in Hm1. discriminate. }
    assert (covered (λ w, w = value element) l2 m2) as Hcov2.
    { intros w z Hw. unfold m2 in Hw. rewrite lookup_insert in Hw. case_decide as E.
      - right. subst w. apply list_elem_of_fmap. exists last. split; [reflexivity|].
        apply list_elem_of_lookup. exists 0%nat. apply list_lookup_insert_eq. lia.
      - destruct (Hcov1 w z Hw) as [[]|Hin].
        apply list_elem_of_fmap in Hin as (x & -> & Hx).
        apply list_elem_of_lookup in Hx as [i Hx].
        destruct (decide (i = 0%nat)) as [->|Hi].
        + left. rewrite Helement in Hx. injection Hx as <-. reflexivity.
        + right. apply list_elem_of_fmap. exists x. split; [reflexivity|].
          apply list_elem_of_lookup. exists i. unfold l2.
          rewrite list_lookup_insert_ne by congruence. exact Hx. }
    assert (value element ∉ value <$> l2) as Hgone.
    { intros Hin. apply list_elem_of_fmap in Hin as (x & E & Hx).
      apply list_elem_of_lookup in Hx as [i Hx]. unfold l2 in Hx.
      destruct (decide (i = 0%nat)) as [->|Hi].
      - rewrite list_lookup_insert_eq in Hx by lia. injection Hx as <-. contradiction.
      - rewrite list_lookup_insert_ne in Hx by congruence.
        unfold l1 in Hx. apply lookup_take_Some in Hx as [Hx _].
        pose proof (indexed_inj _ _ _ _ _ _ Hix Hroot Hx E). lia. }
    unfold pushDown.
    destruct (pushDownIndex_spec fuel q2 0)
      as (q3 & Epd & Hsd & Hperm & Hix3 & Hcov3);
      [exact Hwf2|unfold len; cbn [q2 pairs]; lia|cbn [q2 pairs]; lia|].
    rewrite Epd. cbn [obind].
    exists (map_delete q3 (value element)), element. split; [reflexivity|].
    split; [exact Hroot|]. unfold_setters.
    split; [exact Hsd|]. split; [rewrite Hperm; cbn [q2 pairs]; lia|].
    specialize (Hix3 Hix2). specialize (Hcov3 _ Hcov2).
    change l2 with (pairs q2) in Hgone. rewrite <- Hperm in Hgone. split.
    + intros i x Hx. rewrite lookup_delete_ne; [apply Hix3; exact Hx|].
      intros E. apply Hgone. apply list_elem_of_fmap. exists x.
      split; [exact E|]. eapply list_elem_of_lookup_2; eauto.
    + intros w z Hw. apply lookup_delete_Some in Hw as [Hwe Hw].
      destruct (Hcov3 w z Hw) as [E|Hin]; [congruence|right; exact Hin].
Qed.

End Operations.

(** ** Index consistency along call sequences *)

Section Consistency.

Context {T : Type} `{Countable T} `{GoZero T} `{GoMake T}.
Implicit Types (q : PriorityQueue T) (o : op T) (ops : list (op T)).

(** What the constructor returns, when [make] grants the capacity. *)
Lemma NewPriorityQueue_inv (d capacity : Z) q :
  NewPriorityQueue d capacity = Done q →
  q = mkPQ [] (if d <? 2 then 2 else d) ∅.
Proof.
  unfold NewPriorityQueue, make_pairs, make_indexMap. cbv zeta.
  destruct (_ || _); [discriminate|]. cbn [obind]. intros E. injection E as <-. reflexivity.
Qed.

Lemma NewPriorityQueue_granted (d capacity : Z) :
  capacity <= max_cap →
  NewPriorityQueue (T := T) d capacity = Done (mkPQ [] (if d <? 2 then 2 else d) ∅).
Proof.
  intros Hcap. unfold NewPriorityQueue, make_pairs, make_indexMap. cbv zeta.
  destruct (Z.ltb_spec capacity 0) as [Hneg|Hpos].
  - reflexivity.
  - destruct (Z.ltb_spec capacity 0); [lia|].
    destruct (Z.ltb_spec max_cap capacity); [lia|].
    rewrite andb_false_r. reflexivity.
Qed.

(** A capacity beyond what [make] grants ends the constructor in a panic. *)
Lemma NewPriorityQueue_refused (d capacity : Z) :
  0 < capacity → max_cap < capacity → NewPriorityQueue (T := T) d capacity = Panic.
Proof.
  intros Hpos Hcap. unfold NewPriorityQueue, make_pairs. cbv zeta.
  destruct (Z.ltb_spec capacity 0); [lia|].
  destruct (Z.ltb_spec capacity 0); [lia|].
  destruct (Z.ltb_spec 0 capacity); [|lia].
  destruct (Z.ltb_spec max_cap capacity); [|lia]. reflexivity.
Qed.

Lemma NewPriorityQueue_wf (d capacity : Z) q :
  NewPriorityQueue d capacity = Done q → d <= GoInt.max_int → wf q.
Proof.
  intros E Hd. apply NewPriorityQueue_inv in E as ->.
  unfold wf, len. cbn [sizeD pairs length].
  destruct (Z.ltb_spec d 2); int_range.
Qed.

Lemma NewPriorityQueue_consistent (d capacity : Z) q :
  NewPriorityQueue d capacity = Done q → index_consistent q.
Proof.
  intros E. apply NewPriorityQueue_inv in E as ->.
  apply index_consistent_alt. cbn [pairs indexMap]. split.
  - intros i p Hp. rewrite lookup_nil in Hp. discriminate.
  - intros v z Hv. rewrite lookup_empty in Hv. discriminate.
Qed.

Lemma exec_consistent fuel q o :
  wf q → index_consistent q → op_pre q o →
  len q < GoInt.max_int → (length (pairs q) + 1 < fuel)%nat →
  ∃ q', exec fuel q o = Done q' ∧ wf q' ∧ index_consistent q'
        ∧ (length (pairs q') <= length (pairs q) + 1)%nat.
Proof.
  intros Hwf Hinv Hpre Hroom Hfuel.
  apply index_consistent_alt in Hinv as [Hix Hcov].
  assert (∀ q', sizeD q' = sizeD q → (length (pairs q') <= length (pairs q) + 1)%nat → wf q')
    as Hwf'.
  { intros q' Hsd Hl. destruct Hwf as [Hd Hlen]. unfold wf, len in *. rewrite Hsd.
    split; [exact Hd|lia]. }
  destruct o as [v p|v|v p|]; cbn [exec op_pre] in *.
  - destruct (Insert_spec fuel q v p Hwf Hroom Hfuel)
      as (q' & k & E & Hsd & Hperm & _ & _ & _ & Hix' & Hcov').
    assert (length (pairs q') = length (pairs q) + 1)%nat as Hl.
    { rewrite Hperm, length_app. reflexivity. }
    exists q'. split; [exact E|]. split; [apply Hwf'; [exact Hsd|lia]|].
    split; [|lia]. apply index_consistent_alt. auto.
  - destruct (Remove_spec fuel q v Hwf Hix Hcov ltac:(lia))
      as (q' & e & E & Hsd & Hl & Hix' & Hcov').
    rewrite E. cbn [obind]. exists q'. split; [reflexivity|].
    split; [apply Hwf'; [exact Hsd|lia]|].
    split; [|lia]. apply index_consistent_alt. auto.
  - destruct (Update_spec fuel q v p Hwf Hix Hcov ltac:(lia))
      as (q' & e & E & Hsd & Hl & Hix' & Hcov').
    rewrite E. cbn [obind]. exists q'. split; [reflexivity|].
    split; [apply Hwf'; [exact Hsd|lia]|].
    split; [|lia]. apply index_consistent_alt. auto.
  - destruct (decide (pairs q = [])) as [Hnil|Hne].
    + unfold Top. rewrite (proj2 (isEmpty_true q) Hnil). cbn [obind].
      exists q. split; [reflexivity|]. split; [exact Hwf|].
      split; [|lia]. apply index_consistent_alt. auto.
    + destruct (Top_spec fuel q Hwf Hix Hcov Hne ltac:(lia))
        as (q' & r & E & _ & Hsd & Hl & Hix' & Hcov').
      rewrite E. cbn [obind]. exists q'. split; [reflexivity|].
      split; [apply Hwf'; [exact Hsd|lia]|].
      split; [|lia]. apply index_consistent_alt. auto.
Qed.

Lemma run_consistent fuel ops : ∀ q,
  wf q → index_consistent q →
  len q + Z.of_nat (length ops) <= GoInt.max_int →
  (length (pairs q) + length ops < fuel)%nat →
  fresh_inserts fuel q ops →
  ∀ k, ∃ q', run fuel q (take k ops) = Done q' ∧ wf q' ∧ index_consistent q'.
Proof.
  induction ops as [|o ops IH]; intros q Hwf Hinv Hroom Hfuel Hfresh k.
  - rewrite take_nil. exists q. cbn [run]. auto.
  - destruct k as [|k]; [exists q; cbn [take run]; auto|].
    cbn [take run]. cbn [fresh_inserts] in Hfresh. destruct Hfresh as [Hpre Hrest].
    cbn [length] in Hroom, Hfuel.
    destruct (exec_consistent fuel q o Hwf Hinv Hpre) as (q1 & E & Hwf1 & Hinv1 & Hl1);
      [lia|lia|].
    rewrite E in Hrest |- *. cbn [obind].
    apply IH; auto; unfold len in *; lia.
Qed.

(** C5. Along every sequence of [Insert], [Remove], [Update] and [Top]
    calls whose inserted values are not already stored, started from an
    index-consistent queue (a new queue is one), every call returns and
    the queue after each of them is index-consistent: each occupied
    position is the one the index records for the value stored there, and
    the keys of the index are exactly the stored values. *)
Theorem index_consistency_preserved (fuel : nat) (q : PriorityQueue T) (ops : list (op T)) :
  wf q → index_consistent q →
  len q + Z.of_nat (length ops) <= GoInt.max_int →
  (length (pairs q) + length ops < fuel)%nat →
  fresh_inserts fuel q ops →
  ∀ k, ∃ q', run fuel q (take k ops) = Done q' ∧ index_consistent q'.
Proof.
  intros Hwf Hinv Hroom Hfuel Hfresh k.
  destruct (run_consistent fuel ops q Hwf Hinv Hroom Hfuel Hfresh k) as (q' & E & _ & Hq').
  eauto.
Qed.

End Consistency.

(** ** Remove, case by case *)

Section RemoveCases.

Context {T : Type} `{Countable T} `{GoZero T}.




End RemoveCases.

(** ** Inserting a value that is already stored *)

Section DuplicateInsert.

Context {T : Type} `{Countable T} `{GoZero T}.

(** C9. [Insert(v, p)] on a queue that already stores an entry [old] for
    [v]: the call returns (it does not fail and does not merge), storage
    has one more entry, the index sends [v] to the position where the new
    entry came to rest after its bubble-up, and [old] is still stored, at
    another position, which the index no longer reaches through [v]. *)
Theorem Insert_duplicate (fuel : nat) (q : PriorityQueue T) (v : T) (prio : float32)
    (j : nat) (old : Pair T) :
  wf q → len q < GoInt.max_int → (length (pairs q) + 1 < fuel)%nat →
  pairs q !! j = Some old → value old = v →
  ∃ q' k,
    Insert fuel q v prio = Done q'
    ∧ length (pairs q') = (length (pairs q) + 1)%nat
    ∧ indexMap q' !! v = Some k
    ∧ 0 <= k
    ∧ pairs q' !! Z.to_nat k = Some (mkPair prio v)
    ∧ delete (Z.to_nat k) (pairs q') ≡ₚ pairs q
    ∧ ∃ j', j' ≠ Z.to_nat k ∧ pairs q' !! j' = Some old.
Proof.
  intros Hwf Hroom Hfuel Hold Hval.
  destruct (Insert_spec fuel q v prio Hwf Hroom Hfuel)
    as (q' & k & E & _ & Hperm & Hk & Hat & Hidx & _ & _).
  exists q', k. split; [exact E|].
  split; [rewrite Hperm, length_app; reflexivity|].
  split; [exact Hidx|]. split; [lia|]. split; [exact Hat|].
  assert (delete (Z.to_nat k) (pairs q') ≡ₚ pairs q) as Hrest.
  { apply (Permutation_cons_inv (a := mkPair prio v)).
    rewrite <- (delete_Permutation _ _ _ Hat), Hperm.
    symmetry. apply Permutation_cons_append. }
  split; [exact Hrest|].
  assert (old ∈ delete (Z.to_nat k) (pairs q')) as Hin.
  { rewrite Hrest. eapply list_elem_of_lookup_2; eauto. }
  apply list_elem_of_lookup in Hin as [i Hi].
  destruct (Nat.lt_ge_cases i (Z.to_nat k)) as [Hlt|Hge].
  - exists i. rewrite list_lookup_delete_lt in Hi by exact Hlt. split; [lia|exact Hi].
  - exists (S i). rewrite list_lookup_delete_ge in Hi by exact Hge. split; [lia|exact Hi].
Qed.

End DuplicateInsert.

(** ** Termination *)

Section Termination.

Context {T : Type} `{Countable T} `{GoZero T}.
Implicit Types (q : PriorityQueue T) (v : T).

(** A round of bubble-up that goes on does so from a strictly smaller,
    non-negative position. *)
Lemma bubbleUp_body_decreases current q index q' index' :
  1 <= sizeD q → index <= GoInt.max_int →
  bubbleUp_body current (q, index) = Done (Next (q', index')) →
  0 <= index' < index.
Proof.
  intros Hd Hi. unfold bubbleUp_body, getParentIndex.
  destruct (Z.gtb_spec index 0); [|discriminate].
  int_simpl. rewrite int_quot_pos by int_range. cbn [obind].
  assert (0 <= (index - 1) / sizeD q < index) as Hpar.
  { split; [apply Z.div_pos; lia|].
    apply Z.div_lt_upper_bound; [lia|nia]. }
  destruct (index_pairs (pairs q) ((index - 1) / sizeD q)) as [parent| |];
    cbn [obind]; try discriminate.
  destruct (f32_lt (priority parent) (priority current)); [|discriminate].
  destruct (store_pairs (pairs q) index parent) as [l| |]; cbn [obind]; try discriminate.
  destruct (index_pairs (pairs (set_pairs q l)) index) as [x| |];
    cbn [obind]; try discriminate.
  intros [= _ <-]. exact Hpar.
Qed.

(** A round of push-down that goes on started above the first leaf and
    goes on from a strictly greater position. *)
Lemma pushDown_body_increases fuel q currentIndex q' index' :
  wf q → 0 <= currentIndex < len q → (length (pairs q) < fuel)%nat →
  pushDown_body fuel (q, currentIndex) = Done (Next (q', index')) →
  firstLeafIndex q = Done ((len q - 2) / sizeD q + 1)
  ∧ currentIndex < (len q - 2) / sizeD q + 1
  ∧ currentIndex < index' < len q.
Proof.
  intros Hwf Hc Hfuel Ebody. pose proof Hwf as [Hd Hlen].
  destruct (pushDown_body_shape fuel q currentIndex Hwf Hc Hfuel) as [Hnone Hsome].
  destruct (Z_lt_le_dec (currentIndex * sizeD q + 1) (len q)) as [Hlt|Hge].
  2:{ rewrite Hnone in Ebody by lia. discriminate. }
  destruct (Hsome Hlt) as (ci & child & entry & Hci & _ & _ & _ & E).
  rewrite E in Ebody.
  destruct (f32_gt (priority child) (priority entry)); [|discriminate].
  injection Ebody as _ <-.
  apply (firstLeaf_children q currentIndex Hwf Hc) in Hlt as [Hfirst Hn2].
  rewrite firstLeafIndex_spec by exact Hwf.
  rewrite Z.quot_div_nonneg in * by lia.
  split; [reflexivity|]. split; [exact Hfirst|]. nia.
Qed.

Lemma bubbleUpIndex_fuel fuel q index :
  1 <= sizeD q → len q <= GoInt.max_int → (length (pairs q) < fuel)%nat →
  bubbleUpIndex fuel q index ≠ OutOfFuel.
Proof.
  intros Hd Hlen Hfuel.
  destruct (index_pairs (pairs q) index) as [current| |] eqn:E.
  - apply index_pairs_inv in E as [Hrange Hcur].
    destruct (bubbleUpIndex_spec fuel q index current) as (q' & k & Ebu & _);
      try assumption; try lia.
    rewrite Ebu. discriminate.
  - unfold bubbleUpIndex. rewrite E. discriminate.
  - exfalso. eapply index_pairs_fuel; eauto.
Qed.

Lemma pushDownIndex_fuel fuel q currentIndex :
  wf q → 0 <= currentIndex < len q → (length (pairs q) < fuel)%nat →
  pushDownIndex fuel q currentIndex ≠ OutOfFuel.
Proof.
  intros Hwf Hc Hfuel.
  destruct (pushDownIndex_spec fuel q currentIndex Hwf Hc Hfuel) as (q' & E & _).
  rewrite E. discriminate.
Qed.

Lemma Peek_total q : ∃ r, Peek q = Done r.
Proof.
  unfold Peek. destruct (isEmpty q) eqn:E; [eauto|].
  apply isEmpty_false in E.
  destruct (pairs q) as [|p l] eqn:El; [contradiction|].
  rewrite (index_pairs_ok _ 0 p) by first [lia | reflexivity]. cbn [obind]. eauto.
Qed.

Lemma Update_fuel fuel q v newPriority :
  wf q → (length (pairs q) < fuel)%nat → Update fuel q v newPriority ≠ OutOfFuel.
Proof.
  intros Hwf Hfuel. pose proof Hwf as [Hd Hlen]. unfold Update.
  destruct (indexMap q !! v) as [index|]; [|discriminate].
  fuel_bind. fuel_bind.
  match goal with E : index_pairs _ _ = Done _ |- _ =>
    apply index_pairs_inv in E as [Hrange _] end.
  match goal with E : store_pairs _ _ _ = Done _ |- _ =>
    apply store_pairs_inv in E as [_ ->] end.
  set (q1 := set_pairs q _).
  assert (length (pairs q1) = length (pairs q)) as Hl1 by apply length_insert.
  assert (wf q1) as Hwf1 by (unfold wf, len; rewrite Hl1; exact Hwf).
  destruct (f32_lt _ _).
  - apply obind_fuel; [|discriminate].
    apply bubbleUpIndex_fuel; [change (sizeD q1) with (sizeD q); lia|apply Hwf1|lia].
  - destruct (f32_gt _ _); [|discriminate].
    apply obind_fuel; [|discriminate].
    apply pushDownIndex_fuel; [exact Hwf1|unfold len; lia|lia].
Qed.

Lemma Remove_fuel fuel q v :
  wf q → (length (pairs q) < fuel)%nat → Remove fuel q v ≠ OutOfFuel.
Proof.
  intros Hwf Hfuel. pose proof Hwf as [Hd Hlen]. unfold Remove.
  destruct (indexMap q !! v) as [index|]; [|discriminate].
  destruct (index =? (len q - 1)%int).
  { fuel_bind. discriminate. }
  do 5 fuel_bind.
  repeat match goal with
  | E : store_pairs _ _ _ = Done _ |- _ => apply store_pairs_inv in E as [_ ->]
  end.
  match goal with E : slice_to _ _ = Done ?l |- _ =>
    assert (length l <= length (pairs q))%nat as Hl
      by (unfold slice_to in E; destruct (_ && _); [|discriminate];
          injection E as <-; unfold_setters; rewrite length_take, length_insert; lia)
  end.
  fuel_bind.
  set (q2 := map_delete _ _) in *.
  assert (wf q2) as Hwf2.
  { unfold wf, len. cbn [q2 map_delete set_indexMap set_pairs pairs sizeD].
    unfold len in *. split; [exact Hd|lia]. }
  match goal with E : index_pairs (pairs q2) index = Done _ |- _ =>
    apply index_pairs_inv in E as [Hrange _] end.
  destruct (f32_lt _ _).
  - apply obind_fuel; [|discriminate].
    apply bubbleUpIndex_fuel;
      [change (sizeD q2) with (sizeD q); lia|apply Hwf2|
       cbn [q2 map_delete set_indexMap set_pairs pairs]; lia].
  - fuel_bind. destruct (f32_gt _ _); [|discriminate].
    apply obind_fuel; [|discriminate].
    apply pushDownIndex_fuel;
      [exact Hwf2|unfold len; lia|cbn [q2 map_delete set_indexMap set_pairs pairs]; lia].
Qed.

Lemma removeLast_inv q q1 p :
  removeLast q = Done (q1, p) →
  sizeD q1 = sizeD q ∧ (length (pairs q1) <= length (pairs q))%nat.
Proof.
  unfold removeLast.
  destruct (index_pairs _ _) as [element| |]; cbn [obind]; try discriminate.
  unfold slice_to. destruct (_ && _); cbn [obind]; [|discriminate].
  intros [= <- _]. unfold_setters. rewrite length_take. split; [reflexivity|lia].
Qed.

Lemma removeLast_fuel q : removeLast q ≠ OutOfFuel.
Proof. unfold removeLast. fuel_bind. fuel_bind. discriminate. Qed.

Lemma Top_fuel fuel q :
  wf q → (length (pairs q) < fuel)%nat → Top fuel q ≠ OutOfFuel.
Proof.
  intros Hwf Hfuel. pose proof Hwf as [Hd Hlen]. unfold Top.
  destruct (isEmpty q); [discriminate|].
  apply obind_fuel; [apply removeLast_fuel|]. intros [q1 p] E1.
  apply removeLast_inv in E1 as [Hsd1 Hl1].
  destruct (isEmpty q1) eqn:Eempty; [discriminate|].
  apply isEmpty_false in Eempty.
  fuel_bind. fuel_bind.
  match goal with E : store_pairs _ _ _ = Done _ |- _ =>
    apply store_pairs_inv in E as [Hrange ->] end.
  set (q2 := map_store _ _ _).
  assert (length (pairs q2) = length (pairs q1)) as Hl2 by apply length_insert.
  assert (wf q2) as Hwf2.
  { unfold wf, len. rewrite Hl2. change (sizeD q2) with (sizeD q1). rewrite Hsd1.
    unfold len in *. split; [exact Hd|lia]. }
  apply obind_fuel; [|discriminate].
  apply pushDownIndex_fuel; [exact Hwf2|unfold len; lia|lia].
Qed.

(** C10. On a queue as the constructor and the calls leave it (branching
    factor at least 2, length an [int]):
    - a round of bubble-up that continues does so from a strictly smaller
      position, never below 0;
    - a round of push-down runs only below the first leaf index
      [(n-2)/d + 1] and continues from a strictly greater position;
    - hence, given fuel beyond the length, no public call is stopped by
      the iteration budget: [Insert] and [Peek] return, and [Remove],
      [Update] and [Top] return whenever the index is consistent with
      storage (otherwise they may only end by a panic). *)
Theorem operations_terminate (fuel : nat) (q : PriorityQueue T) :
  wf q → len q < GoInt.max_int → (length (pairs q) + 1 < fuel)%nat →
  (∀ current index q' index',
      index <= GoInt.max_int →
      bubbleUp_body current (q, index) = Done (Next (q', index')) →
      0 <= index' < index)
  ∧ (∀ currentIndex q' index',
      0 <= currentIndex < len q →
      pushDown_body fuel (q, currentIndex) = Done (Next (q', index')) →
      firstLeafIndex q = Done ((len q - 2) / sizeD q + 1)
      ∧ currentIndex < (len q - 2) / sizeD q + 1
      ∧ currentIndex < index' < len q)
  ∧ (∀ v prio, ∃ q', Insert fuel q v prio = Done q')
  ∧ (∃ r, Peek q = Done r)
  ∧ (∀ v, Remove fuel q v ≠ OutOfFuel)
  ∧ (∀ v prio, Update fuel q v prio ≠ OutOfFuel)
  ∧ Top fuel q ≠ OutOfFuel
  ∧ (index_consistent q →
       (∀ v, ∃ r, Remove fuel q v = Done r)
       ∧ (∀ v prio, ∃ r, Update fuel q v prio = Done r)
       ∧ (∃ r, Top fuel q = Done r)).
Proof.
  intros Hwf Hroom Hfuel. pose proof Hwf as [Hd Hlen].
  split; [|split; [|split; [|split; [|split; [|split; [|split]]]]]].
  - intros current index q' index' Hi E.
    apply (bubbleUp_body_decreases current q index q' index'); [lia|exact Hi|exact E].
  - intros currentIndex q' index' Hc E.
    apply (pushDown_body_increases fuel q currentIndex q' index'); [exact Hwf|exact Hc|lia|exact E].
  - intros v prio.
    destruct (Insert_spec fuel q v prio Hwf Hroom Hfuel) as (q' & k & E & _). eauto.
  - apply Peek_total.
  - intros v. apply Remove_fuel; [exact Hwf|lia].
  - intros v prio. apply Update_fuel; [exact Hwf|lia].
  - apply Top_fuel; [exact Hwf|lia].
  - intros Hinv. apply index_consistent_alt in Hinv as [Hix Hcov].
    split; [|split].
    + intros v.
      destruct (Remove_spec fuel q v Hwf Hix Hcov ltac:(lia)) as (q' & e & E & _). eauto.
    + intros v prio.
      destruct (Update_spec fuel q v prio Hwf Hix Hcov ltac:(lia)) as (q' & e & E & _). eauto.
    + destruct (decide (pairs q = [])) as [Hnil|Hne].
      * unfold Top. rewrite (proj2 (isEmpty_true q) Hnil). eauto.
      * destruct (Top_spec fuel q Hwf Hix Hcov Hne ltac:(lia)) as (q' & r & E & _). eauto.
Qed.

End Termination.

(** ** What Update does *)

Section UpdateCases.

Context {T : Type} `{Countable T} `{GoZero T}.

(** [Update(v, newPriority)] when the index sends [v] to position [index]:
    the priority is overwritten; the entry is then handed to bubble-up
    when the new priority is strictly lower than the old one, to push-down
    when it is strictly higher, and left alone otherwise. *)
Lemma Update_cases (fuel : nat) (q : PriorityQueue T) (v : T) (newPriority : float32)
    (index : Z) (old : Pair T) :
  indexMap q !! v = Some index → 0 <= index →
  pairs q !! Z.to_nat index = Some old →
  let rewritten :=
    mkPQ (<[Z.to_nat index := mkPair newPriority (value old)]> (pairs q))
         (sizeD q) (indexMap q) in
  Update fuel q v newPriority =
    if f32_lt newPriority (priority old)
    then do q' <- bubbleUpIndex fuel rewritten index; Done (q', None)
    else if f32_gt newPriority (priority old)
         then do q' <- pushDownIndex fuel rewritten index; Done (q', None)
         else Done (rewritten, None).
Proof.
  intros Hv Hi0 Hold. pose proof (lookup_lt_Some _ _ _ Hold).
  cbv zeta. unfold Update. rewrite Hv.
  rewrite (index_pairs_ok (pairs q) index old) by first [lia | exact Hold].
  cbn [obind]. rewrite store_pairs_ok by lia. cbn [obind]. reflexivity.
Qed.

(** On a queue that is a max-heap, [Update] only rewrites the priority: the
    entry stays at its position whichever way the priority moved, because a
    lowered entry is handed to bubble-up (its parent is not below it) and a
    raised one to push-down (no child is above it). *)
Lemma Update_on_heap_in_place (fuel : nat) (q : PriorityQueue T) (v : T)
    (newPriority : float32) (index : Z) (old : Pair T) :
  wf q → len q <= GoInt.half_range → max_heap q →
  indexMap q !! v = Some index → 0 <= index →
  pairs q !! Z.to_nat index = Some old → value old = v →
  (length (pairs q) < fuel)%nat →
  Update fuel q v newPriority =
    Done (mkPQ (<[Z.to_nat index := mkPair newPriority (value old)]> (pairs q))
               (sizeD q) (indexMap q),
          None).
Proof.
  intros Hwf Hhalf Hheap Hv Hi0 Hold Hval Hfuel. pose proof Hwf as [Hd Hlen].
  pose proof (lookup_lt_Some _ _ _ Hold) as Hrange.
  rewrite (Update_cases fuel q v newPriority index old Hv Hi0 Hold).
  set (current := mkPair newPriority (value old)).
  set (q1 := mkPQ (<[Z.to_nat index := current]> (pairs q)) (sizeD q) (indexMap q)).
  assert (length (pairs q1) = length (pairs q)) as Hl1 by apply length_insert.
  assert (len q1 = len q) as Hlen1 by (unfold len; lia).
  assert (pairs q1 !! Z.to_nat index = Some current) as Hcur
    by (apply list_lookup_insert_eq; lia).
  assert (wf q1) as Hwf1 by (unfold wf; rewrite Hlen1; exact Hwf).
  destruct fuel as [|fuel']; [lia|].
  destruct (f32_lt newPriority (priority old)) eqn:Hlt.
  - (* lowered: bubble-up stops in its first round *)
    assert (for_loop (S fuel') (bubbleUp_body current) (q1, index) = Done (q1, index)) as Eloop.
    { cbn [for_loop].
      destruct (Z_le_gt_dec index 0) as [Hz|Hz].
      { rewrite bubbleUp_body_root by lia. reflexivity. }
      destruct (bubbleUp_body_step current q1 index) as (parent & Hparent & Hpar & Ebody);
        [change (sizeD q1) with (sizeD q); lia|unfold len in *; lia|lia|].
      rewrite Ebody. change (sizeD q1) with (sizeD q) in *.
      cbn [q1 pairs] in Hparent. rewrite list_lookup_insert_ne in Hparent by lia.
      assert (SFleb (priority old) (priority parent) = true) as Hle.
      { apply (Hheap (Z.to_nat index) old parent); [lia|exact Hold|].
        rewrite Z2Nat.id by lia. exact Hparent. }
      assert (f32_lt (priority parent) (priority current) = false) as ->; [|reflexivity].
      destruct (f32_lt (priority parent) (priority current)) eqn:Hpc; [|reflexivity].
      pose proof (f32_lt_trans _ _ _ Hpc Hlt) as Hpo.
      rewrite (f32_le_not_lt _ _ Hle) in Hpo. discriminate. }
    unfold bubbleUpIndex.
    rewrite (index_pairs_ok (pairs q1) index current) by first [lia | exact Hcur].
    cbn [obind]. rewrite Eloop. cbn [obind].
    rewrite store_pairs_ok by lia. cbn [obind].
    unfold map_store, set_indexMap, set_pairs. cbn [pairs sizeD indexMap].
    rewrite list_insert_id by exact Hcur.
    rewrite insert_id by (cbn [current value]; rewrite Hval; exact Hv).
    reflexivity.
  - destruct (f32_gt newPriority (priority old)) eqn:Hgt; [|reflexivity].
    (* raised: push-down stops in its first round *)
    assert (pushDown_body (S fuel') (q1, index) = Done (Break (q1, index))) as Ebody.
    { destruct (pushDown_body_shape (S fuel') q1 index Hwf1) as [Hnone Hsome];
        [unfold len in *; lia|lia|].
      destruct (Z_lt_le_dec (index * sizeD q1 + 1) (len q1)) as [Hc|Hc];
        [|apply Hnone; lia].
      destruct (Hsome Hc) as (ci & child & entry & Hci & Hchild & Hentry & Hbest & E).
      destruct (Hbest ltac:(lia)) as (Hup & _ & _).
      rewrite E. change (sizeD q1) with (sizeD q) in *.
      rewrite Hcur in Hentry. injection Hentry as <-.
      cbn [q1 pairs] in Hchild. rewrite list_lookup_insert_ne in Hchild by nia.
      assert ((ci - 1) / sizeD q = index) as Hparent.
      { symmetry. apply (Z.div_unique_pos _ _ _ (ci - 1 - index * sizeD q)); lia. }
      assert (SFleb (priority child) (priority old) = true) as Hle.
      { apply (Hheap (Z.to_nat ci) child old); [nia|exact Hchild|].
        rewrite Z2Nat.id by lia. rewrite Hparent. exact Hold. }
      assert (f32_gt (priority child) (priority current) = false) as ->; [|reflexivity].
      unfold f32_gt in *.
      destruct (SFltb (priority current) (priority child)) eqn:Hcc; [|reflexivity].
      pose proof (f32_lt_trans _ _ _ Hgt Hcc) as Hoc.
      rewrite (f32_le_not_lt _ _ Hle) in Hoc. discriminate. }
    unfold pushDownIndex. cbn [for_loop]. rewrite Ebody. reflexivity.
Qed.

End UpdateCases.

(** ** The scenario, and where the code leaves the heap order *)

Module ScenarioFacts.

Import Scenario.

(** C1. The scenario of the specification, run on the code. The [Peek]
    after [Update(B,20)] still answers (10,A): the raised entry is handed
    to push-down and stays below the root. From there on the answers are
    (8,C) after [Remove(A)], (8,C) then (20,B) for the two [Top] calls,
    and [ErrQueueIsEmpty] at the end; they are not the announced ones. *)
Theorem scenario_on_the_code :
  observations =
    Done [ (mkPair (f32 10) A, None); (mkPair (f32 10) A, None); (mkPair (f32 8) C, None);
           (mkPair (f32 8) C, None); (mkPair (f32 20) B, None); (mkPair (f32 20) B, None);
           (zeroPair, Some ErrQueueIsEmpty) ]
  ∧ observations ≠ Done announced.
Proof.
  assert (observations =
    Done [ (mkPair (f32 10) A, None); (mkPair (f32 10) A, None); (mkPair (f32 8) C, None);
           (mkPair (f32 8) C, None); (mkPair (f32 20) B, None); (mkPair (f32 20) B, None);
           (zeroPair, Some ErrQueueIsEmpty) ]) as E by (vm_compute; reflexivity).
  split; [exact E|]. rewrite E. vm_compute. discriminate.
Qed.

(** C2. [Update] on the code, at two inputs. Lowering the root from 10 to
    1 leaves it at the root, above a child of priority 5; raising the leaf
    from 5 to 20 leaves it a leaf, below a root of priority 10. The entry
    is neither pushed down in the first case nor bubbled up in the second. *)
Theorem Update_moves_nothing :
  (∃ q', run fuel q0 lowered_root = Done q'
         ∧ pairs q' = [mkPair (f32 1) A; mkPair (f32 5) B])
  ∧ (∃ q', run fuel q0 raised_leaf = Done q'
           ∧ pairs q' = [mkPair (f32 10) A; mkPair (f32 20) B]).
Proof.
  split; eexists; (split; [vm_compute; reflexivity|reflexivity]).
Qed.

(** C3. Two call sequences without duplicate inserts after which the
    max-heap order does not hold: one ends with an [Update] that lowers
    the root, the other with a [Remove] of an inner entry. *)
Theorem heap_order_lost :
  (fresh_inserts fuel q0 lowered_root
   ∧ ∃ q', run fuel q0 lowered_root = Done q' ∧ ¬ max_heap q')
  ∧ (fresh_inserts fuel q0 removed_inner
     ∧ ∃ q', run fuel q0 removed_inner = Done q' ∧ ¬ max_heap q').
Proof.
  split; split.
  - fresh_tac.
  - eexists. split; [vm_compute; reflexivity|]. intros Hheap.
    specialize (Hheap 1%nat (mkPair (f32 5) B) (mkPair (f32 1) A)
                      ltac:(lia) eq_refl eq_refl).
    vm_compute in Hheap. discriminate.
  - fresh_tac.
  - eexists. split; [vm_compute; reflexivity|]. intros Hheap.
    specialize (Hheap 3%nat (mkPair (f32 7) D) (mkPair (f32 6) E)
                      ltac:(lia) eq_refl eq_refl).
    vm_compute in Hheap. discriminate.
Qed.

(** C6. A call sequence without duplicate inserts after which repeated
    [Top] hands the entries out in the order 1, 8, 5: a higher priority
    after a lower one. *)
Theorem drain_out_of_order :
  fresh_inserts fuel q0 lowered_root3
  ∧ ∃ q' out,
      run fuel q0 lowered_root3 = Done q'
      ∧ drain fuel fuel q' = Done out
      ∧ out = [mkPair (f32 1) A; mkPair (f32 8) C; mkPair (f32 5) B]
      ∧ ¬ non_increasing out.
Proof.
  split; [fresh_tac|].
  eexists. eexists. split; [vm_compute; reflexivity|].
  split; [vm_compute; reflexivity|]. split; [reflexivity|].
  intros Hord.
  specialize (Hord 0%nat (mkPair (f32 1) A) (mkPair (f32 8) C) eq_refl eq_refl).
  vm_compute in Hord. discriminate.
Qed.

End ScenarioFacts.

(** ** The theorems at concrete queues *)

Module Instances.

Import Scenario.

Lemma low_root_wf : wf low_root.
Proof. unfold wf, len. cbn. int_range. Defined.

Lemma two_entries_wf : wf two_entries.
Proof. unfold wf, len. cbn. int_range. Defined.

Lemma q0_is_new : NewPriorityQueue 2 0 = Done q0.
Proof. reflexivity. Defined.

(** A capacity of 2^48 entries is refused. *)
Lemma huge_capacity_refused : NewPriorityQueue (T := string) 2 (2 ^ 48) = Panic.
Proof. vm_compute. reflexivity. Defined.

Lemma q0_wf : wf q0.
Proof. unfold wf, len. cbn. int_range. Defined.


(** [index_consistency_preserved] along the calls of the scenario. *)
Lemma index_consistency_preserved_witness :
  wf q0
  ∧ index_consistent q0
  ∧ len q0 + Z.of_nat (length calls) <= GoInt.max_int
  ∧ (length (pairs q0) + length calls < 12)%nat
  ∧ fresh_inserts 12 q0 calls
  ∧ ∀ k, ∃ q', run 12 q0 (take k calls) = Done q' ∧ index_consistent q'.
Proof.
  assert (index_consistent q0) as H1 by (apply (NewPriorityQueue_consistent 2 0); reflexivity).
  assert (len q0 + Z.of_nat (length calls) <= GoInt.max_int) as H2
    by (unfold len; cbn; int_range).
  assert (length (pairs q0) + length calls < 12)%nat as H3 by (cbn; lia).
  assert (fresh_inserts 12 q0 calls) as H4 by fresh_tac.
  split; [exact q0_wf|]. split; [exact H1|]. split; [exact H2|].
  split; [exact H3|]. split; [exact H4|].
  exact (index_consistency_preserved 12 q0 calls q0_wf H1 H2 H3 H4).
Defined.

(** [Insert_duplicate] at [Insert(A,7)] on a queue that stores (10,A). *)
Lemma Insert_duplicate_witness :
  wf two_entries
  ∧ len two_entries < GoInt.max_int
  ∧ (length (pairs two_entries) + 1 < fuel)%nat
  ∧ pairs two_entries !! 0%nat = Some (mkPair (f32 10) A)
  ∧ value (mkPair (f32 10) A) = A
  ∧ ∃ q' k,
      Insert fuel two_entries A (f32 7) = Done q'
      ∧ length (pairs q') = (length (pairs two_entries) + 1)%nat
      ∧ indexMap q' !! A = Some k
      ∧ 0 <= k
      ∧ pairs q' !! Z.to_nat k = Some (mkPair (f32 7) A)
      ∧ delete (Z.to_nat k) (pairs q') ≡ₚ pairs two_entries
      ∧ ∃ j', j' ≠ Z.to_nat k ∧ pairs q' !! j' = Some (mkPair (f32 10) A).
Proof.
  assert (len two_entries < GoInt.max_int) as H1 by (unfold len; cbn; int_range).
  assert (length (pairs two_entries) + 1 < fuel)%nat as H2 by (cbn; unfold fuel; lia).
  assert (pairs two_entries !! 0%nat = Some (mkPair (f32 10) A)) as H3 by reflexivity.
  assert (value (mkPair (f32 10) A) = A) as H4 by reflexivity.
  split; [exact two_entries_wf|]. split; [exact H1|]. split; [exact H2|].
  split; [exact H3|]. split; [exact H4|].
  exact (Insert_duplicate fuel two_entries A (f32 7) 0 (mkPair (f32 10) A)
           two_entries_wf H1 H2 H3 H4).
Defined.

(** [operations_terminate] at [low_root]. *)
Lemma operations_terminate_witness :
  wf low_root
  ∧ len low_root < GoInt.max_int
  ∧ (length (pairs low_root) + 1 < fuel)%nat
  ∧ ((∀ current index q' index',
        index <= GoInt.max_int →
        bubbleUp_body current (low_root, index) = Done (Next (q', index')) →
        0 <= index' < index)
     ∧ (∀ currentIndex q' index',
        0 <= currentIndex < len low_root →
        pushDown_body fuel (low_root, currentIndex) = Done (Next (q', index')) →
        firstLeafIndex low_root = Done ((len low_root - 2) / sizeD low_root + 1)
        ∧ currentIndex < (len low_root - 2) / sizeD low_root + 1
        ∧ currentIndex < index' < len low_root)
     ∧ (∀ v prio, ∃ q', Insert fuel low_root v prio = Done q')
     ∧ (∃ r, Peek low_root = Done r)
     ∧ (∀ v, Remove fuel low_root v ≠ OutOfFuel)
     ∧ (∀ v prio, Update fuel low_root v prio ≠ OutOfFuel)
     ∧ Top fuel low_root ≠ OutOfFuel
     ∧ (index_consistent low_root →
          (∀ v, ∃ r, Remove fuel low_root v = Done r)
          ∧ (∀ v prio, ∃ r, Update fuel low_root v prio = Done r)
          ∧ (∃ r, Top fuel low_root = Done r))).
Proof.
  assert (len low_root < GoInt.max_int) as H1 by (unfold len; cbn; int_range).
  assert (length (pairs low_root) + 1 < fuel)%nat as H2 by (cbn; unfold fuel; lia).
  split; [exact low_root_wf|]. split; [exact H1|]. split; [exact H2|].
  exact (operations_terminate fuel low_root low_root_wf H1 H2).
Defined.

(** [Update_on_heap_in_place] at [Update(A,1)] on the heap [two_entries]:
    the lowered root stays the root. *)
Lemma two_entries_heap : max_heap two_entries.
Proof.
  intros i p pp Hi Hp Hpp. destruct i as [|[|i]]; [lia| |discriminate].
  cbn in Hp, Hpp. injection Hp as <-. injection Hpp as <-. reflexivity.
Defined.

Lemma Update_on_heap_in_place_instance :
  Update fuel two_entries A (f32 1) =
    Done (mkPQ [mkPair (f32 1) A; mkPair (f32 5) B] 2 (indexMap two_entries), None).
Proof.
  apply (Update_on_heap_in_place fuel two_entries A (f32 1) 0 (mkPair (f32 10) A)).
  - exact two_entries_wf.
  - unfold len. cbn. int_range.
  - exact two_entries_heap.
  - vm_compute. reflexivity.
  - lia.
  - reflexivity.
  - reflexivity.
  - cbn. unfold fuel. lia.
Defined.

End Instances.

(** * Further properties of the code *)

(** ** Order of float32 values away from NaN *)

Lemma f32_lt_le (a b : float32) : f32_lt a b = true → SFleb a b = true.
Proof.
  unfold f32_lt, SFltb, SFleb. destruct (SFcompare a b) as [[]|]; congruence.
Qed.

Lemma f32_not_lt_le (a b : float32) :
  is_nan a = false → is_nan b = false → f32_lt a b = false → SFleb b a = true.
Proof.
  unfold f32_lt, SFltb, SFleb, SFcompare.
  destruct a as [sa|sa| |sa ma ea], b as [sb|sb| |sb mb eb];
    try discriminate; try reflexivity;
    repeat match goal with s : bool |- _ => destruct s end;
    try discriminate; try reflexivity; intros _ _;
    cmp_cases; simpl; try discriminate; try reflexivity; intros _; lia.
Qed.

Lemma f32_le_trans (a b c : float32) :
  SFleb a b = true → SFleb b c = true → SFleb a c = true.
Proof.
  unfold SFleb, SFcompare.
  destruct a as [sa|sa| |sa ma ea], b as [sb|sb| |sb mb eb], c as [sc|sc| |sc mc ec];
    try discriminate; try reflexivity;
    repeat match goal with s : bool |- _ => destruct s end;
    try discriminate; try reflexivity; intros H1 H2;
    cmp_cases; simpl in *; try discriminate; try reflexivity; lia.
Qed.

Lemma f32_le_refl (a : float32) : is_nan a = false → SFleb a a = true.
Proof.
  unfold SFleb, SFcompare.
  destruct a as [[]|[]| |[] m e]; try discriminate; try reflexivity; intros _;
    cmp_cases; simpl; try reflexivity; lia.
Qed.

(** A NaN is neither below nor above anything. *)
Lemma f32_nan_lt (a b : float32) :
  is_nan a = true → f32_lt a b = false ∧ f32_lt b a = false.
Proof.
  destruct a; try discriminate. intros _. unfold f32_lt, SFltb, SFcompare.
  destruct b; split; reflexivity.
Qed.

(** ** Positions of parents and children *)

Lemma parent_of_lt (d : Z) (i : nat) : 1 <= d → (0 < i)%nat → (parent_of d i < i)%nat.
Proof.
  intros Hd Hi. unfold parent_of.
  assert (0 <= (Z.of_nat i - 1) / d) by (apply Z.div_pos; lia).
  assert ((Z.of_nat i - 1) / d < Z.of_nat i)
    by (apply Z.div_lt_upper_bound; [lia|nia]).
  lia.
Qed.

(** The children of [i] are the positions [i*d+1 .. i*d+d]. *)
Lemma parent_of_child (d : Z) (c i : nat) :
  1 <= d → (0 < c)%nat →
  (parent_of d c = i ↔ Z.of_nat i * d + 1 <= Z.of_nat c <= Z.of_nat i * d + d).
Proof.
  intros Hd Hc. unfold parent_of.
  assert (0 <= (Z.of_nat c - 1) / d) by (apply Z.div_pos; lia).
  pose proof (Z.mul_div_le (Z.of_nat c - 1) d ltac:(lia)).
  pose proof (Z.mul_succ_div_gt (Z.of_nat c - 1) d ltac:(lia)).
  split.
  - intros <-. rewrite Z2Nat.id by lia. lia.
  - intros Hr.
    assert ((Z.of_nat c - 1) / d = Z.of_nat i); [|lia].
    symmetry. apply (Z.div_unique_pos _ _ _ (Z.of_nat c - 1 - Z.of_nat i * d)); lia.
Qed.

(** ** Heap order through bubble-up *)

Section HeapBubbleUp.

Context {T : Type} `{Countable T} `{GoZero T}.
Implicit Types (q : PriorityQueue T) (l L : list (Pair T)) (p current : Pair T).

Lemma no_nan_nan_free l : no_nan l = true ↔ nan_free l.
Proof.
  unfold no_nan, nan_free. rewrite forallb_forall. split.
  - intros Hall p Hp. apply list_elem_of_In, Hall in Hp.
    destruct (is_nan (priority p)); [discriminate|reflexivity].
  - intros Hall p Hp. apply list_elem_of_In, Hall in Hp. rewrite Hp. reflexivity.
Qed.

Lemma nan_free_lookup l (i : nat) p :
  nan_free l → l !! i = Some p → is_nan (priority p) = false.
Proof. intros Hl Hp. apply Hl. eapply list_elem_of_lookup_2; eauto. Qed.

Lemma nan_free_perm l l' : l' ≡ₚ l → nan_free l → nan_free l'.
Proof. intros Hperm Hl p Hp. apply Hl. rewrite <- Hperm. exact Hp. Qed.

(** Reading a list in which two positions were overwritten. *)
Lemma lookup_exchange L (i j k : nat) (a b : Pair T) :
  (i < length L)%nat → (j < length L)%nat → i ≠ j →
  <[j := a]> (<[i := b]> L) !! k =
    if decide (k = j) then Some a else if decide (k = i) then Some b else L !! k.
Proof.
  intros Hi Hj Hij. destruct (decide (k = j)) as [->|Hkj].
  - apply list_lookup_insert_eq. rewrite length_insert. exact Hj.
  - rewrite list_lookup_insert_ne by congruence.
    destruct (decide (k = i)) as [->|Hki].
    + apply list_lookup_insert_eq. exact Hi.
    + apply list_lookup_insert_ne. congruence.
Qed.

(** Moving the parent down into the hole keeps the order around the hole. *)
Lemma hole_heap_step (d : Z) L (h : nat) (parent current : Pair T) :
  1 <= d → (0 < h)%nat →
  L !! h = Some current → L !! parent_of d h = Some parent →
  f32_lt (priority parent) (priority current) = true →
  hole_heap d L h →
  hole_heap d (<[parent_of d h := current]> (<[h := parent]> L)) (parent_of d h).
Proof.
  intros Hd Hh Hcur Hpar Hlt [Ha Hb].
  pose proof (parent_of_lt d h Hd Hh) as Hph.
  pose proof (lookup_lt_Some _ _ _ Hcur) as Hhl.
  set (ph := parent_of d h) in *.
  assert (∀ k, <[ph := current]> (<[h := parent]> L) !! k =
    if decide (k = ph) then Some current else if decide (k = h) then Some parent else L !! k)
    as Hlook by (intros k; apply lookup_exchange; lia).
  split.
  - intros i Hi Hiph p pp Hp Hpp. rewrite Hlook in Hp, Hpp.
    pose proof (parent_of_lt d i Hd Hi) as Hpi.
    destruct (decide (i = ph)) as [|_]; [contradiction|].
    destruct (decide (i = h)) as [->|Hih].
    + injection Hp as <-. fold ph in Hpp. destruct (decide (ph = ph)); [|contradiction].
      injection Hpp as <-. apply f32_lt_le. exact Hlt.
    + destruct (decide (parent_of d i = ph)) as [Eph|Nph].
      * injection Hpp as <-.
        apply (f32_le_trans _ (priority parent)); [|apply f32_lt_le; exact Hlt].
        apply (Ha i Hi Hih p parent Hp). rewrite Eph. exact Hpar.
      * destruct (decide (parent_of d i = h)) as [Eh|Nh].
        -- injection Hpp as <-. apply (Hb Hh i p parent Hi Eh Hp Hpar).
        -- apply (Ha i Hi Hih p pp Hp Hpp).
  - intros Hph0 c pc pg Hc Hcp Hpc Hpg. rewrite Hlook in Hpc, Hpg.
    pose proof (parent_of_lt d ph Hd Hph0) as Hpph.
    pose proof (parent_of_lt d c Hd Hc) as Hpc'.
    destruct (decide (parent_of d ph = ph)) as [|_]; [lia|].
    destruct (decide (parent_of d ph = h)) as [|_]; [lia|].
    destruct (decide (c = ph)) as [|_]; [lia|].
    assert (SFleb (priority parent) (priority pg) = true) as Hppg.
    { apply (Ha ph Hph0 ltac:(lia) parent pg Hpar Hpg). }
    destruct (decide (c = h)) as [->|Hch].
    + injection Hpc as <-. exact Hppg.
    + apply (f32_le_trans _ (priority parent)); [|exact Hppg].
      apply (Ha c Hc Hch pc parent Hpc). rewrite Hcp. exact Hpar.
Qed.

(** When the entry at the hole is in order with its parent, the whole list
    is in heap order. *)
Lemma hole_heap_done (d : Z) L (h : nat) :
  hole_heap d L h → ((0 < h)%nat → ordered_at d L h) → heap_from d 0 L.
Proof.
  intros [Ha _] Hh i Hi _. destruct (decide (i = h)) as [->|Hih]; auto.
Qed.

Lemma bubbleUpIndex_heap fuel q index current :
  1 <= sizeD q → len q <= GoInt.max_int → 0 <= index →
  pairs q !! Z.to_nat index = Some current →
  (Z.to_nat index < fuel)%nat →
  nan_free (pairs q) → hole_heap (sizeD q) (pairs q) (Z.to_nat index) →
  ∃ q', bubbleUpIndex fuel q index = Done q' ∧ sizeD q' = sizeD q ∧ max_heap q'.
Proof.
  intros Hd Hlen Hi0 Hcur Hfuel Hnan Hhole.
  pose proof (lookup_lt_Some _ _ _ Hcur) as Hilen.
  set (d := sizeD q) in *.
  set (I := λ s : PriorityQueue T * Z,
    sizeD (fst s) = d
    ∧ length (pairs (fst s)) = length (pairs q)
    ∧ 0 <= snd s <= index
    ∧ nan_free (pairs (plug current s))
    ∧ hole_heap d (pairs (plug current s)) (Z.to_nat (snd s))).
  set (Q := λ s : PriorityQueue T * Z,
    sizeD (fst s) = d
    ∧ length (pairs (fst s)) = length (pairs q)
    ∧ 0 <= snd s <= index
    ∧ heap_from d 0 (pairs (plug current s))).
  assert (I (q, index)) as HI0.
  { unfold I, plug; cbn [fst snd pairs]. rewrite list_insert_id by exact Hcur.
    split; [reflexivity|]. split; [reflexivity|]. split; [lia|]. split; assumption. }
  destruct (for_loop_total (bubbleUp_body current) I Q (λ s, Z.to_nat (snd s)))
    with (fuel := fuel) (s := (q, index)) as ([q1 index1] & Eloop & HQ);
    [|exact HI0|cbn [snd]; lia|].
  { intros [qs ix] HI. pose proof HI as (Hsd & Hsl & Hsi & Hsn & Hsh).
    cbn [fst snd] in Hsd, Hsl, Hsi. unfold plug in Hsn, Hsh. cbn [fst snd pairs] in Hsn, Hsh.
    assert (<[Z.to_nat ix := current]> (pairs qs) !! Z.to_nat ix = Some current) as Hhole'
      by (apply list_lookup_insert_eq; lia).
    destruct (Z_le_gt_dec ix 0) as [Hz|Hz].
    { rewrite bubbleUp_body_root by lia. eexists. split; [reflexivity|].
      unfold Q, plug; cbn [fst snd pairs].
      split; [exact Hsd|]. split; [exact Hsl|]. split; [lia|].
      apply (hole_heap_done d _ (Z.to_nat ix)); [exact Hsh|lia]. }
    destruct (bubbleUp_body_step current qs ix) as (parent & Hparent & Hpar & Ebody);
      [lia|unfold len in *; lia|unfold len in *; lia|].
    rewrite Ebody. rewrite Hsd in *.
    assert (parent_of d (Z.to_nat ix) = Z.to_nat ((ix - 1) / d)) as Epar.
    { unfold parent_of. rewrite Z2Nat.id by lia. reflexivity. }
    assert (<[Z.to_nat ix := current]> (pairs qs) !! parent_of d (Z.to_nat ix) = Some parent)
      as Hpl.
    { rewrite Epar. rewrite list_lookup_insert_ne by lia. exact Hparent. }
    destruct (f32_lt (priority parent) (priority current)) eqn:Hlt.
    2:{ eexists. split; [reflexivity|].
        unfold Q, plug; cbn [fst snd pairs].
        split; [exact Hsd|]. split; [exact Hsl|]. split; [lia|].
        apply (hole_heap_done d _ (Z.to_nat ix)); [exact Hsh|].
        intros _ p pp Hp Hpp. rewrite Hhole' in Hp. injection Hp as <-.
        rewrite Hpl in Hpp. injection Hpp as <-.
        apply f32_not_lt_le; [| |exact Hlt].
        - eapply nan_free_lookup; eauto.
        - eapply nan_free_lookup; eauto. }
    eexists. split; [reflexivity|]. cbn [fst snd].
    split; [|lia]. unfold I, plug. cbn [fst snd pairs sizeD].
    assert (<[Z.to_nat ((ix - 1) / d) := current]> (<[Z.to_nat ix := parent]> (pairs qs))
            = <[parent_of d (Z.to_nat ix) := current]> (<[Z.to_nat ix := parent]>
                 (<[Z.to_nat ix := current]> (pairs qs)))) as ->.
    { rewrite list_insert_insert_eq, Epar. reflexivity. }
    split; [reflexivity|]. split; [rewrite !length_insert; exact Hsl|].
    split; [lia|]. split.
    - eapply nan_free_perm; [|exact Hsn].
      apply (Permutation_insert_swap _ _ _ _ _ Hhole' Hpl).
    - rewrite <- Epar. apply hole_heap_step; auto; lia. }
  destruct HQ as (Hsd & Hsl & Hsi & Hheap). cbn [fst snd] in *.
  exists (plug current (q1, index1)). unfold bubbleUpIndex.
  rewrite (index_pairs_ok (pairs q) index current) by first [lia | exact Hcur].
  cbn [obind]. rewrite Eloop. cbn [obind].
  rewrite store_pairs_ok by lia. cbn [obind].
  split; [reflexivity|]. split; [exact Hsd|].
  intros i p pp Hi Hp Hpp. unfold plug in *. cbn [fst snd pairs sizeD] in *.
  rewrite Hsd in Hpp. apply (Hheap i Hi ltac:(lia) p pp Hp Hpp).
Qed.

End HeapBubbleUp.

(** ** Heap order through push-down *)

Section HeapPushDown.

Context {T : Type} `{Countable T} `{GoZero T}.
Implicit Types (q : PriorityQueue T) (l L : list (Pair T)) (p child entry : Pair T).

(** Exchanging the entry with its highest child keeps the order around the
    position the entry moves to. *)
Lemma sift_heap_step (d : Z) (k : nat) L (cur b : nat) child entry :
  1 <= d → (k <= cur)%nat → (0 < b)%nat → parent_of d b = cur →
  L !! cur = Some entry → L !! b = Some child →
  (∀ j pj, (0 < j)%nat → parent_of d j = cur → L !! j = Some pj →
     SFleb (priority pj) (priority child) = true) →
  f32_lt (priority entry) (priority child) = true →
  sift_heap d k L cur →
  sift_heap d k (<[b := entry]> (<[cur := child]> L)) b.
Proof.
  intros Hd Hk Hb0 Hbpar Hentry Hchild Hmax Hlt [Ha Hb].
  pose proof (parent_of_lt d b Hd Hb0) as Hcb. rewrite Hbpar in Hcb.
  pose proof (lookup_lt_Some _ _ _ Hentry) as Hcl.
  pose proof (lookup_lt_Some _ _ _ Hchild) as Hbl.
  assert (∀ x, <[b := entry]> (<[cur := child]> L) !! x =
    if decide (x = b) then Some entry else if decide (x = cur) then Some child else L !! x)
    as Hlook by (intros x; apply lookup_exchange; lia).
  split.
  - intros i Hi Hki Hib p pp Hp Hpp. rewrite Hlook in Hp, Hpp.
    pose proof (parent_of_lt d i Hd Hi) as Hpi.
    destruct (decide (parent_of d i = b)) as [|_]; [contradiction|].
    destruct (decide (i = b)) as [->|Hnb].
    + injection Hp as <-. rewrite Hbpar in Hpp.
      destruct (decide (cur = cur)); [|contradiction].
      injection Hpp as <-. apply f32_lt_le. exact Hlt.
    + destruct (decide (i = cur)) as [->|Hnc].
      * injection Hp as <-.
        destruct (decide (parent_of d cur = cur)) as [|_]; [lia|].
        apply (Hb ltac:(lia) b child pp Hb0 Hbpar Hchild Hpp).
      * destruct (decide (parent_of d i = cur)) as [Ec|Nc].
        -- injection Hpp as <-. apply (Hmax i p Hi Ec Hp).
        -- apply (Ha i Hi Hki Nc p pp Hp Hpp).
  - intros Hkb c pc pg Hc Hcp Hpc Hpg. rewrite Hlook in Hpc, Hpg.
    pose proof (parent_of_lt d c Hd Hc) as Hpc'.
    destruct (decide (c = b)) as [|_]; [lia|].
    destruct (decide (c = cur)) as [|_]; [lia|].
    rewrite Hbpar in Hpg. destruct (decide (cur = b)) as [|_]; [lia|].
    destruct (decide (cur = cur)); [|contradiction]. injection Hpg as <-.
    apply (Ha c Hc ltac:(lia) ltac:(lia) pc child Hpc). rewrite Hcp. exact Hchild.
Qed.

(** When no child is above the entry, the order holds from [k] on. *)
Lemma sift_heap_done (d : Z) (k : nat) L (cur : nat) :
  sift_heap d k L cur →
  (∀ j, (0 < j)%nat → parent_of d j = cur → ordered_at d L j) →
  heap_from d k L.
Proof.
  intros [Ha _] Hc i Hi Hki.
  destruct (decide (parent_of d i = cur)) as [E|N]; auto.
Qed.

Lemma pushDownIndex_heap fuel q (k : nat) currentIndex :
  wf q → len q <= GoInt.half_range → 0 <= currentIndex < len q →
  (length (pairs q) < fuel)%nat →
  nan_free (pairs q) → (k <= Z.to_nat currentIndex)%nat →
  sift_heap (sizeD q) k (pairs q) (Z.to_nat currentIndex) →
  ∃ q', pushDownIndex fuel q currentIndex = Done q'
        ∧ sizeD q' = sizeD q
        ∧ pairs q' ≡ₚ pairs q
        ∧ heap_from (sizeD q) k (pairs q').
Proof.
  intros Hwf Hhalf Hc Hfuel Hnan Hk Hsift. pose proof Hwf as [Hd Hlen].
  set (d := sizeD q) in *.
  set (I := λ s : PriorityQueue T * Z,
    sizeD (fst s) = d
    ∧ 0 <= snd s < len q
    ∧ pairs (fst s) ≡ₚ pairs q
    ∧ (k <= Z.to_nat (snd s))%nat
    ∧ sift_heap d k (pairs (fst s)) (Z.to_nat (snd s))).
  set (Q := λ s : PriorityQueue T * Z,
    sizeD (fst s) = d
    ∧ pairs (fst s) ≡ₚ pairs q
    ∧ heap_from d k (pairs (fst s))).
  destruct (for_loop_total (pushDown_body fuel) I Q (λ s, Z.to_nat (len q - snd s)))
    with (fuel := fuel) (s := (q, currentIndex)) as ([q1 index1] & Eloop & HQ).
  - intros [qs ix] HI. pose proof HI as (Hsd & Hsi & Hsp & Hsk & Hss).
    cbn [fst snd] in Hsd, Hsi, Hsp, Hsk, Hss.
    assert (length (pairs qs) = length (pairs q)) as Hsl by (rewrite Hsp; reflexivity).
    assert (len qs = len q) as Hslen by (unfold len; lia).
    assert (wf qs) as Hwfs by (unfold wf; rewrite Hsd, Hslen; auto).
    assert (nan_free (pairs qs)) as Hsn by (eapply nan_free_perm; eauto).
    destruct (pushDown_body_shape fuel qs ix) as [Hnone Hsome];
      [exact Hwfs|lia|lia|].
    rewrite Hsd in *.
    destruct (Z_lt_le_dec (ix * d + 1) (len qs)) as [Hlt|Hge].
    2:{ rewrite Hnone by lia. eexists. split; [reflexivity|].
        unfold Q. cbn [fst snd]. split; [exact Hsd|]. split; [exact Hsp|].
        apply (sift_heap_done d k _ (Z.to_nat ix)); [exact Hss|].
        intros j Hj Hjp p pp Hp _.
        apply parent_of_child in Hjp; [|lia|lia].
        pose proof (lookup_lt_Some _ _ _ Hp). unfold len in *. lia. }
    destruct (Hsome Hlt) as (ci & child & entry & Hci & Hchild & Hentry & Hbest & Ebody).
    destruct (Hbest ltac:(lia)) as (Hup & Hmax & _).
    assert (ix < ci) as Hixci by nia.
    assert (parent_of d (Z.to_nat ci) = Z.to_nat ix) as Hcipar.
    { apply parent_of_child; [lia|lia|]. rewrite !Z2Nat.id by lia. lia. }
    assert (∀ j pj, (0 < j)%nat → parent_of d j = Z.to_nat ix →
              pairs qs !! j = Some pj →
              SFleb (priority pj) (priority child) = true) as Hmax'.
    { intros j pj Hj Hjp Hpj.
      apply parent_of_child in Hjp; [|lia|lia]. rewrite Z2Nat.id in Hjp by lia.
      apply f32_not_lt_le.
      - eapply nan_free_lookup; eauto.
      - eapply nan_free_lookup; eauto.
      - apply (Hmax (Z.of_nat j) pj); [lia|]. rewrite Nat2Z.id. exact Hpj. }
    rewrite Ebody. destruct (f32_gt (priority child) (priority entry)) eqn:Hgt.
    + eexists. split; [reflexivity|]. cbn [fst snd].
      split; [|lia]. unfold I. cbn [fst snd pairs sizeD].
      split; [reflexivity|]. split; [lia|]. split; [|split; [lia|]].
      * rewrite (Permutation_insert_swap _ _ _ _ _ Hentry Hchild). exact Hsp.
      * apply sift_heap_step; auto; lia.
    + eexists. split; [reflexivity|].
      unfold Q. cbn [fst snd]. split; [exact Hsd|]. split; [exact Hsp|].
      apply (sift_heap_done d k _ (Z.to_nat ix)); [exact Hss|].
      intros j Hj Hjp p pp Hp Hpp. rewrite Hjp, Hentry in Hpp. injection Hpp as <-.
      apply (f32_le_trans _ (priority child)); [apply (Hmax' j p Hj Hjp Hp)|].
      apply f32_not_lt_le; [| |exact Hgt].
      * eapply nan_free_lookup; eauto.
      * eapply nan_free_lookup; eauto.
  - unfold I. cbn [fst snd]. split; [reflexivity|]. split; [lia|].
    split; [reflexivity|]. split; assumption.
  - cbn [snd]. unfold len. lia.
  - destruct HQ as (Hsd & Hsp & Hheap). cbn [fst snd] in *.
    exists q1. unfold pushDownIndex. rewrite Eloop. cbn [obind]. auto.
Qed.

End HeapPushDown.

(** ** Heap order through the public operations *)

Section HeapOperations.

Context {T : Type} `{Countable T} `{GoZero T}.
Implicit Types (q : PriorityQueue T) (l : list (Pair T)) (p r : Pair T) (v : T).

Lemma max_heap_heap_from q : max_heap q ↔ heap_from (sizeD q) 0 (pairs q).
Proof.
  unfold max_heap, heap_from, ordered_at, parent_of. split.
  - intros Hq i Hi _ p pp. apply Hq. exact Hi.
  - intros Hq i p pp Hi. apply Hq; lia.
Qed.

(** On a heap the root is above every entry. *)
Lemma heap_root_above q r :
  1 <= sizeD q → max_heap q → nan_free (pairs q) →
  pairs q !! 0%nat = Some r → all_below r (pairs q).
Proof.
  intros Hd Hheap Hnan Hroot p Hp. apply list_elem_of_lookup in Hp as [i Hp].
  revert p Hp. induction (lt_wf i) as [i _ IH]. intros p Hp.
  destruct (decide (i = 0)%nat) as [->|Hi].
  - rewrite Hroot in Hp. injection Hp as <-. apply f32_le_refl.
    eapply nan_free_lookup; eauto.
  - pose proof (parent_of_lt (sizeD q) i Hd ltac:(lia)) as Hpar.
    pose proof (lookup_lt_Some _ _ _ Hp) as Hil.
    destruct (lookup_lt_is_Some_2 (pairs q) (parent_of (sizeD q) i)) as [pp Hpp]; [lia|].
    apply (f32_le_trans _ (priority pp)).
    + apply (Hheap i p pp ltac:(lia) Hp Hpp).
    + apply (IH _ Hpar pp Hpp).
Qed.

Lemma Insert_unfold fuel q v prio :
  len q < GoInt.max_int →
  Insert fuel q v prio =
    bubbleUpIndex fuel (mkPQ (pairs q ++ [mkPair prio v]) (sizeD q)
                             (<[v := len q]> (indexMap q))) (len q).
Proof.
  intros Hroom. unfold Insert, bubbleUp. cbv zeta.
  unfold map_store, set_indexMap, set_pairs, len in *. cbn [pairs sizeD indexMap].
  rewrite length_app. cbn [length].
  assert ((Z.of_nat (length (pairs q) + 1) - 1)%int = Z.of_nat (length (pairs q))) as ->
    by (int_simpl; lia).
  reflexivity.
Qed.

(** Appending an entry to a heap leaves a hole at the new last position. *)
Lemma append_hole_heap (d : Z) l p :
  1 <= d → heap_from d 0 l → hole_heap d (l ++ [p]) (length l).
Proof.
  intros Hd Hheap. split.
  - intros i Hi Hne x xp Hx Hxp.
    pose proof (parent_of_lt d i Hd Hi) as Hpar.
    pose proof (lookup_lt_Some _ _ _ Hx) as Hil. rewrite length_app in Hil. cbn in Hil.
    rewrite lookup_app_l in Hx, Hxp by lia.
    apply (Hheap i Hi ltac:(lia) x xp Hx Hxp).
  - intros Hh c pc pg Hc Hcp Hpc _.
    pose proof (parent_of_lt d c Hd Hc) as Hpar.
    pose proof (lookup_lt_Some _ _ _ Hpc) as Hcl. rewrite length_app in Hcl. cbn in Hcl.
    lia.
Qed.

Lemma Insert_heap fuel q v prio :
  wf q → len q < GoInt.max_int → (length (pairs q) + 1 < fuel)%nat →
  nan_free (pairs q) → is_nan prio = false → max_heap q →
  ∃ q', Insert fuel q v prio = Done q'
        ∧ sizeD q' = sizeD q
        ∧ pairs q' ≡ₚ pairs q ++ [mkPair prio v]
        ∧ nan_free (pairs q')
        ∧ max_heap q'.
Proof.
  intros Hwf Hroom Hfuel Hnan Hprio Hheap. pose proof Hwf as [Hd Hlen].
  destruct (Insert_spec fuel q v prio Hwf Hroom Hfuel)
    as (q' & k & E & Hsd & Hperm & _).
  exists q'. split; [exact E|]. split; [exact Hsd|]. split; [exact Hperm|].
  assert (nan_free (pairs q ++ [mkPair prio v])) as Hnan1.
  { intros p Hp. apply elem_of_app in Hp as [Hp|Hp]; [apply Hnan; exact Hp|].
    apply list_elem_of_singleton in Hp as ->. exact Hprio. }
  split; [eapply nan_free_perm; eauto|].
  rewrite Insert_unfold in E by exact Hroom.
  set (q1 := mkPQ (pairs q ++ [mkPair prio v]) (sizeD q) (<[v := len q]> (indexMap q))) in *.
  destruct (bubbleUpIndex_heap fuel q1 (len q) (mkPair prio v))
    as (q2 & E2 & _ & Hheap2).
  - cbn [q1 sizeD]. lia.
  - unfold len. cbn [q1 pairs]. rewrite length_app. cbn [length]. unfold len in *. lia.
  - apply len_nonneg.
  - cbn [q1 pairs]. unfold len. rewrite Nat2Z.id. apply list_lookup_middle. reflexivity.
  - unfold len. lia.
  - exact Hnan1.
  - cbn [q1 pairs sizeD]. unfold len. rewrite Nat2Z.id.
    apply append_hole_heap; [lia|]. apply max_heap_heap_from. exact Hheap.
  - rewrite E in E2. injection E2 as <-. exact Hheap2.
Qed.

Lemma take_last_app l p :
  l !! (length l - 1)%nat = Some p → l = take (length l - 1) l ++ [p].
Proof.
  intros Hp. pose proof (lookup_lt_Some _ _ _ Hp) as Hl.
  rewrite <- (take_drop_middle l (length l - 1) p Hp) at 1.
  replace (S (length l - 1)) with (length l) by lia.
  rewrite drop_all. reflexivity.
Qed.

Lemma Top_storage fuel q :
  wf q → pairs q ≠ [] → (length (pairs q) < fuel)%nat →
  ∃ q' r,
    Top fuel q = Done (q', (r, None))
    ∧ pairs q !! 0%nat = Some r
    ∧ sizeD q' = sizeD q
    ∧ r :: pairs q' ≡ₚ pairs q
    ∧ (len q <= GoInt.half_range → nan_free (pairs q) → max_heap q → max_heap q').
Proof.
  intros Hwf Hne Hfuel. pose proof Hwf as [Hd Hlen]. unfold Top.
  rewrite (proj2 (isEmpty_false q) Hne).
  assert (0 < length (pairs q))%nat as Hpos.
  { destruct (pairs q); [contradiction|cbn; lia]. }
  unfold removeLast.
  assert ((len q - 1)%int = len q - 1) as -> by (unfold len in *; int_simpl; reflexivity).
  assert (Z.to_nat (len q - 1) = (length (pairs q) - 1)%nat) as Elast by (unfold len; lia).
  destruct (lookup_lt_is_Some_2 (pairs q) (length (pairs q) - 1)) as [last Hlast]; [lia|].
  rewrite (index_pairs_ok (pairs q) (len q - 1) last)
    by first [unfold len in *; lia | rewrite Elast; exact Hlast].
  cbn [obind].
  assert (len (map_delete q (value last)) = len q) as -> by reflexivity.
  assert ((len q - 1)%int = len q - 1) as -> by (unfold len in *; int_simpl; reflexivity).
  unfold_setters.
  rewrite slice_to_ok by (unfold len in *; lia). cbn [obind]. rewrite Elast.
  pose proof (take_last_app _ _ Hlast) as Esplit.
  set (l1 := take (length (pairs q) - 1) (pairs q)) in *.
  set (m1 := delete (value last) (indexMap q)).
  assert (length l1 = (length (pairs q) - 1)%nat) as Hl1.
  { unfold l1. rewrite length_take. lia. }
  assert (heap_from (sizeD q) 0 (pairs q) → heap_from (sizeD q) 0 l1) as Hheap1.
  { intros Hq i Hi Hk p pp Hp Hpp. unfold l1 in Hp, Hpp.
    apply lookup_take_Some in Hp as [Hp _]. apply lookup_take_Some in Hpp as [Hpp _].
    apply (Hq i Hi Hk p pp Hp Hpp). }
  destruct (isEmpty (mkPQ l1 (sizeD q) m1)) eqn:Eempty.
  - apply isEmpty_true in Eempty. cbn [pairs] in Eempty.
    exists (mkPQ l1 (sizeD q) m1), last. split; [reflexivity|].
    rewrite Eempty in Hl1. cbn [length] in Hl1.
    replace (length (pairs q) - 1)%nat with 0%nat in Hlast by lia.
    split; [exact Hlast|]. cbn [pairs sizeD indexMap].
    split; [reflexivity|]. split; [rewrite Esplit, Eempty; reflexivity|].
    intros _ _ _ i p pp Hi Hp. rewrite Eempty in Hp. discriminate.
  - apply isEmpty_false in Eempty. cbn [pairs] in Eempty.
    destruct l1 as [|element t] eqn:El1; [contradiction|].
    assert (pairs q !! 0%nat = Some element) as Hroot.
    { rewrite Esplit. reflexivity. }
    cbn [pairs].
    rewrite (index_pairs_ok (element :: t) 0 element) by first [lia | reflexivity].
    cbn [obind]. rewrite store_pairs_ok by (cbn [length]; lia). cbn [obind].
    unfold_setters. change (Z.to_nat 0) with 0%nat. cbn [insert list_insert].
    set (q2 := mkPQ (last :: t) (sizeD q) (<[value last := 0]> m1)).
    assert (length (pairs q2) = length (element :: t)) as Hl2 by reflexivity.
    assert (wf q2) as Hwf2.
    { unfold wf, len. rewrite Hl2, Hl1. cbn [q2 sizeD]. unfold len in *.
      split; [exact Hd|lia]. }
    unfold pushDown.
    destruct (pushDownIndex_spec fuel q2 0)
      as (q3 & Epd & Hsd & Hperm & _);
      [exact Hwf2|unfold len; rewrite Hl2; cbn [length]; lia|rewrite Hl2, Hl1; lia|].
    rewrite Epd. cbn [obind].
    exists (map_delete q3 (value element)), element. split; [reflexivity|].
    split; [exact Hroot|]. unfold_setters.
    split; [exact Hsd|]. split.
    + rewrite Hperm, Esplit. cbn [q2 pairs app]. apply Permutation_skip.
      apply Permutation_cons_append.
    + intros Hhalf Hnan Hheap.
      assert (nan_free (pairs q2)) as Hnan2.
      { intros p Hp. apply Hnan. rewrite Esplit. cbn [q2 pairs] in Hp.
        apply elem_of_cons in Hp as [->|Hp].
        - apply elem_of_app. right. apply list_elem_of_here.
        - apply elem_of_app. left. apply list_elem_of_further. exact Hp. }
      assert (sift_heap (sizeD q2) 0 (pairs q2) 0) as Hsift.
      { split; [|lia]. intros i Hi _ Hpi p pp Hp Hpp. cbn [q2 pairs sizeD] in *.
        destruct i as [|i]; [lia|].
        destruct (parent_of (sizeD q) (S i)) as [|j] eqn:Ej; [contradiction|].
        apply max_heap_heap_from, Hheap1 in Hheap.
        apply (Hheap (S i) ltac:(lia) ltac:(lia) p pp); [exact Hp|].
        rewrite Ej. exact Hpp. }
      destruct (pushDownIndex_heap fuel q2 0 0)
        as (q3' & Epd' & _ & _ & Hheap3);
        [exact Hwf2|unfold len in *; rewrite Hl2, Hl1; lia
        |unfold len; rewrite Hl2; cbn [length]; lia
        |rewrite Hl2, Hl1; lia|exact Hnan2|lia|exact Hsift|].
      rewrite Epd in Epd'. injection Epd' as <-.
      apply max_heap_heap_from. cbn [pairs sizeD]. rewrite Hsd. exact Hheap3.
Qed.

End HeapOperations.

(** ** The queue as a max-heap: Insert, Peek, Top *)

Section HeapContract.

Context {T : Type} `{Countable T} `{GoZero T}.
Implicit Types (q : PriorityQueue T) (l : list (Pair T)) (p r : Pair T) (v : T).

(** X1. [Insert] of a priority that is not NaN into a max-heap without NaN
    priorities returns a max-heap holding the old entries and the new one. *)
Theorem Insert_keeps_heap_order (fuel : nat) (q : PriorityQueue T) (v : T) (prio : float32) :
  wf q → len q < GoInt.max_int → (length (pairs q) + 1 < fuel)%nat →
  no_nan (pairs q) = true → is_nan prio = false → max_heap q →
  ∃ q', Insert fuel q v prio = Done q'
        ∧ pairs q' ≡ₚ pairs q ++ [mkPair prio v]
        ∧ no_nan (pairs q') = true
        ∧ max_heap q'.
Proof.
  intros Hwf Hroom Hfuel Hnan Hprio Hheap. apply no_nan_nan_free in Hnan.
  destruct (Insert_heap fuel q v prio Hwf Hroom Hfuel Hnan Hprio Hheap)
    as (q' & E & _ & Hperm & Hnan' & Hheap').
  exists q'. split; [exact E|]. split; [exact Hperm|].
  split; [apply no_nan_nan_free; exact Hnan'|exact Hheap'].
Qed.

(** X2. [Peek] on a non-empty max-heap without NaN priorities returns the
    queue unchanged together with the root entry, and no stored entry has a
    higher priority than the one returned. *)
Theorem Peek_reads_the_maximum (q : PriorityQueue T) :
  1 <= sizeD q → pairs q ≠ [] → no_nan (pairs q) = true → max_heap q →
  ∃ r, Peek q = Done (q, (r, None))
       ∧ pairs q !! 0%nat = Some r
       ∧ all_below r (pairs q).
Proof.
  intros Hd Hne Hnan Hheap. apply no_nan_nan_free in Hnan.
  unfold Peek. rewrite (proj2 (isEmpty_false q) Hne).
  destruct (lookup_lt_is_Some_2 (pairs q) 0) as [r Hr].
  { destruct (pairs q); [contradiction|cbn; lia]. }
  exists r. rewrite (index_pairs_ok (pairs q) 0 r) by first [lia | exact Hr].
  cbn [obind]. split; [reflexivity|]. split; [exact Hr|].
  apply heap_root_above; auto.
Qed.

(** X3. [Top] on a non-empty max-heap without NaN priorities returns an
    entry of maximal priority, removes exactly that entry from storage, and
    leaves a max-heap. *)
Theorem Top_extracts_the_maximum (fuel : nat) (q : PriorityQueue T) :
  wf q → len q <= GoInt.half_range → pairs q ≠ [] →
  (length (pairs q) < fuel)%nat →
  no_nan (pairs q) = true → max_heap q →
  ∃ q' r,
    Top fuel q = Done (q', (r, None))
    ∧ all_below r (pairs q)
    ∧ r :: pairs q' ≡ₚ pairs q
    ∧ no_nan (pairs q') = true
    ∧ max_heap q'.
Proof.
  intros Hwf Hhalf Hne Hfuel Hnan Hheap. apply no_nan_nan_free in Hnan.
  destruct (Top_storage fuel q Hwf Hne Hfuel) as (q' & r & E & Hroot & _ & Hperm & Hheap').
  exists q', r. split; [exact E|].
  split; [apply heap_root_above; auto; destruct Hwf; lia|].
  split; [exact Hperm|]. split; [|auto].
  apply no_nan_nan_free. intros p Hp. apply Hnan. rewrite <- Hperm.
  apply list_elem_of_further. exact Hp.
Qed.

Lemma drain_heap fuel (n : nat) : ∀ q,
  wf q → len q <= GoInt.half_range →
  (length (pairs q) < fuel)%nat → (length (pairs q) <= n)%nat →
  nan_free (pairs q) → max_heap q →
  ∃ out, drain fuel n q = Done out ∧ out ≡ₚ pairs q ∧ non_increasing out.
Proof.
  induction n as [|n IH]; intros q Hwf Hhalf Hfuel Hn Hnan Hheap.
  - destruct (pairs q) as [|p l] eqn:El; [|cbn in Hn; lia].
    exists []. cbn [drain]. rewrite (proj2 (isEmpty_true q) El).
    split; [reflexivity|]. split; [reflexivity|]. intros i p p' Hp. discriminate.
  - cbn [drain]. destruct (isEmpty q) eqn:Eempty.
    + apply isEmpty_true in Eempty. exists []. rewrite Eempty.
      split; [reflexivity|]. split; [reflexivity|]. intros i p p' Hp. discriminate.
    + apply isEmpty_false in Eempty.
      destruct (Top_storage fuel q Hwf Eempty Hfuel)
        as (q' & r & E & Hroot & Hsd & Hperm & Hheap').
      assert (S (length (pairs q')) = length (pairs q)) as Hl by (rewrite <- Hperm; reflexivity).
      assert (wf q') as Hwf'.
      { destruct Hwf as [Hd Hlen]. unfold wf, len in *. rewrite Hsd. split; [exact Hd|lia]. }
      assert (nan_free (pairs q')) as Hnan'.
      { intros p Hp. apply Hnan. rewrite <- Hperm. apply list_elem_of_further. exact Hp. }
      destruct (IH q' Hwf') as (rest & Erest & Hprest & Hord);
        [unfold len in *; lia|lia|lia|exact Hnan'|auto|].
      rewrite E. cbn [obind]. rewrite Erest. cbn [obind fst].
      exists (r :: rest). split; [reflexivity|].
      split; [rewrite Hprest; exact Hperm|].
      intros i p p' Hp Hp'. destruct i as [|i].
      * cbn in Hp. injection Hp as <-. cbn in Hp'.
        assert (p' ∈ pairs q) as Hin.
        { rewrite <- Hperm. apply list_elem_of_further. rewrite <- Hprest.
          eapply list_elem_of_lookup_2; eauto. }
        destruct Hwf as [Hd _].
        apply (heap_root_above q r ltac:(lia) Hheap Hnan Hroot p' Hin).
      * apply (Hord i p p' Hp Hp').
Qed.

(** X4. Emptying a max-heap without NaN priorities by repeated [Top] hands
    out every stored entry, once each, in non-increasing priority order. *)
Theorem drain_is_sorted (fuel n : nat) (q : PriorityQueue T) :
  wf q → len q <= GoInt.half_range →
  (length (pairs q) < fuel)%nat → (length (pairs q) <= n)%nat →
  no_nan (pairs q) = true → max_heap q →
  ∃ out, drain fuel n q = Done out ∧ out ≡ₚ pairs q ∧ non_increasing out.
Proof.
  intros Hwf Hhalf Hfuel Hn Hnan Hheap. apply no_nan_nan_free in Hnan.
  apply drain_heap; assumption.
Qed.

Lemma run_heap fuel ops : ∀ q,
  wf q → len q + Z.of_nat (length ops) <= GoInt.half_range →
  (length (pairs q) + length ops < fuel)%nat →
  nan_free (pairs q) → max_heap q → Forall insert_or_top ops →
  ∀ k, ∃ q', run fuel q (take k ops) = Done q' ∧ wf q' ∧ nan_free (pairs q') ∧ max_heap q'.
Proof.
  induction ops as [|o ops IH]; intros q Hwf Hroom Hfuel Hnan Hheap Hops k.
  - rewrite take_nil. exists q. cbn [run]. auto.
  - destruct k as [|k]; [exists q; cbn [take run]; auto|].
    cbn [take run]. cbn [length] in Hroom, Hfuel.
    apply Forall_cons in Hops as [Ho Hops].
    pose proof Hwf as [Hd Hlen].
    assert (∃ q1, exec fuel q o = Done q1 ∧ wf q1 ∧ nan_free (pairs q1) ∧ max_heap q1
                  ∧ (length (pairs q1) <= length (pairs q) + 1)%nat)
      as (q1 & E & Hwf1 & Hnan1 & Hheap1 & Hl1).
    { destruct o as [v p|v|v p|]; cbn [insert_or_top] in Ho; try contradiction; cbn [exec].
      - destruct (Insert_heap fuel q v p Hwf) as (q1 & E & Hsd & Hperm & Hnan1 & Hheap1);
          [unfold len, GoInt.half_range, GoInt.max_int in *; lia|lia|exact Hnan|exact Ho|exact Hheap|].
        assert (length (pairs q1) = length (pairs q) + 1)%nat as Hl
          by (rewrite Hperm, length_app; reflexivity).
        exists q1. split; [exact E|]. split; [|split; [exact Hnan1|split; [exact Hheap1|lia]]].
        unfold wf, len in *. rewrite Hsd. split; [exact Hd|].
        unfold GoInt.half_range, GoInt.max_int in *. lia.
      - destruct (decide (pairs q = [])) as [Hnil|Hne].
        + unfold Top. rewrite (proj2 (isEmpty_true q) Hnil). cbn [obind].
          exists q. split; [reflexivity|]. split; [exact Hwf|].
          split; [exact Hnan|]. split; [exact Hheap|lia].
        + destruct (Top_storage fuel q Hwf Hne ltac:(lia))
            as (q1 & r & E & _ & Hsd & Hperm & Hheap1).
          assert (S (length (pairs q1)) = length (pairs q)) as Hl
            by (rewrite <- Hperm; reflexivity).
          rewrite E. cbn [obind]. exists q1. split; [reflexivity|].
          split; [unfold wf, len in *; rewrite Hsd; split; [exact Hd|lia]|].
          split; [|split; [|lia]].
          * intros p Hp. apply Hnan. rewrite <- Hperm. apply list_elem_of_further. exact Hp.
          * apply Hheap1; auto. unfold len in *. lia. }
    rewrite E. cbn [obind]. apply IH; auto; unfold len in *; lia.
Qed.

(** X5. Along every sequence of [Insert] calls with priorities that are
    not NaN and of [Top] calls, started from a max-heap without NaN (a new
    queue is one), every call returns and the queue after each of them is a
    max-heap. *)
Theorem heap_order_along_inserts_and_tops (fuel : nat) (q : PriorityQueue T)
    (ops : list (op T)) :
  wf q → len q + Z.of_nat (length ops) <= GoInt.half_range →
  (length (pairs q) + length ops < fuel)%nat →
  no_nan (pairs q) = true → max_heap q → Forall insert_or_top ops →
  ∀ k, ∃ q', run fuel q (take k ops) = Done q' ∧ max_heap q'.
Proof.
  intros Hwf Hroom Hfuel Hnan Hheap Hops k. apply no_nan_nan_free in Hnan.
  destruct (run_heap fuel ops q Hwf Hroom Hfuel Hnan Hheap Hops k) as (q' & E & _ & _ & Hq').
  eauto.
Qed.

End HeapContract.

(** ** heapify *)

Section Heapify.

Context {T : Type} `{Countable T} `{GoZero T}.
Implicit Types (q : PriorityQueue T) (l : list (Pair T)) (m : gmap T Z) (p : Pair T).

(** The range loop records every position, and nothing else changes. *)
Lemma range_index_spec l : ∀ (i : Z) m,
  0 <= i → i + Z.of_nat (length l) <= GoInt.max_int →
  NoDup (value <$> l) →
  (∀ (j : nat) p, l !! j = Some p → range_index i l m !! value p = Some (i + Z.of_nat j))
  ∧ (∀ v, v ∉ value <$> l → range_index i l m !! v = m !! v).
Proof.
  induction l as [|x l IH]; intros i m Hi Hfit Hnd.
  - split; [intros j p Hp; discriminate|reflexivity].
  - cbn [range_index]. cbn [length] in Hfit. rewrite fmap_cons in Hnd.
    apply NoDup_cons in Hnd as [Hx Hnd].
    assert ((i + 1)%int = i + 1) as -> by (int_simpl; reflexivity).
    destruct (IH (i + 1) (<[value x := i]> m) ltac:(lia) ltac:(lia) Hnd) as [IH1 IH2].
    split.
    + intros [|j] p Hp.
      * injection Hp as <-. rewrite IH2 by exact Hx. rewrite lookup_insert_eq.
        f_equal. lia.
      * rewrite (IH1 j p Hp). f_equal. lia.
    + intros v Hv. rewrite fmap_cons in Hv. apply not_elem_of_cons in Hv as [Hvx Hv].
      rewrite IH2 by exact Hv. apply lookup_insert_ne. congruence.
Qed.

(** Whatever the values, the range loop only writes stored values. *)
Lemma range_index_covered l : ∀ (i : Z) m v z,
  range_index i l m !! v = Some z → m !! v = Some z ∨ v ∈ value <$> l.
Proof.
  induction l as [|x l IH]; intros i m v z Hv; [left; exact Hv|].
  cbn [range_index] in Hv. rewrite fmap_cons.
  apply IH in Hv as [Hv|Hv].
  - rewrite lookup_insert in Hv. case_decide as E.
    + right. subst v. apply list_elem_of_here.
    + left. exact Hv.
  - right. apply list_elem_of_further. exact Hv.
Qed.

(** Push-down from the root of an empty queue does nothing. *)
Lemma pushDownIndex_empty fuel q :
  wf q → pairs q = [] → (0 < fuel)%nat → pushDownIndex fuel q 0 = Done q.
Proof.
  intros Hwf Hnil Hfuel. pose proof Hwf as [Hd Hlen].
  destruct fuel as [|fuel']; [lia|].
  assert (len q = 0) as Hl0 by (unfold len; rewrite Hnil; reflexivity).
  unfold pushDownIndex. cbn [for_loop]. unfold pushDown_body.
  rewrite firstLeafIndex_spec by exact Hwf. cbn [obind].
  destruct (0 <? Z.quot (len q - 2) (sizeD q) + 1); [|reflexivity].
  rewrite highestPriorityChild_none by (auto; int_range). reflexivity.
Qed.

(** Beyond the parent of the last position no position is occupied. *)
Lemma heap_from_last (d : Z) l :
  1 <= d → (0 < length l)%nat →
  heap_from d (Z.to_nat ((Z.of_nat (length l) - 1) / d + 1)) l.
Proof.
  intros Hd Hl i Hi Hk p pp Hp _. exfalso.
  pose proof (lookup_lt_Some _ _ _ Hp) as Hil.
  unfold parent_of in Hk.
  assert (0 <= (Z.of_nat (length l) - 1) / d) by (apply Z.div_pos; lia).
  assert ((Z.of_nat i - 1) / d <= (Z.of_nat (length l) - 1) / d)
    by (apply Z.div_le_mono; lia).
  assert (0 <= (Z.of_nat i - 1) / d) by (apply Z.div_pos; lia).
  lia.
Qed.

Lemma heapify_spec fuel q :
  wf q → (length (pairs q) + 1 < fuel)%nat →
  ∃ q',
    heapify fuel q = Done q'
    ∧ sizeD q' = sizeD q
    ∧ pairs q' ≡ₚ pairs q
    ∧ (NoDup (stored q) → index_consistent q')
    ∧ (len q <= GoInt.half_range → nan_free (pairs q) → max_heap q').
Proof.
  intros Hwf Hfuel. pose proof Hwf as [Hd Hlen]. unfold heapify.
  set (m1 := range_index 0 (pairs q) ∅).
  set (q1 := set_indexMap q m1).
  assert (NoDup (stored q) → indexed (pairs q1) (indexMap q1)
                             ∧ covered no_stale (pairs q1) (indexMap q1)) as Hinv1.
  { intros Hnd. split.
    - intros i p Hp. unfold q1, set_indexMap, m1 in *. cbn [pairs indexMap] in *.
      destruct (range_index_spec (pairs q) 0 ∅ ltac:(lia) ltac:(unfold len in *; lia) Hnd)
        as [H1 _].
      rewrite (H1 i p Hp). f_equal.
    - intros v z Hv. right. unfold q1, set_indexMap, m1 in *. cbn [pairs indexMap] in *.
      apply range_index_covered in Hv as [Hv|Hv]; [|exact Hv].
      rewrite lookup_empty in Hv. discriminate. }
  assert (wf q1) as Hwf1 by exact Hwf.
  assert (len q1 = len q) as Hl1 by reflexivity.
  change (sizeD q1) with (sizeD q). rewrite Hl1.
  destruct (decide (pairs q = [])) as [Hnil|Hne].
  - (* empty storage: one round from position 0, which does nothing *)
    assert (len q = 0) as Hl0 by (unfold len; rewrite Hnil; reflexivity).
    rewrite Hl0. assert ((0 - 1)%int = -1) as -> by (int_simpl; reflexivity).
    unfold int_quot. destruct (Z.eqb_spec (sizeD q) 0); [lia|].
    assert (Z.quot (-1) (sizeD q) = 0) as ->.
    { change (-1) with (- (1)). rewrite Z.quot_opp_l by lia.
      rewrite Z.quot_small by lia. reflexivity. }
    rewrite wrap_id by int_range. cbn [obind].
    destruct fuel as [|[|fuel']]; [lia|lia|].
    cbn [for_loop heapify_body]. change (0 >=? 0) with true. cbv iota.
    rewrite pushDownIndex_empty by (auto; lia). cbn [obind].
    assert ((0 - 1)%int = -1) as -> by (int_simpl; reflexivity).
    change (-1 >=? 0) with false. cbv iota. cbn [obind].
    exists q1. split; [reflexivity|]. split; [reflexivity|]. split; [reflexivity|].
    split.
    + intros Hnd. apply index_consistent_alt. apply Hinv1. exact Hnd.
    + intros _ _ i p pp Hi Hp. cbn [q1 set_indexMap pairs] in Hp.
      rewrite Hnil in Hp. discriminate.
  - assert (0 < length (pairs q))%nat as Hpos.
    { destruct (pairs q); [contradiction|cbn; lia]. }
    assert ((len q - 1)%int = len q - 1) as -> by (unfold len in *; int_simpl; reflexivity).
    rewrite int_quot_pos by (unfold len in *; lia). cbn [obind].
    set (d := sizeD q) in *.
    set (start := (len q - 1) / d).
    assert (0 <= start <= len q - 1) as Hstart.
    { unfold start. split; [apply Z.div_pos; unfold len; lia|].
      apply Z.div_le_upper_bound; [lia|]. unfold len. nia. }
    set (I := λ s : PriorityQueue T * Z,
      sizeD (fst s) = d
      ∧ -1 <= snd s <= start
      ∧ pairs (fst s) ≡ₚ pairs q
      ∧ (NoDup (stored q) → indexed (pairs (fst s)) (indexMap (fst s))
                            ∧ covered no_stale (pairs (fst s)) (indexMap (fst s)))
      ∧ (len q <= GoInt.half_range → nan_free (pairs q) →
           heap_from d (Z.to_nat (snd s + 1)) (pairs (fst s)))).
    set (Q := λ s : PriorityQueue T * Z,
      sizeD (fst s) = d
      ∧ pairs (fst s) ≡ₚ pairs q
      ∧ (NoDup (stored q) → indexed (pairs (fst s)) (indexMap (fst s))
                            ∧ covered no_stale (pairs (fst s)) (indexMap (fst s)))
      ∧ (len q <= GoInt.half_range → nan_free (pairs q) →
           heap_from d 0 (pairs (fst s)))).
    destruct (for_loop_total (heapify_body fuel) I Q (λ s, Z.to_nat (snd s + 1)))
      with (fuel := fuel) (s := (q1, start)) as ([q2 index2] & Eloop & HQ).
    + intros [qs ix] HI. pose proof HI as (Hsd & Hsi & Hsp & Hsinv & Hsheap).
      cbn [fst snd] in Hsd, Hsi, Hsp, Hsinv, Hsheap.
      unfold heapify_body.
      destruct (Z.geb_spec ix 0) as [Hge|Hlt].
      2:{ eexists. split; [reflexivity|]. unfold Q. cbn [fst snd].
          split; [exact Hsd|]. split; [exact Hsp|]. split; [exact Hsinv|].
          intros Hhalf Hnan. replace 0%nat with (Z.to_nat (ix + 1)) by lia. auto. }
      assert (length (pairs qs) = length (pairs q)) as Hsl by (rewrite Hsp; reflexivity).
      assert (len qs = len q) as Hslen by (unfold len; lia).
      assert (wf qs) as Hwfs by (unfold wf; rewrite Hsd, Hslen; auto).
      destruct (pushDownIndex_spec fuel qs ix)
        as (q' & Epd & Hsd' & Hperm' & Hix' & Hcov'); [exact Hwfs|lia|lia|].
      rewrite Epd. cbn [obind].
      assert ((ix - 1)%int = ix - 1) as -> by (unfold len in *; int_simpl; reflexivity).
      eexists. split; [reflexivity|]. cbn [fst snd].
      split; [|lia]. unfold I. cbn [fst snd].
      split; [rewrite Hsd'; exact Hsd|]. split; [lia|].
      split; [rewrite Hperm'; exact Hsp|]. split.
      * intros Hnd. destruct (Hsinv Hnd) as [Hi1 Hc1]. split; auto.
      * intros Hhalf Hnan.
        destruct (pushDownIndex_heap fuel qs (Z.to_nat ix) ix)
          as (q'' & Epd'' & _ & _ & Hheap'').
        -- exact Hwfs.
        -- lia.
        -- lia.
        -- lia.
        -- eapply nan_free_perm; eauto.
        -- lia.
        -- rewrite Hsd. split; [|lia]. intros i Hi Hk Hne'.
           apply (Hsheap Hhalf Hnan i Hi). lia.
        -- rewrite Epd in Epd''. injection Epd'' as <-.
           rewrite Hsd in Hheap''. replace (Z.to_nat (ix - 1 + 1)) with (Z.to_nat ix) by lia.
           exact Hheap''.
    + unfold I. cbn [fst snd]. split; [reflexivity|]. split; [lia|].
      split; [reflexivity|]. split; [exact Hinv1|].
      intros _ _. cbn [q1 set_indexMap pairs]. unfold start, len.
      apply heap_from_last; [lia|exact Hpos].
    + cbn [snd]. unfold len in *. lia.
    + destruct HQ as (Hsd & Hsp & Hsinv & Hsheap). cbn [fst snd] in *.
      rewrite Eloop. cbn [obind]. exists q2.
      split; [reflexivity|]. split; [exact Hsd|]. split; [exact Hsp|]. split.
      * intros Hnd. apply index_consistent_alt. apply Hsinv. exact Hnd.
      * intros Hhalf Hnan. apply max_heap_heap_from. rewrite Hsd. auto.
Qed.

(** X6. [heapify] on any storage, whatever the index held before: it
    returns, keeps the stored entries, makes the index consistent with
    storage when the stored values are distinct, and establishes the
    max-heap order when no priority is a NaN. *)
Theorem heapify_builds_the_heap (fuel : nat) (q : PriorityQueue T) :
  wf q → (length (pairs q) + 1 < fuel)%nat →
  ∃ q',
    heapify fuel q = Done q'
    ∧ sizeD q' = sizeD q
    ∧ pairs q' ≡ₚ pairs q
    ∧ (NoDup (stored q) → index_consistent q')
    ∧ (len q <= GoInt.half_range → no_nan (pairs q) = true → max_heap q').
Proof.
  intros Hwf Hfuel.
  destruct (heapify_spec fuel q Hwf Hfuel) as (q' & E & Hsd & Hperm & Hinv & Hheap).
  exists q'. split; [exact E|]. split; [exact Hsd|]. split; [exact Hperm|].
  split; [exact Hinv|]. intros Hhalf Hnan. apply Hheap; [exact Hhalf|].
  apply no_nan_nan_free. exact Hnan.
Qed.

End Heapify.

(** ** What Remove, Update and Insert do to storage and index *)

Section Effects.

Context {T : Type} `{Countable T} `{GoZero T}.
Implicit Types (q : PriorityQueue T) (l : list (Pair T)) (m : gmap T Z) (p : Pair T) (v : T).

(** Writing the last entry over position [i] and dropping the last
    position takes out exactly the entry that was at [i]. *)
Lemma relocate_last_perm l (i : nat) (target last : Pair T) :
  l !! i = Some target → l !! (length l - 1)%nat = Some last → (i < length l - 1)%nat →
  target :: take (length l - 1) (<[i := last]> l) ≡ₚ l.
Proof.
  intros Ht Hl Hi.
  rewrite take_insert_lt by exact Hi.
  pose proof (take_last_app l last Hl) as Esplit.
  remember (take (length l - 1) l) as l0 eqn:El0.
  assert (l0 !! i = Some target) as Ht0.
  { subst l0. rewrite lookup_take_lt by exact Hi. exact Ht. }
  pose proof (lookup_lt_Some _ _ _ Ht0) as Hi0.
  assert (delete i (<[i := last]> l0) = delete i l0) as Ed.
  { rewrite !delete_take_drop. rewrite take_insert_ge by lia.
    rewrite drop_insert_lt by lia. reflexivity. }
  assert (<[i := last]> l0 ≡ₚ last :: delete i l0) as P1.
  { rewrite <- Ed. apply delete_Permutation. apply list_lookup_insert_eq. exact Hi0. }
  pose proof (delete_Permutation l0 i target Ht0) as P2.
  rewrite Esplit. rewrite P1. rewrite <- Permutation_cons_append.
  rewrite Permutation_swap. apply Permutation_skip. symmetry. exact P2.
Qed.

(** An index that records every position forces distinct stored values. *)
Lemma indexed_NoDup l m : indexed l m → NoDup (value <$> l).
Proof.
  intros Hix. apply NoDup_alt. intros i j x Hi Hj.
  rewrite list_lookup_fmap in Hi, Hj.
  destruct (l !! i) as [pi|] eqn:Ei; [|discriminate].
  destruct (l !! j) as [pj|] eqn:Ej; [|discriminate].
  cbn in Hi, Hj. injection Hi as Hi. injection Hj as Hj.
  apply (indexed_inj l m _ _ _ _ Hix Ei Ej). congruence.
Qed.

(** The two paths of [Remove] for a value the index knows. *)
Lemma Remove_last_eval fuel q v :
  wf q → pairs q ≠ [] → indexMap q !! v = Some (len q - 1) →
  Remove fuel q v =
    Done (mkPQ (take (length (pairs q) - 1) (pairs q)) (sizeD q) (delete v (indexMap q)),
          None).
Proof.
  intros [Hd Hlen] Hne Hv.
  assert (0 < length (pairs q))%nat as Hpos.
  { destruct (pairs q); [contradiction|cbn; lia]. }
  assert ((len q - 1)%int = len q - 1) as Ewrap by (unfold len in *; int_simpl; reflexivity).
  assert (Z.to_nat (len q - 1) = (length (pairs q) - 1)%nat) as Elast by (unfold len; lia).
  unfold Remove. rewrite Hv, Ewrap, Z.eqb_refl.
  rewrite slice_to_ok by (unfold len in *; lia). cbn [obind].
  rewrite Elast. reflexivity.
Qed.

Lemma Remove_inner_eval fuel q v index target last :
  wf q → indexMap q !! v = Some index → 0 <= index → index ≠ len q - 1 →
  pairs q !! Z.to_nat index = Some target → value target = v →
  pairs q !! (length (pairs q) - 1)%nat = Some last →
  Remove fuel q v =
    if f32_lt (priority last) (priority target)
    then (do q' <- bubbleUpIndex fuel
                    (mkPQ (take (length (pairs q) - 1) (<[Z.to_nat index := last]> (pairs q)))
                          (sizeD q) (delete v (<[value last := index]> (indexMap q)))) index;
          Done (q', None))
    else if f32_gt (priority last) (priority target)
         then (do q' <- pushDownIndex fuel
                    (mkPQ (take (length (pairs q) - 1) (<[Z.to_nat index := last]> (pairs q)))
                          (sizeD q) (delete v (<[value last := index]> (indexMap q)))) index;
               Done (q', None))
         else Done (mkPQ (take (length (pairs q) - 1) (<[Z.to_nat index := last]> (pairs q)))
                         (sizeD q) (delete v (<[value last := index]> (indexMap q))),
                    None).
Proof.
  intros [Hd Hlen] Hv Hi0 Hnl Htarget Hval Hlast.
  pose proof (lookup_lt_Some _ _ _ Htarget) as Hrange.
  assert ((len q - 1)%int = len q - 1) as Ewrap by (unfold len in *; int_simpl; reflexivity).
  assert (Z.to_nat (len q - 1) = (length (pairs q) - 1)%nat) as Elast by (unfold len; lia).
  unfold Remove. rewrite Hv, Ewrap.
  destruct (Z.eqb_spec index (len q - 1)); [contradiction|].
  rewrite (index_pairs_ok (pairs q) index target) by first [lia | exact Htarget].
  cbn [obind].
  rewrite (index_pairs_ok (pairs q) (len q - 1) last)
    by first [unfold len in *; lia | rewrite Elast; exact Hlast].
  cbn [obind]. rewrite store_pairs_ok by lia. cbn [obind].
  unfold map_delete, map_store, set_indexMap, set_pairs. cbn [pairs sizeD indexMap].
  rewrite (index_pairs_ok _ index last) by first [lia | apply list_lookup_insert_eq; lia].
  cbn [obind].
  rewrite slice_to_ok by (rewrite length_insert; unfold len; lia). cbn [obind].
  rewrite Elast, Hval.
  rewrite (index_pairs_ok _ index last).
  - reflexivity.
  - lia.
  - rewrite lookup_take_lt by (unfold len in *; lia).
    apply list_lookup_insert_eq. lia.
Qed.

Lemma Remove_effect fuel q v index :
  wf q → indexed (pairs q) (indexMap q) → covered no_stale (pairs q) (indexMap q) →
  indexMap q !! v = Some index → (length (pairs q) < fuel)%nat →
  ∃ q' target,
    Remove fuel q v = Done (q', None)
    ∧ pairs q !! Z.to_nat index = Some target ∧ value target = v
    ∧ sizeD q' = sizeD q
    ∧ target :: pairs q' ≡ₚ pairs q
    ∧ indexed (pairs q') (indexMap q') ∧ covered no_stale (pairs q') (indexMap q').
Proof.
  intros Hwf Hix Hcov Hv Hfuel. pose proof Hwf as [Hd Hlen].
  destruct (indexed_range _ _ _ _ Hix Hcov Hv) as (target & Hrange & Htarget & Hval).
  destruct (Remove_spec fuel q v Hwf Hix Hcov Hfuel) as (q' & e & E & Hsd & _ & Hix' & Hcov').
  assert (pairs q ≠ []) as Hne.
  { intros Hnil. rewrite Hnil in Htarget. discriminate. }
  assert (e = None ∧ target :: pairs q' ≡ₚ pairs q) as [-> Hperm].
  { destruct (decide (index = len q - 1)) as [Hl|Hnl].
    - subst index. rewrite (Remove_last_eval fuel q v Hwf Hne Hv) in E.
      injection E as <- <-. split; [reflexivity|]. cbn [pairs].
      assert (Z.to_nat (len q - 1) = (length (pairs q) - 1)%nat) as Ei by (unfold len; lia).
      rewrite Ei in Htarget.
      etrans; [apply Permutation_cons_append|].
      rewrite <- (take_last_app _ _ Htarget). reflexivity.
    - destruct (lookup_lt_is_Some_2 (pairs q) (length (pairs q) - 1)) as [last Hlast];
        [unfold len in *; lia|].
      rewrite (Remove_inner_eval fuel q v index target last Hwf Hv ltac:(lia) Hnl
                 Htarget Hval Hlast) in E.
      set (q2 := mkPQ (take (length (pairs q) - 1) (<[Z.to_nat index := last]> (pairs q)))
                      (sizeD q) (delete v (<[value last := index]> (indexMap q)))) in E.
      assert (target :: pairs q2 ≡ₚ pairs q) as Hrel.
      { cbn [q2 pairs]. apply relocate_last_perm; [exact Htarget|exact Hlast|].
        unfold len in *. lia. }
      assert (length (pairs q2) = (length (pairs q) - 1)%nat) as Hl2.
      { cbn [q2 pairs]. rewrite length_take, length_insert. lia. }
      assert (pairs q2 !! Z.to_nat index = Some last) as Hmoved.
      { cbn [q2 pairs]. rewrite lookup_take_lt by (unfold len in *; lia).
        apply list_lookup_insert_eq. lia. }
      assert (wf q2) as Hwf2.
      { unfold wf, len. rewrite Hl2. cbn [q2 sizeD]. unfold len in *. split; [exact Hd|lia]. }
      destruct (f32_lt (priority last) (priority target)).
      + destruct (bubbleUpIndex_spec fuel q2 index last)
          as (q'' & k & Ebu & _ & Hp & _);
          [cbn [q2 sizeD]; lia|apply Hwf2|lia|exact Hmoved|lia|].
        rewrite Ebu in E. cbn [obind] in E. injection E as <- <-.
        split; [reflexivity|]. rewrite Hp. exact Hrel.
      + destruct (f32_gt (priority last) (priority target)).
        * destruct (pushDownIndex_spec fuel q2 index)
            as (q'' & Epd & _ & Hp & _);
            [exact Hwf2|unfold len in *; rewrite Hl2; lia|rewrite Hl2; lia|].
          rewrite Epd in E. cbn [obind] in E. injection E as <- <-.
          split; [reflexivity|]. rewrite Hp. exact Hrel.
        * injection E as <- <-. split; [reflexivity|exact Hrel]. }
  exists q', target. split; [exact E|]. split; [exact Htarget|]. split; [exact Hval|].
  split; [exact Hsd|]. split; [exact Hperm|]. split; [exact Hix'|exact Hcov'].
Qed.

(** A stored value of an index-consistent queue is known to the index. *)
Lemma stored_indexed q v :
  indexed (pairs q) (indexMap q) → v ∈ stored q →
  ∃ (i : nat) p, pairs q !! i = Some p ∧ value p = v ∧ indexMap q !! v = Some (Z.of_nat i).
Proof.
  intros Hix Hin. apply list_elem_of_fmap in Hin as (p & -> & Hp).
  apply list_elem_of_lookup in Hp as [i Hp].
  exists i, p. split; [exact Hp|]. split; [reflexivity|]. apply Hix. exact Hp.
Qed.

(** X7. [Remove(v)] of a stored value on an index-consistent queue
    returns without error, takes exactly the entry of [v] out of storage,
    keeps the index consistent, and leaves [v] unknown: removing it again
    changes nothing and reports that the element was not found. *)
Theorem Remove_takes_out_one_entry (fuel : nat) (q : PriorityQueue T) (v : T) :
  wf q → index_consistent q → v ∈ stored q → (length (pairs q) < fuel)%nat →
  ∃ q' target,
    Remove fuel q v = Done (q', None)
    ∧ value target = v
    ∧ target :: pairs q' ≡ₚ pairs q
    ∧ index_consistent q'
    ∧ (v ∉ stored q')
    ∧ Remove fuel q' v = Done (q', Some ErrElementNotFound).
Proof.
  intros Hwf Hinv Hin Hfuel. apply index_consistent_alt in Hinv as [Hix Hcov].
  destruct (stored_indexed q v Hix Hin) as (i & p & Hp & Hpv & Hv).
  destruct (Remove_effect fuel q v _ Hwf Hix Hcov Hv Hfuel)
    as (q' & target & E & _ & Hval & _ & Hperm & Hix' & Hcov').
  assert (v ∉ stored q') as Hgone.
  { pose proof (indexed_NoDup _ _ Hix) as Hnd.
    rewrite <- Hperm, fmap_cons, Hval in Hnd. apply NoDup_cons in Hnd as [Hnot _].
    exact Hnot. }
  assert (indexMap q' !! v = None) as Hnone.
  { destruct (indexMap q' !! v) as [z|] eqn:Ez; [|reflexivity].
    destruct (Hcov' v z Ez) as [[]|Hin']. contradiction. }
  exists q', target. split; [exact E|]. split; [exact Hval|]. split; [exact Hperm|].
  split; [apply index_consistent_alt; auto|]. split; [exact Hgone|].
  unfold Remove. rewrite Hnone. reflexivity.
Qed.

Lemma Update_effect fuel q v newPriority index :
  wf q → indexed (pairs q) (indexMap q) → covered no_stale (pairs q) (indexMap q) →
  indexMap q !! v = Some index → (length (pairs q) < fuel)%nat →
  ∃ q' old,
    Update fuel q v newPriority = Done (q', None)
    ∧ pairs q !! Z.to_nat index = Some old ∧ value old = v
    ∧ sizeD q' = sizeD q
    ∧ pairs q' ≡ₚ <[Z.to_nat index := mkPair newPriority v]> (pairs q)
    ∧ indexed (pairs q') (indexMap q') ∧ covered no_stale (pairs q') (indexMap q').
Proof.
  intros Hwf Hix Hcov Hv Hfuel. pose proof Hwf as [Hd Hlen].
  destruct (indexed_range _ _ _ _ Hix Hcov Hv) as (old & Hrange & Hold & Hval).
  destruct (Update_spec fuel q v newPriority Hwf Hix Hcov Hfuel)
    as (q' & e & E0 & Hsd & _ & Hix' & Hcov').
  pose proof E0 as E.
  rewrite (Update_cases fuel q v newPriority index old Hv ltac:(lia) Hold) in E.
  cbv zeta in E. rewrite Hval in E.
  set (q1 := mkPQ (<[Z.to_nat index := mkPair newPriority v]> (pairs q))
                  (sizeD q) (indexMap q)) in E.
  assert (length (pairs q1) = length (pairs q)) as Hl1 by apply length_insert.
  assert (wf q1) as Hwf1 by (unfold wf, len; rewrite Hl1; exact Hwf).
  assert (e = None ∧ pairs q' ≡ₚ pairs q1) as [-> Hperm].
  { destruct (f32_lt newPriority (priority old)).
    - destruct (bubbleUpIndex_spec fuel q1 index (mkPair newPriority v))
        as (q'' & k & Ebu & _ & Hp & _);
        [cbn [q1 sizeD]; lia|apply Hwf1|lia| |lia|].
      { apply list_lookup_insert_eq. lia. }
      rewrite Ebu in E. cbn [obind] in E. injection E as <- <-. auto.
    - destruct (f32_gt newPriority (priority old)).
      + destruct (pushDownIndex_spec fuel q1 index)
          as (q'' & Epd & _ & Hp & _);
          [exact Hwf1|unfold len; rewrite Hl1; lia|rewrite Hl1; lia|].
        rewrite Epd in E. cbn [obind] in E. injection E as <- <-. auto.
      + injection E as <- <-. auto. }
  exists q', old. split; [exact E0|]. split; [exact Hold|]. split; [exact Hval|].
  split; [exact Hsd|]. split; [exact Hperm|]. split; [exact Hix'|exact Hcov'].
Qed.

(** X8. [Update(v, p)] of a stored value on an index-consistent queue
    returns without error; storage afterwards holds the old entries with
    the entry of [v] replaced by [(p, v)], the index is consistent, and it
    leads from [v] to the position of the new entry. *)
Theorem Update_replaces_one_priority (fuel : nat) (q : PriorityQueue T) (v : T)
    (newPriority : float32) :
  wf q → index_consistent q → v ∈ stored q → (length (pairs q) < fuel)%nat →
  ∃ q' (i j : nat) old,
    Update fuel q v newPriority = Done (q', None)
    ∧ pairs q !! i = Some old ∧ value old = v
    ∧ pairs q' ≡ₚ <[i := mkPair newPriority v]> (pairs q)
    ∧ index_consistent q'
    ∧ indexMap q' !! v = Some (Z.of_nat j)
    ∧ pairs q' !! j = Some (mkPair newPriority v).
Proof.
  intros Hwf Hinv Hin Hfuel. apply index_consistent_alt in Hinv as [Hix Hcov].
  destruct (stored_indexed q v Hix Hin) as (i & p & Hp & Hpv & Hv).
  destruct (Update_effect fuel q v newPriority _ Hwf Hix Hcov Hv Hfuel)
    as (q' & old & E & Hold & Hval & _ & Hperm & Hix' & Hcov').
  rewrite Nat2Z.id in Hold, Hperm.
  assert (mkPair newPriority v ∈ pairs q') as Hnew.
  { rewrite Hperm. apply list_elem_of_lookup. exists i.
    apply list_lookup_insert_eq. eapply lookup_lt_Some; eauto. }
  apply list_elem_of_lookup in Hnew as [j Hj].
  exists q', i, j, old. split; [exact E|]. split; [exact Hold|]. split; [exact Hval|].
  split; [exact Hperm|]. split; [apply index_consistent_alt; auto|].
  split; [apply (Hix' j _ Hj)|exact Hj].
Qed.

(** X9. [Insert] of a fresh value followed by [Remove] of the same value,
    on an index-consistent queue: both calls return without error, storage
    holds the entries it held before (possibly at other positions), and
    the index is consistent again. *)
Theorem Insert_then_Remove (fuel : nat) (q : PriorityQueue T) (v : T) (prio : float32) :
  wf q → index_consistent q → v ∉ stored q →
  len q < GoInt.max_int → (length (pairs q) + 1 < fuel)%nat →
  ∃ q1 q2,
    Insert fuel q v prio = Done q1
    ∧ Remove fuel q1 v = Done (q2, None)
    ∧ pairs q2 ≡ₚ pairs q
    ∧ index_consistent q2.
Proof.
  intros Hwf Hinv Hfresh Hroom Hfuel. apply index_consistent_alt in Hinv as [Hix Hcov].
  pose proof Hwf as [Hd Hlen].
  destruct (Insert_spec fuel q v prio Hwf Hroom Hfuel)
    as (q1 & k & E1 & Hsd1 & Hperm1 & Hk & Hat & Hidx & Hix1 & Hcov1).
  specialize (Hix1 Hix Hfresh). specialize (Hcov1 Hcov).
  assert (length (pairs q1) = (length (pairs q) + 1)%nat) as Hl1
    by (rewrite Hperm1, length_app; reflexivity).
  assert (wf q1) as Hwf1.
  { unfold wf, len in *. rewrite Hsd1, Hl1. split; [exact Hd|lia]. }
  destruct (Remove_effect fuel q1 v k Hwf1 Hix1 Hcov1 Hidx ltac:(lia))
    as (q2 & target & E2 & Htarget & _ & _ & Hperm2 & Hix2 & Hcov2).
  rewrite Hat in Htarget. injection Htarget as <-.
  exists q1, q2. split; [exact E1|]. split; [exact E2|].
  split; [|apply index_consistent_alt; auto].
  rewrite Hperm1, <- Permutation_cons_append in Hperm2.
  apply Permutation_cons_inv in Hperm2. exact Hperm2.
Qed.

(** X10. [Insert] with a NaN priority: no comparison with a NaN holds, so
    the new entry is appended and stays at the last position whatever the
    queue holds. *)
Theorem Insert_NaN_stays_last (fuel : nat) (q : PriorityQueue T) (v : T) (prio : float32) :
  wf q → len q < GoInt.max_int → (0 < fuel)%nat → is_nan prio = true →
  Insert fuel q v prio =
    Done (mkPQ (pairs q ++ [mkPair prio v]) (sizeD q) (<[v := len q]> (indexMap q))).
Proof.
  intros [Hd Hlen] Hroom Hfuel Hnan.
  rewrite Insert_unfold by exact Hroom.
  set (new := mkPair prio v).
  set (q1 := mkPQ (pairs q ++ [new]) (sizeD q) (<[v := len q]> (indexMap q))).
  assert (pairs q1 !! Z.to_nat (len q) = Some new) as Hnew.
  { cbn [q1 pairs]. unfold len. rewrite Nat2Z.id. apply list_lookup_middle. reflexivity. }
  assert (len q1 = len q + 1) as Hl1.
  { unfold len. cbn [q1 pairs]. rewrite length_app. cbn [length]. lia. }
  pose proof (len_nonneg q) as Hl0.
  destruct fuel as [|fuel']; [lia|].
  assert (for_loop (S fuel') (bubbleUp_body new) (q1, len q) = Done (q1, len q)) as Eloop.
  { cbn [for_loop].
    destruct (Z_le_gt_dec (len q) 0) as [Hz|Hz].
    { rewrite bubbleUp_body_root by lia. reflexivity. }
    destruct (bubbleUp_body_step new q1 (len q)) as (parent & _ & _ & Ebody);
      [cbn [q1 sizeD]; lia|lia|lia|].
    rewrite Ebody.
    destruct (f32_nan_lt (priority new) (priority parent) Hnan) as [_ ->]. reflexivity. }
  unfold bubbleUpIndex.
  rewrite (index_pairs_ok (pairs q1) (len q) new) by first [lia | exact Hnew].
  cbn [obind]. rewrite Eloop. cbn [obind].
  rewrite store_pairs_ok by (fold (len q1); lia). cbn [obind].
  unfold map_store, set_indexMap, set_pairs. cbn [pairs sizeD indexMap].
  rewrite list_insert_id by exact Hnew.
  rewrite insert_id by (cbn [new value q1 indexMap]; apply lookup_insert_eq).
  reflexivity.
Qed.

End Effects.

(** ** Remove and Update on a max-heap *)

Section OnAHeap.

Context {T : Type} `{Countable T} `{GoZero T}.
Implicit Types (q : PriorityQueue T) (l : list (Pair T)) (m : gmap T Z) (p : Pair T) (v : T).

Lemma Remove_on_heap_eval fuel q v index target last :
  wf q → len q <= GoInt.half_range → max_heap q →
  indexed (pairs q) (indexMap q) →
  indexMap q !! v = Some index → 0 <= index → index ≠ len q - 1 →
  pairs q !! Z.to_nat index = Some target → value target = v →
  pairs q !! (length (pairs q) - 1)%nat = Some last →
  (length (pairs q) < fuel)%nat →
  Remove fuel q v =
    Done (mkPQ (take (length (pairs q) - 1) (<[Z.to_nat index := last]> (pairs q)))
               (sizeD q) (delete v (<[value last := index]> (indexMap q))),
          None).
Proof.
  intros Hwf Hhalf Hheap Hix Hv Hi0 Hnl Htarget Hval Hlast Hfuel. pose proof Hwf as [Hd Hlen].
  pose proof (lookup_lt_Some _ _ _ Htarget) as Hrange.
  rewrite (Remove_inner_eval fuel q v index target last Hwf Hv Hi0 Hnl Htarget Hval Hlast).
  set (l2 := take (length (pairs q) - 1) (<[Z.to_nat index := last]> (pairs q))).
  set (m2 := delete v (<[value last := index]> (indexMap q))).
  set (q1 := mkPQ l2 (sizeD q) m2).
  assert (Z.to_nat index < length (pairs q) - 1)%nat as Hlt1 by (unfold len in *; lia).
  assert (length (pairs q1) = (length (pairs q) - 1)%nat) as Hl1.
  { cbn [q1 pairs]. unfold l2. rewrite length_take, length_insert. lia. }
  assert (len q1 = len q - 1) as Hlen1 by (unfold len; lia).
  assert (pairs q1 !! Z.to_nat index = Some last) as Hcur.
  { cbn [q1 pairs]. unfold l2. rewrite lookup_take_lt by lia.
    apply list_lookup_insert_eq. lia. }
  assert (∀ j x, j ≠ Z.to_nat index → pairs q1 !! j = Some x → pairs q !! j = Some x) as Hsame.
  { intros j x Hj Hx. cbn [q1 pairs] in Hx. unfold l2 in Hx.
    apply lookup_take_Some in Hx as [Hx _].
    rewrite list_lookup_insert_ne in Hx by congruence. exact Hx. }
  assert (wf q1) as Hwf1 by (unfold wf; rewrite Hlen1; cbn [q1 sizeD]; split; [exact Hd|lia]).
  assert (value last ≠ v) as Hlv.
  { intros E. rewrite <- Hval in E.
    pose proof (indexed_inj _ _ _ _ _ _ Hix Hlast Htarget E). lia. }
  destruct fuel as [|fuel']; [lia|].
  destruct (f32_lt (priority last) (priority target)) eqn:Hlt.
  - (* the relocated entry is lower: bubble-up stops in its first round *)
    assert (for_loop (S fuel') (bubbleUp_body last) (q1, index) = Done (q1, index)) as Eloop.
    { cbn [for_loop].
      destruct (Z_le_gt_dec index 0) as [Hz|Hz].
      { rewrite bubbleUp_body_root by lia. reflexivity. }
      destruct (bubbleUp_body_step last q1 index) as (parent & Hparent & Hpar & Ebody);
        [cbn [q1 sizeD]; lia|unfold len in *; lia|unfold len in *; lia|].
      rewrite Ebody. change (sizeD q1) with (sizeD q) in *.
      apply Hsame in Hparent; [|lia].
      assert (SFleb (priority target) (priority parent) = true) as Hle.
      { apply (Hheap (Z.to_nat index) target parent); [lia|exact Htarget|].
        rewrite Z2Nat.id by lia. exact Hparent. }
      assert (f32_lt (priority parent) (priority last) = false) as ->; [|reflexivity].
      destruct (f32_lt (priority parent) (priority last)) eqn:Hpc; [|reflexivity].
      pose proof (f32_lt_trans _ _ _ Hpc Hlt) as Hpo.
      rewrite (f32_le_not_lt _ _ Hle) in Hpo. discriminate. }
    unfold bubbleUpIndex.
    rewrite (index_pairs_ok (pairs q1) index last) by first [lia | exact Hcur].
    cbn [obind]. rewrite Eloop. cbn [obind].
    rewrite store_pairs_ok by lia. cbn [obind].
    unfold map_store, set_indexMap, set_pairs. cbn [pairs sizeD indexMap].
    rewrite list_insert_id by exact Hcur.
    rewrite insert_id; [reflexivity|].
    cbn [q1 indexMap]. unfold m2. rewrite lookup_delete_ne by congruence.
    apply lookup_insert_eq.
  - destruct (f32_gt (priority last) (priority target)) eqn:Hgt; [|reflexivity].
    (* the relocated entry is higher: push-down stops in its first round *)
    assert (pushDown_body (S fuel') (q1, index) = Done (Break (q1, index))) as Ebody.
    { destruct (pushDown_body_shape (S fuel') q1 index Hwf1) as [Hnone Hsome];
        [unfold len in *; lia|lia|].
      destruct (Z_lt_le_dec (index * sizeD q1 + 1) (len q1)) as [Hc|Hc];
        [|apply Hnone; lia].
      destruct (Hsome Hc) as (ci & child & entry & Hci & Hchild & Hentry & Hbest & E).
      destruct (Hbest ltac:(unfold len in *; lia)) as (Hup & _ & _).
      rewrite E. change (sizeD q1) with (sizeD q) in *.
      rewrite Hcur in Hentry. injection Hentry as <-.
      apply Hsame in Hchild; [|nia].
      assert ((ci - 1) / sizeD q = index) as Hparent.
      { symmetry. apply (Z.div_unique_pos _ _ _ (ci - 1 - index * sizeD q)); lia. }
      assert (SFleb (priority child) (priority target) = true) as Hle.
      { apply (Hheap (Z.to_nat ci) child target); [nia|exact Hchild|].
        rewrite Z2Nat.id by lia. rewrite Hparent. exact Htarget. }
      assert (f32_gt (priority child) (priority last) = false) as ->; [|reflexivity].
      unfold f32_gt in *.
      destruct (SFltb (priority last) (priority child)) eqn:Hcc; [|reflexivity].
      pose proof (f32_lt_trans _ _ _ Hgt Hcc) as Hoc.
      rewrite (f32_le_not_lt _ _ Hle) in Hoc. discriminate. }
    unfold pushDownIndex. cbn [for_loop]. rewrite Ebody. reflexivity.
Qed.

(** X11. On an index-consistent max-heap, [Remove] of a stored value never
    rebalances: the last entry is written over the position of the removed
    one, storage loses its last position, and every other entry stays
    where it was, whether the relocated entry is lower or higher than the
    removed one. *)
Theorem Remove_on_heap_moves_only_the_last (fuel : nat) (q : PriorityQueue T) (v : T) :
  wf q → len q <= GoInt.half_range → max_heap q → index_consistent q →
  v ∈ stored q → (length (pairs q) < fuel)%nat →
  ∃ (i : nat) target last q',
    Remove fuel q v = Done (q', None)
    ∧ pairs q !! i = Some target ∧ value target = v
    ∧ pairs q !! (length (pairs q) - 1)%nat = Some last
    ∧ pairs q' = take (length (pairs q) - 1) (<[i := last]> (pairs q))
    ∧ (∀ j, j ≠ i → (j < length (pairs q) - 1)%nat → pairs q' !! j = pairs q !! j).
Proof.
  intros Hwf Hhalf Hheap Hinv Hin Hfuel. apply index_consistent_alt in Hinv as [Hix Hcov].
  destruct (stored_indexed q v Hix Hin) as (i & target & Htarget & Hval & Hv).
  pose proof (lookup_lt_Some _ _ _ Htarget) as Hrange.
  destruct (lookup_lt_is_Some_2 (pairs q) (length (pairs q) - 1)) as [last Hlast]; [lia|].
  exists i, target, last.
  assert (∀ l' : list (Pair T),
            l' = take (length (pairs q) - 1) (<[i := last]> (pairs q)) →
            ∀ j, j ≠ i → (j < length (pairs q) - 1)%nat → l' !! j = pairs q !! j) as Hrest.
  { intros l' -> j Hj Hjl. rewrite lookup_take_lt by exact Hjl.
    apply list_lookup_insert_ne. congruence. }
  destruct (decide (Z.of_nat i = len q - 1)) as [Hl|Hnl].
  - assert (pairs q ≠ []) as Hne by (intros E; rewrite E in Htarget; discriminate).
    rewrite Hl in Hv. rewrite (Remove_last_eval fuel q v Hwf Hne Hv).
    eexists. split; [reflexivity|]. split; [exact Htarget|]. split; [exact Hval|].
    split; [exact Hlast|]. cbn [pairs].
    assert (i = length (pairs q) - 1)%nat as Ei by (unfold len in *; lia).
    assert (take (length (pairs q) - 1) (pairs q)
            = take (length (pairs q) - 1) (<[i := last]> (pairs q))) as El.
    { rewrite take_insert_ge by lia. reflexivity. }
    split; [exact El|]. apply Hrest. exact El.
  - rewrite (Remove_on_heap_eval fuel q v (Z.of_nat i) target last Hwf Hhalf Hheap Hix Hv
               ltac:(lia) Hnl) by first [rewrite Nat2Z.id; assumption | assumption].
    rewrite Nat2Z.id.
    eexists. split; [reflexivity|]. split; [exact Htarget|]. split; [exact Hval|].
    split; [exact Hlast|]. cbn [pairs]. split; [reflexivity|]. apply Hrest. reflexivity.
Qed.

(** X12. On an index-consistent max-heap, [Update] of a stored value never
    moves an entry: only the priority at the position of the value is
    rewritten, whether the priority is lowered or raised. *)
Theorem Update_on_heap_moves_nothing (fuel : nat) (q : PriorityQueue T) (v : T)
    (newPriority : float32) :
  wf q → len q <= GoInt.half_range → max_heap q → index_consistent q →
  v ∈ stored q → (length (pairs q) < fuel)%nat →
  ∃ (i : nat) old,
    pairs q !! i = Some old ∧ value old = v
    ∧ Update fuel q v newPriority =
        Done (mkPQ (<[i := mkPair newPriority v]> (pairs q)) (sizeD q) (indexMap q), None).
Proof.
  intros Hwf Hhalf Hheap Hinv Hin Hfuel. apply index_consistent_alt in Hinv as [Hix Hcov].
  destruct (stored_indexed q v Hix Hin) as (i & old & Hold & Hval & Hv).
  exists i, old. split; [exact Hold|]. split; [exact Hval|].
  rewrite (Update_on_heap_in_place fuel q v newPriority (Z.of_nat i) old Hwf Hhalf Hheap Hv
             ltac:(lia)) by first [rewrite Nat2Z.id; assumption | assumption].
  rewrite Nat2Z.id, Hval. reflexivity.
Qed.

End OnAHeap.

(** ** Shape of the tree *)

Section Shape.

Context {T : Type} `{Countable T} `{GoZero T}.
Implicit Types (q : PriorityQueue T) (l : list (Pair T)) (p : Pair T) (v : T).

Lemma getParentIndex_pos q (c : Z) :
  1 <= sizeD q → 0 < c <= GoInt.max_int →
  getParentIndex q c = Done ((c - 1) / sizeD q).
Proof.
  intros Hd Hc. unfold getParentIndex.
  assert ((c - 1)%int = c - 1) as -> by (int_simpl; reflexivity).
  apply int_quot_pos; lia.
Qed.

(** X13. [getParentIndex] inverts the child positions: a position [c > 0]
    has parent [i] exactly when it is one of [i*d+1 .. i*d+d], the range
    [highestPriorityChild] scans for [i]. For the root the truncating
    division returns the root itself. *)
Theorem getParentIndex_inverts_children (q : PriorityQueue T) (i c : Z) :
  wf q → 0 < c <= GoInt.max_int →
  (getParentIndex q c = Done i ↔ i * sizeD q + 1 <= c <= i * sizeD q + sizeD q)
  ∧ getParentIndex q 0 = Done 0.
Proof.
  intros [Hd Hlen] Hc. split.
  - rewrite getParentIndex_pos by lia.
    pose proof (Z.mul_div_le (c - 1) (sizeD q) ltac:(lia)).
    pose proof (Z.mul_succ_div_gt (c - 1) (sizeD q) ltac:(lia)).
    split.
    + intros E. injection E as <-. lia.
    + intros Hr. f_equal. symmetry.
      assert (0 <= i) by nia.
      apply (Z.div_unique_pos _ _ _ (c - 1 - i * sizeD q)); lia.
  - unfold getParentIndex, int_quot.
    assert ((0 - 1)%int = -1) as -> by (int_simpl; reflexivity).
    destruct (Z.eqb_spec (sizeD q) 0); [lia|].
    assert (Z.quot (-1) (sizeD q) = 0) as ->.
    { change (-1) with (- (1)). rewrite Z.quot_opp_l by lia.
      rewrite Z.quot_small by lia. reflexivity. }
    rewrite wrap_id by int_range. reflexivity.
Qed.

(** X14. When position [currentIndex] has a child in storage,
    [highestPriorityChild] returns a stored entry together with its
    position, and [getParentIndex] leads from that position back to
    [currentIndex]. *)
Theorem highestPriorityChild_is_a_child (fuel : nat) (q : PriorityQueue T) (currentIndex : Z) :
  wf q → len q <= GoInt.half_range → 0 <= currentIndex →
  currentIndex * sizeD q + 1 < len q → (length (pairs q) < fuel)%nat →
  ∃ best bestIdx,
    highestPriorityChild fuel q currentIndex = Done (best, bestIdx)
    ∧ pairs q !! Z.to_nat bestIdx = Some best
    ∧ currentIndex < bestIdx < len q
    ∧ getParentIndex q bestIdx = Done currentIndex.
Proof.
  intros Hwf Hhalf Hc Hchild Hfuel. pose proof Hwf as [Hd Hlen].
  destruct (highestPriorityChild_some fuel q currentIndex Hwf Hc Hchild Hfuel)
    as (best & bestIdx & E & Hrange & Hbest & Hmore).
  destruct (Hmore Hhalf) as (Hup & _ & _).
  exists best, bestIdx. split; [exact E|]. split; [exact Hbest|].
  split; [nia|].
  rewrite getParentIndex_pos by nia. f_equal. symmetry.
  apply (Z.div_unique_pos _ _ _ (bestIdx - 1 - currentIndex * sizeD q)); lia.
Qed.

(** X15. [firstLeafIndex] with at least two stored entries separates the
    positions that have a child from the leaves. With a single entry the
    truncating division makes it return 1, so the childless root counts as
    an inner position. *)
Theorem firstLeafIndex_separates_leaves (q : PriorityQueue T) :
  wf q →
  ∃ first,
    firstLeafIndex q = Done first
    ∧ (2 <= len q → ∀ i, 0 <= i < len q → (i < first ↔ i * sizeD q + 1 < len q))
    ∧ (len q = 1 → first = 1).
Proof.
  intros Hwf. pose proof Hwf as [Hd Hlen].
  exists (Z.quot (len q - 2) (sizeD q) + 1).
  split; [apply firstLeafIndex_spec; exact Hwf|]. split.
  - intros H2 i Hi. pose proof (firstLeaf_children q i Hwf Hi) as Hiff.
    split.
    + intros Hlt. apply Hiff. split; [exact Hlt|exact H2].
    + intros Hch. apply Hiff in Hch as [Hlt _]. exact Hlt.
  - intros ->. change (1 - 2) with (- (1)). rewrite Z.quot_opp_l by lia.
    rewrite Z.quot_small by lia. reflexivity.
Qed.

End Shape.

(** ** Extraction: what Top leaves behind, and sorting with the queue *)

Section Extraction.

Context {T : Type} `{Countable T} `{GoZero T} `{GoMake T}.
Implicit Types (q : PriorityQueue T) (l : list (Pair T)) (p : Pair T) (v : T).

(** X16. [Top] on a non-empty index-consistent queue, heap or not: it
    returns the entry at position 0 without error, takes exactly that
    entry out of storage, keeps the index consistent, and the index no
    longer knows the returned value. *)
Theorem Top_forgets_the_returned_value (fuel : nat) (q : PriorityQueue T) :
  wf q → index_consistent q → pairs q ≠ [] → (length (pairs q) < fuel)%nat →
  ∃ q' r,
    Top fuel q = Done (q', (r, None))
    ∧ pairs q !! 0%nat = Some r
    ∧ r :: pairs q' ≡ₚ pairs q
    ∧ index_consistent q'
    ∧ (value r ∉ stored q')
    ∧ indexMap q' !! value r = None.
Proof.
  intros Hwf Hinv Hne Hfuel. apply index_consistent_alt in Hinv as [Hix Hcov].
  destruct (Top_spec fuel q Hwf Hix Hcov Hne Hfuel)
    as (q' & r & E & Hroot & _ & _ & Hix' & Hcov').
  destruct (Top_storage fuel q Hwf Hne Hfuel) as (q'' & r' & E' & _ & _ & Hperm & _).
  rewrite E in E'. injection E' as <- <-.
  assert (value r ∉ stored q') as Hgone.
  { pose proof (indexed_NoDup _ _ Hix) as Hnd.
    rewrite <- Hperm, fmap_cons in Hnd. apply NoDup_cons in Hnd as [Hnot _].
    exact Hnot. }
  exists q', r. split; [exact E|]. split; [exact Hroot|]. split; [exact Hperm|].
  split; [apply index_consistent_alt; auto|]. split; [exact Hgone|].
  destruct (indexMap q' !! value r) as [z|] eqn:Ez; [|reflexivity].
  destruct (Hcov' _ z Ez) as [[]|Hin']. contradiction.
Qed.

Lemma insert_all_heap fuel l : ∀ q,
  wf q → len q + Z.of_nat (length l) <= GoInt.half_range →
  (length (pairs q) + length l < fuel)%nat →
  nan_free (pairs q) → nan_free l → max_heap q →
  ∃ q', run fuel q (insert_all l) = Done q'
        ∧ wf q'
        ∧ pairs q' ≡ₚ pairs q ++ l
        ∧ nan_free (pairs q')
        ∧ max_heap q'.
Proof.
  induction l as [|p l IH]; intros q Hwf Hroom Hfuel Hnan Hnl Hheap.
  - exists q. cbn [insert_all fmap list_fmap run]. rewrite app_nil_r. auto.
  - cbn [length] in Hroom, Hfuel. pose proof Hwf as [Hd Hlen].
    change (insert_all (p :: l)) with (OpInsert (value p) (priority p) :: insert_all l).
    cbn [run exec].
    destruct (Insert_heap fuel q (value p) (priority p) Hwf)
      as (q1 & E & Hsd & Hperm & Hnan1 & Hheap1);
      [unfold len, GoInt.half_range, GoInt.max_int in *; lia|lia|exact Hnan
      |apply Hnl; apply list_elem_of_here|exact Hheap|].
    assert (mkPair (priority p) (value p) = p) as Ep by (destruct p; reflexivity).
    rewrite Ep in Hperm.
    assert (length (pairs q1) = length (pairs q) + 1)%nat as Hl
      by (rewrite Hperm, length_app; reflexivity).
    assert (wf q1) as Hwf1.
    { unfold wf, len in *. rewrite Hsd. split; [exact Hd|].
      unfold GoInt.half_range, GoInt.max_int in *. lia. }
    destruct (IH q1 Hwf1) as (q' & E' & Hwf' & Hperm' & Hnan' & Hheap');
      [unfold len in *; lia|lia|exact Hnan1
      |intros x Hx; apply Hnl; apply list_elem_of_further; exact Hx|exact Hheap1|].
    rewrite E. cbn [obind]. exists q'. split; [exact E'|]. split; [exact Hwf'|].
    split; [|auto]. rewrite Hperm', Hperm, <- app_assoc. reflexivity.
Qed.

(** X17. Sorting with the queue: [NewPriorityQueue], for any branching
    factor and any capacity argument that [make] grants (a negative one
    counts as 0), returns a queue; inserting the entries of a list without
    NaN priorities into it and then emptying it by repeated [Top] hands
    the entries back, each once, in non-increasing priority order. *)
Theorem insert_all_then_drain_sorts (fuel n : nat) (d capacity : Z) (l : list (Pair T)) :
  d <= GoInt.max_int → capacity <= max_cap →
  Z.of_nat (length l) <= GoInt.half_range →
  (length l < fuel)%nat → (length l <= n)%nat → no_nan l = true →
  ∃ q0 q out,
    NewPriorityQueue d capacity = Done q0
    ∧ run fuel q0 (insert_all l) = Done q
    ∧ drain fuel n q = Done out
    ∧ out ≡ₚ l
    ∧ non_increasing out.
Proof.
  intros Hd Hcap Hroom Hfuel Hn Hnan. apply no_nan_nan_free in Hnan.
  pose proof (NewPriorityQueue_granted (T := T) d capacity Hcap) as Enew.
  pose proof (NewPriorityQueue_wf d capacity _ Enew Hd) as Hwf0.
  set (q0 := mkPQ [] (if d <? 2 then 2 else d) ∅) in *.
  assert (pairs q0 = []) as Hp0 by reflexivity.
  destruct (insert_all_heap fuel l q0 Hwf0) as (q & E & Hwf & Hperm & Hnan' & Hheap).
  - unfold len. rewrite Hp0. cbn [length]. lia.
  - rewrite Hp0. cbn [length]. lia.
  - rewrite Hp0. intros p Hp. apply elem_of_nil in Hp. contradiction.
  - exact Hnan.
  - intros i p pp Hi Hp. rewrite Hp0 in Hp. discriminate.
  - rewrite Hp0 in Hperm. cbn [app] in Hperm.
    assert (length (pairs q) = length l) as Hl by (rewrite Hperm; reflexivity).
    destruct (drain_heap fuel n q Hwf) as (out & Eo & Hpo & Hord);
      [unfold len; lia|lia|lia|exact Hnan'|exact Hheap|].
    exists q0, q, out. split; [exact Enew|]. split; [exact E|]. split; [exact Eo|].
    split; [rewrite Hpo; exact Hperm|exact Hord].
Qed.

End Extraction.

(** ** The further properties at concrete queues *)

Module Examples.

Import Scenario.

Lemma two_entries_consistent : index_consistent two_entries.
Proof.
  apply index_consistent_alt. split.
  - intros i p Hp. destruct i as [|[|i]]; [| |discriminate];
      cbn in Hp; injection Hp as <-; vm_compute; reflexivity.
  - intros v z Hv. right. cbn [two_entries indexMap] in Hv.
    rewrite lookup_insert in Hv. case_decide as EB.
    + subst v. cbn. apply list_elem_of_further, list_elem_of_here.
    + rewrite lookup_insert in Hv. case_decide as EA.
      * subst v. cbn. apply list_elem_of_here.
      * rewrite lookup_empty in Hv. discriminate.
Defined.

Lemma two_entries_no_nan : no_nan (pairs two_entries) = true.
Proof. vm_compute. reflexivity. Defined.

Lemma two_entries_half : len two_entries <= GoInt.half_range.
Proof. unfold len. cbn. int_range. Defined.

Lemma two_entries_nonempty : pairs two_entries ≠ [].
Proof. discriminate. Defined.

Lemma two_entries_fuel : (length (pairs two_entries) < fuel)%nat.
Proof. cbn. unfold fuel. lia. Defined.

Lemma A_stored : A ∈ stored two_entries.
Proof. cbn. apply list_elem_of_here. Defined.

Lemma B_stored : B ∈ stored two_entries.
Proof. cbn. apply list_elem_of_further, list_elem_of_here. Defined.

Lemma C_fresh : C ∉ stored two_entries.
Proof.
  cbn. intros Hin.
  apply elem_of_cons in Hin as [Hin|Hin]; [discriminate Hin|].
  apply elem_of_cons in Hin as [Hin|Hin]; [discriminate Hin|].
  apply elem_of_nil in Hin. exact Hin.
Defined.

Lemma low_root_half : len low_root <= GoInt.half_range.
Proof. unfold len. cbn. int_range. Defined.

(** [Insert(C,8)] into the heap [(10,A), (5,B)]. *)
Lemma Insert_keeps_heap_order_witness :
  wf two_entries
  ∧ len two_entries < GoInt.max_int
  ∧ (length (pairs two_entries) + 1 < fuel)%nat
  ∧ no_nan (pairs two_entries) = true
  ∧ is_nan (f32 8) = false
  ∧ max_heap two_entries
  ∧ ∃ q', Insert fuel two_entries C (f32 8) = Done q'
          ∧ pairs q' ≡ₚ pairs two_entries ++ [mkPair (f32 8) C]
          ∧ no_nan (pairs q') = true
          ∧ max_heap q'.
Proof.
  assert (len two_entries < GoInt.max_int) as H1 by (unfold len; cbn; int_range).
  assert (length (pairs two_entries) + 1 < fuel)%nat as H2 by (cbn; unfold fuel; lia).
  assert (is_nan (f32 8) = false) as H3 by (vm_compute; reflexivity).
  split; [exact Instances.two_entries_wf|]. split; [exact H1|]. split; [exact H2|].
  split; [exact two_entries_no_nan|]. split; [exact H3|].
  split; [exact Instances.two_entries_heap|].
  exact (Insert_keeps_heap_order fuel two_entries C (f32 8) Instances.two_entries_wf H1 H2
           two_entries_no_nan H3 Instances.two_entries_heap).
Defined.

(** [Peek] on the heap [(10,A), (5,B)]. *)
Lemma Peek_reads_the_maximum_witness :
  1 <= sizeD two_entries
  ∧ pairs two_entries ≠ []
  ∧ no_nan (pairs two_entries) = true
  ∧ max_heap two_entries
  ∧ ∃ r, Peek two_entries = Done (two_entries, (r, None))
         ∧ pairs two_entries !! 0%nat = Some r
         ∧ all_below r (pairs two_entries).
Proof.
  assert (1 <= sizeD two_entries) as H1 by (cbn; lia).
  split; [exact H1|]. split; [exact two_entries_nonempty|].
  split; [exact two_entries_no_nan|]. split; [exact Instances.two_entries_heap|].
  exact (Peek_reads_the_maximum two_entries H1 two_entries_nonempty two_entries_no_nan
           Instances.two_entries_heap).
Defined.

(** [Top] on the heap [(10,A), (5,B)]. *)
Lemma Top_extracts_the_maximum_witness :
  wf two_entries
  ∧ len two_entries <= GoInt.half_range
  ∧ pairs two_entries ≠ []
  ∧ (length (pairs two_entries) < fuel)%nat
  ∧ no_nan (pairs two_entries) = true
  ∧ max_heap two_entries
  ∧ ∃ q' r,
      Top fuel two_entries = Done (q', (r, None))
      ∧ all_below r (pairs two_entries)
      ∧ r :: pairs q' ≡ₚ pairs two_entries
      ∧ no_nan (pairs q') = true
      ∧ max_heap q'.
Proof.
  split; [exact Instances.two_entries_wf|]. split; [exact two_entries_half|].
  split; [exact two_entries_nonempty|]. split; [exact two_entries_fuel|].
  split; [exact two_entries_no_nan|]. split; [exact Instances.two_entries_heap|].
  exact (Top_extracts_the_maximum fuel two_entries Instances.two_entries_wf two_entries_half
           two_entries_nonempty two_entries_fuel two_entries_no_nan
           Instances.two_entries_heap).
Defined.

(** Emptying the heap [(10,A), (5,B)]. *)
Lemma drain_is_sorted_witness :
  wf two_entries
  ∧ len two_entries <= GoInt.half_range
  ∧ (length (pairs two_entries) < fuel)%nat
  ∧ (length (pairs two_entries) <= 2)%nat
  ∧ no_nan (pairs two_entries) = true
  ∧ max_heap two_entries
  ∧ ∃ out, drain fuel 2 two_entries = Done out
           ∧ out ≡ₚ pairs two_entries
           ∧ non_increasing out.
Proof.
  assert (length (pairs two_entries) <= 2)%nat as H1 by (cbn; lia).
  split; [exact Instances.two_entries_wf|]. split; [exact two_entries_half|].
  split; [exact two_entries_fuel|]. split; [exact H1|].
  split; [exact two_entries_no_nan|]. split; [exact Instances.two_entries_heap|].
  exact (drain_is_sorted fuel 2 two_entries Instances.two_entries_wf two_entries_half
           two_entries_fuel H1 two_entries_no_nan Instances.two_entries_heap).
Defined.

(** [Insert(C,8)], [Top()], [Insert(D,20)] from the heap [(10,A), (5,B)]. *)
Lemma heap_order_along_inserts_and_tops_witness :
  wf two_entries
  ∧ len two_entries + Z.of_nat (length [OpInsert C (f32 8); OpTop; OpInsert D (f32 20)])
      <= GoInt.half_range
  ∧ (length (pairs two_entries)
       + length [OpInsert C (f32 8); OpTop; OpInsert D (f32 20)] < fuel)%nat
  ∧ no_nan (pairs two_entries) = true
  ∧ max_heap two_entries
  ∧ Forall insert_or_top [OpInsert C (f32 8); OpTop; OpInsert D (f32 20)]
  ∧ ∀ k, ∃ q',
      run fuel two_entries (take k [OpInsert C (f32 8); OpTop; OpInsert D (f32 20)]) = Done q'
      ∧ max_heap q'.
Proof.
  assert (len two_entries + Z.of_nat (length [OpInsert C (f32 8); OpTop; OpInsert D (f32 20)])
            <= GoInt.half_range) as H1 by (unfold len; cbn; int_range).
  assert (length (pairs two_entries)
            + length [OpInsert C (f32 8); OpTop; OpInsert D (f32 20)] < fuel)%nat as H2
    by (cbn; unfold fuel; lia).
  assert (Forall insert_or_top [OpInsert C (f32 8); OpTop; OpInsert D (f32 20)]) as H3.
  { repeat constructor; vm_compute; reflexivity. }
  split; [exact Instances.two_entries_wf|]. split; [exact H1|]. split; [exact H2|].
  split; [exact two_entries_no_nan|]. split; [exact Instances.two_entries_heap|].
  split; [exact H3|].
  exact (heap_order_along_inserts_and_tops fuel two_entries _ Instances.two_entries_wf H1 H2
           two_entries_no_nan Instances.two_entries_heap H3).
Defined.

(** [heapify] on the storage [(1,A), (5,B), (8,C)], which is no heap. *)
Lemma heapify_builds_the_heap_witness :
  wf low_root
  ∧ (length (pairs low_root) + 1 < fuel)%nat
  ∧ ∃ q',
      heapify fuel low_root = Done q'
      ∧ sizeD q' = sizeD low_root
      ∧ pairs q' ≡ₚ pairs low_root
      ∧ (NoDup (stored low_root) → index_consistent q')
      ∧ (len low_root <= GoInt.half_range → no_nan (pairs low_root) = true → max_heap q').
Proof.
  assert (length (pairs low_root) + 1 < fuel)%nat as H1 by (cbn; unfold fuel; lia).
  split; [exact Instances.low_root_wf|]. split; [exact H1|].
  exact (heapify_builds_the_heap fuel low_root Instances.low_root_wf H1).
Defined.

(** [Remove(A)] on [(10,A), (5,B)]. *)
Lemma Remove_takes_out_one_entry_witness :
  wf two_entries
  ∧ index_consistent two_entries
  ∧ A ∈ stored two_entries
  ∧ (length (pairs two_entries) < fuel)%nat
  ∧ ∃ q' target,
      Remove fuel two_entries A = Done (q', None)
      ∧ value target = A
      ∧ target :: pairs q' ≡ₚ pairs two_entries
      ∧ index_consistent q'
      ∧ (A ∉ stored q')
      ∧ Remove fuel q' A = Done (q', Some ErrElementNotFound).
Proof.
  split; [exact Instances.two_entries_wf|]. split; [exact two_entries_consistent|].
  split; [exact A_stored|]. split; [exact two_entries_fuel|].
  exact (Remove_takes_out_one_entry fuel two_entries A Instances.two_entries_wf
           two_entries_consistent A_stored two_entries_fuel).
Defined.

(** [Update(B,20)] on [(10,A), (5,B)]. *)
Lemma Update_replaces_one_priority_witness :
  wf two_entries
  ∧ index_consistent two_entries
  ∧ B ∈ stored two_entries
  ∧ (length (pairs two_entries) < fuel)%nat
  ∧ ∃ q' (i j : nat) old,
      Update fuel two_entries B (f32 20) = Done (q', None)
      ∧ pairs two_entries !! i = Some old ∧ value old = B
      ∧ pairs q' ≡ₚ <[i := mkPair (f32 20) B]> (pairs two_entries)
      ∧ index_consistent q'
      ∧ indexMap q' !! B = Some (Z.of_nat j)
      ∧ pairs q' !! j = Some (mkPair (f32 20) B).
Proof.
  split; [exact Instances.two_entries_wf|]. split; [exact two_entries_consistent|].
  split; [exact B_stored|]. split; [exact two_entries_fuel|].
  exact (Update_replaces_one_priority fuel two_entries B (f32 20) Instances.two_entries_wf
           two_entries_consistent B_stored two_entries_fuel).
Defined.

(** [Insert(C,8)] then [Remove(C)] on [(10,A), (5,B)]. *)
Lemma Insert_then_Remove_witness :
  wf two_entries
  ∧ index_consistent two_entries
  ∧ (C ∉ stored two_entries)
  ∧ len two_entries < GoInt.max_int
  ∧ (length (pairs two_entries) + 1 < fuel)%nat
  ∧ ∃ q1 q2,
      Insert fuel two_entries C (f32 8) = Done q1
      ∧ Remove fuel q1 C = Done (q2, None)
      ∧ pairs q2 ≡ₚ pairs two_entries
      ∧ index_consistent q2.
Proof.
  assert (len two_entries < GoInt.max_int) as H1 by (unfold len; cbn; int_range).
  assert (length (pairs two_entries) + 1 < fuel)%nat as H2 by (cbn; unfold fuel; lia).
  split; [exact Instances.two_entries_wf|]. split; [exact two_entries_consistent|].
  split; [exact C_fresh|]. split; [exact H1|]. split; [exact H2|].
  exact (Insert_then_Remove fuel two_entries C (f32 8) Instances.two_entries_wf
           two_entries_consistent C_fresh H1 H2).
Defined.

(** [Insert(C,NaN)] on [(10,A), (5,B)]. *)
Lemma Insert_NaN_stays_last_witness :
  wf two_entries
  ∧ len two_entries < GoInt.max_int
  ∧ (0 < fuel)%nat
  ∧ is_nan S754_nan = true
  ∧ Insert fuel two_entries C S754_nan =
      Done (mkPQ (pairs two_entries ++ [mkPair S754_nan C]) (sizeD two_entries)
                 (<[C := len two_entries]> (indexMap two_entries))).
Proof.
  assert (len two_entries < GoInt.max_int) as H1 by (unfold len; cbn; int_range).
  assert (0 < fuel)%nat as H2 by (unfold fuel; lia).
  assert (is_nan S754_nan = true) as H3 by reflexivity.
  split; [exact Instances.two_entries_wf|]. split; [exact H1|]. split; [exact H2|].
  split; [exact H3|].
  exact (Insert_NaN_stays_last fuel two_entries C S754_nan Instances.two_entries_wf H1 H2 H3).
Defined.

(** [Remove(A)] on the heap [(10,A), (5,B)]: (5,B) takes position 0. *)
Lemma Remove_on_heap_moves_only_the_last_witness :
  wf two_entries
  ∧ len two_entries <= GoInt.half_range
  ∧ max_heap two_entries
  ∧ index_consistent two_entries
  ∧ A ∈ stored two_entries
  ∧ (length (pairs two_entries) < fuel)%nat
  ∧ ∃ (i : nat) target last q',
      Remove fuel two_entries A = Done (q', None)
      ∧ pairs two_entries !! i = Some target ∧ value target = A
      ∧ pairs two_entries !! (length (pairs two_entries) - 1)%nat = Some last
      ∧ pairs q' = take (length (pairs two_entries) - 1) (<[i := last]> (pairs two_entries))
      ∧ (∀ j, j ≠ i → (j < length (pairs two_entries) - 1)%nat →
           pairs q' !! j = pairs two_entries !! j).
Proof.
  split; [exact Instances.two_entries_wf|]. split; [exact two_entries_half|].
  split; [exact Instances.two_entries_heap|]. split; [exact two_entries_consistent|].
  split; [exact A_stored|]. split; [exact two_entries_fuel|].
  exact (Remove_on_heap_moves_only_the_last fuel two_entries A Instances.two_entries_wf
           two_entries_half Instances.two_entries_heap two_entries_consistent A_stored
           two_entries_fuel).
Defined.

(** [Update(A,1)] on the heap [(10,A), (5,B)]: (1,A) stays the root. *)
Lemma Update_on_heap_moves_nothing_witness :
  wf two_entries
  ∧ len two_entries <= GoInt.half_range
  ∧ max_heap two_entries
  ∧ index_consistent two_entries
  ∧ A ∈ stored two_entries
  ∧ (length (pairs two_entries) < fuel)%nat
  ∧ ∃ (i : nat) old,
      pairs two_entries !! i = Some old ∧ value old = A
      ∧ Update fuel two_entries A (f32 1) =
          Done (mkPQ (<[i := mkPair (f32 1) A]> (pairs two_entries)) (sizeD two_entries)
                     (indexMap two_entries), None).
Proof.
  split; [exact Instances.two_entries_wf|]. split; [exact two_entries_half|].
  split; [exact Instances.two_entries_heap|]. split; [exact two_entries_consistent|].
  split; [exact A_stored|]. split; [exact two_entries_fuel|].
  exact (Update_on_heap_moves_nothing fuel two_entries A (f32 1) Instances.two_entries_wf
           two_entries_half Instances.two_entries_heap two_entries_consistent A_stored
           two_entries_fuel).
Defined.

(** Position 2 of a binary queue is a child of the root. *)
Lemma getParentIndex_inverts_children_witness :
  wf low_root
  ∧ 0 < 2 <= GoInt.max_int
  ∧ (getParentIndex low_root 2 = Done 0
       ↔ 0 * sizeD low_root + 1 <= 2 <= 0 * sizeD low_root + sizeD low_root)
  ∧ getParentIndex low_root 0 = Done 0.
Proof.
  assert (0 < 2 <= GoInt.max_int) as H1 by int_range.
  split; [exact Instances.low_root_wf|]. split; [exact H1|].
  exact (getParentIndex_inverts_children low_root 0 2 Instances.low_root_wf H1).
Defined.

(** The children of the root of [(1,A), (5,B), (8,C)]. *)
Lemma highestPriorityChild_is_a_child_witness :
  wf low_root
  ∧ len low_root <= GoInt.half_range
  ∧ 0 <= 0
  ∧ 0 * sizeD low_root + 1 < len low_root
  ∧ (length (pairs low_root) < fuel)%nat
  ∧ ∃ best bestIdx,
      highestPriorityChild fuel low_root 0 = Done (best, bestIdx)
      ∧ pairs low_root !! Z.to_nat bestIdx = Some best
      ∧ 0 < bestIdx < len low_root
      ∧ getParentIndex low_root bestIdx = Done 0.
Proof.
  assert (0 <= 0) as H1 by lia.
  assert (0 * sizeD low_root + 1 < len low_root) as H2 by (unfold len; cbn; lia).
  assert (length (pairs low_root) < fuel)%nat as H3 by (cbn; unfold fuel; lia).
  split; [exact Instances.low_root_wf|]. split; [exact low_root_half|].
  split; [exact H1|]. split; [exact H2|]. split; [exact H3|].
  exact (highestPriorityChild_is_a_child fuel low_root 0 Instances.low_root_wf low_root_half
           H1 H2 H3).
Defined.

(** The first leaf of [(1,A), (5,B), (8,C)]. *)
Lemma firstLeafIndex_separates_leaves_witness :
  wf low_root
  ∧ ∃ first,
      firstLeafIndex low_root = Done first
      ∧ (2 <= len low_root → ∀ i, 0 <= i < len low_root →
           (i < first ↔ i * sizeD low_root + 1 < len low_root))
      ∧ (len low_root = 1 → first = 1).
Proof.
  split; [exact Instances.low_root_wf|].
  exact (firstLeafIndex_separates_leaves low_root Instances.low_root_wf).
Defined.

(** [Top] on [(10,A), (5,B)]. *)
Lemma Top_forgets_the_returned_value_witness :
  wf two_entries
  ∧ index_consistent two_entries
  ∧ pairs two_entries ≠ []
  ∧ (length (pairs two_entries) < fuel)%nat
  ∧ ∃ q' r,
      Top fuel two_entries = Done (q', (r, None))
      ∧ pairs two_entries !! 0%nat = Some r
      ∧ r :: pairs q' ≡ₚ pairs two_entries
      ∧ index_consistent q'
      ∧ (value r ∉ stored q')
      ∧ indexMap q' !! value r = None.
Proof.
  split; [exact Instances.two_entries_wf|]. split; [exact two_entries_consistent|].
  split; [exact two_entries_nonempty|]. split; [exact two_entries_fuel|].
  exact (Top_forgets_the_returned_value fuel two_entries Instances.two_entries_wf
           two_entries_consistent two_entries_nonempty two_entries_fuel).
Defined.

(** Sorting [(1,A), (5,B), (8,C)] with a ternary queue. *)
Lemma insert_all_then_drain_sorts_witness :
  3 <= GoInt.max_int
  ∧ 16 <= max_cap
  ∧ Z.of_nat (length (pairs low_root)) <= GoInt.half_range
  ∧ (length (pairs low_root) < fuel)%nat
  ∧ (length (pairs low_root) <= 3)%nat
  ∧ no_nan (pairs low_root) = true
  ∧ ∃ q0 q out,
      NewPriorityQueue 3 16 = Done q0
      ∧ run fuel q0 (insert_all (pairs low_root)) = Done q
      ∧ drain fuel 3 q = Done out
      ∧ out ≡ₚ pairs low_root
      ∧ non_increasing out.
Proof.
  assert (3 <= GoInt.max_int) as H1 by int_range.
  assert (16 <= max_cap) as H0 by (vm_compute; discriminate).
  assert (Z.of_nat (length (pairs low_root)) <= GoInt.half_range) as H2 by (cbn; int_range).
  assert (length (pairs low_root) < fuel)%nat as H3 by (cbn; unfold fuel; lia).
  assert (length (pairs low_root) <= 3)%nat as H4 by (cbn; lia).
  assert (no_nan (pairs low_root) = true) as H5 by (vm_compute; reflexivity).
  split; [exact H1|]. split; [exact H0|]. split; [exact H2|]. split; [exact H3|].
  split; [exact H4|]. split; [exact H5|].
  exact (insert_all_then_drain_sorts fuel 3 3 16 (pairs low_root) H1 H0 H2 H3 H4 H5).
Defined.

End Examples.

(** ** The descent of push-down *)

Section Descent.

Context {T : Type} `{Countable T} `{GoZero T}.
Implicit Types (q : PriorityQueue T) (l : list (Pair T)) (p : Pair T) (v : T).

(** From any position, on storage without NaN, the loop of
    [pushDownIndex] performs the descent. *)
Lemma pushDownIndex_descent fuel q currentIndex :
  wf q → len q <= GoInt.half_range → 0 <= currentIndex < len q →
  (length (pairs q) < fuel)%nat → nan_free (pairs q) →
  ∃ q', pushDownIndex fuel q currentIndex = Done q'
        ∧ descent (sizeD q) (pairs q) (Z.to_nat currentIndex) (pairs q').
Proof.
  intros Hwf Hhalf Hc Hfuel Hnan. pose proof Hwf as [Hd Hlen].
  set (d := sizeD q) in *.
  set (I := λ s : PriorityQueue T * Z,
    sizeD (fst s) = d
    ∧ 0 <= snd s < len q
    ∧ pairs (fst s) ≡ₚ pairs q
    ∧ (∀ l', descent d (pairs (fst s)) (Z.to_nat (snd s)) l' →
             descent d (pairs q) (Z.to_nat currentIndex) l')).
  set (Q := λ s : PriorityQueue T * Z,
    descent d (pairs q) (Z.to_nat currentIndex) (pairs (fst s))).
  destruct (for_loop_total (pushDown_body fuel) I Q (λ s, Z.to_nat (len q - snd s)))
    with (fuel := fuel) (s := (q, currentIndex)) as ([q1 index1] & Eloop & HQ).
  - intros [qs ix] HI. destruct HI as (Hsd & Hsi & Hsp & Hback).
    cbn [fst snd] in Hsd, Hsi, Hsp, Hback.
    assert (length (pairs qs) = length (pairs q)) as Hsl by (rewrite Hsp; reflexivity).
    assert (len qs = len q) as Hslen by (unfold len; lia).
    assert (wf qs) as Hwfs by (unfold wf; rewrite Hsd, Hslen; auto).
    assert (nan_free (pairs qs)) as Hnans by (eapply nan_free_perm; eauto).
    destruct (pushDown_body_shape fuel qs ix) as [Hnone Hsome];
      [exact Hwfs|lia|lia|].
    rewrite Hsd in Hnone, Hsome.
    destruct (Z_lt_le_dec (ix * d + 1) (len qs)) as [Hlt|Hge].
    + destruct (Hsome Hlt) as (ci & child & entry & Hci & Hchild & Hentry & Hbest & Ebody).
      destruct (Hbest ltac:(lia)) as (Hup & Hmax & Hlow).
      specialize (Hlow (proj2 (no_nan_nan_free _) Hnans)).
      assert (ix < ci) as Hdown by nia.
      assert (highest_child d (pairs qs) (Z.to_nat ix) (Z.to_nat ci) child) as Hhc.
      { split; [unfold children_of; rewrite !Z2Nat.id by lia; lia|].
        split; [exact Hchild|]. split.
        - intros j pj Hj Hpj. unfold children_of in Hj. rewrite Z2Nat.id in Hj by lia.
          apply f32_not_lt_le.
          + eapply nan_free_lookup; eauto.
          + eapply nan_free_lookup; eauto.
          + apply (Hmax (Z.of_nat j) pj); [lia|rewrite Nat2Z.id; exact Hpj].
        - intros j pj Hj Hjc Hpj. unfold children_of in Hj. rewrite Z2Nat.id in Hj by lia.
          apply (Hlow (Z.of_nat j) pj); [lia|rewrite Nat2Z.id; exact Hpj]. }
      rewrite Ebody. destruct (f32_gt (priority child) (priority entry)) eqn:Hgt.
      * eexists. split; [reflexivity|]. cbn [fst snd].
        split; [|lia]. unfold I. cbn [fst snd pairs sizeD indexMap].
        split; [reflexivity|]. split; [lia|]. split.
        -- rewrite (Permutation_insert_swap _ _ _ _ _ Hentry Hchild). exact Hsp.
        -- intros l' Hl'. apply Hback.
           eapply descent_swap; [exact Hentry|exact Hhc|exact Hgt|exact Hl'].
      * eexists. split; [reflexivity|]. unfold Q. cbn [fst]. apply Hback.
        eapply descent_stop; [exact Hentry|].
        intros j pj Hj Hpj. destruct Hhc as (_ & _ & Hall & _).
        pose proof (Hall j pj Hj Hpj) as Hle1.
        assert (SFleb (priority child) (priority entry) = true) as Hle2.
        { apply f32_not_lt_le; [eapply nan_free_lookup; eauto..|exact Hgt]. }
        unfold f32_gt. apply f32_le_not_lt. eapply f32_le_trans; eauto.
    + rewrite Hnone by lia.
      destruct (lookup_lt_is_Some_2 (pairs qs) (Z.to_nat ix)) as [entry Hentry];
        [unfold len in *; lia|].
      eexists. split; [reflexivity|]. unfold Q. cbn [fst]. apply Hback.
      eapply descent_stop; [exact Hentry|].
      intros j pj Hj Hpj. exfalso. pose proof (lookup_lt_Some _ _ _ Hpj) as Hjl.
      unfold children_of in Hj. rewrite Z2Nat.id in Hj by lia. unfold len in *. lia.
  - unfold I. cbn [fst snd]. split; [reflexivity|]. split; [lia|]. split; [reflexivity|auto].
  - cbn [snd]. unfold len. lia.
  - unfold Q in HQ. cbn [fst] in HQ. exists q1. unfold pushDownIndex. rewrite Eloop.
    cbn [obind]. split; [reflexivity|exact HQ].
Qed.

(** [Top] on two entries or more: the last entry takes the root's place
    in the remainder and [pushDown] runs on that. *)
Lemma Top_unfold fuel q root last :
  wf q → (2 <= length (pairs q))%nat →
  pairs q !! 0%nat = Some root → pairs q !! (length (pairs q) - 1)%nat = Some last →
  Top fuel q =
    do q1 <- pushDown fuel (mkPQ (<[0%nat := last]> (take (length (pairs q) - 1) (pairs q)))
                                 (sizeD q)
                                 (<[value last := 0]> (delete (value last) (indexMap q))));
    Done (map_delete q1 (value root), (root, None)).
Proof.
  intros [Hd Hlen] H2 Hroot Hlast. unfold Top.
  assert (pairs q ≠ []) as Hne by (intros E; rewrite E in Hroot; discriminate).
  rewrite (proj2 (isEmpty_false q) Hne).
  unfold removeLast.
  assert ((len q - 1)%int = len q - 1) as -> by (unfold len in *; int_simpl; reflexivity).
  assert (Z.to_nat (len q - 1) = (length (pairs q) - 1)%nat) as Elast by (unfold len; lia).
  rewrite (index_pairs_ok (pairs q) (len q - 1) last)
    by first [unfold len in *; lia | rewrite Elast; exact Hlast].
  cbn [obind].
  assert (len (map_delete q (value last)) = len q) as -> by reflexivity.
  assert ((len q - 1)%int = len q - 1) as -> by (unfold len in *; int_simpl; reflexivity).
  unfold_setters.
  rewrite slice_to_ok by (unfold len in *; lia). cbn [obind]. rewrite Elast.
  set (l1 := take (length (pairs q) - 1) (pairs q)).
  assert (length l1 = (length (pairs q) - 1)%nat) as Hl1.
  { unfold l1. rewrite length_take. lia. }
  assert (l1 !! 0%nat = Some root) as Hroot1.
  { unfold l1. rewrite lookup_take_lt by lia. exact Hroot. }
  assert (isEmpty (mkPQ l1 (sizeD q) (delete (value last) (indexMap q))) = false) as ->.
  { apply isEmpty_false. cbn [pairs]. intros E. rewrite E in Hroot1. discriminate. }
  cbn [pairs].
  rewrite (index_pairs_ok l1 0 root) by first [lia | exact Hroot1].
  cbn [obind]. rewrite store_pairs_ok by lia. cbn [obind].
  unfold_setters. reflexivity.
Qed.

(** C8. [Top] on a queue of two entries or more, none with a NaN
    priority: the last entry is written at the root of the remainder,
    [pushDown] returns, [Top] hands back the old root with what
    [pushDown] left, and that storage is the descent of the entry from
    position 0: at each step the entry is compared with the child of
    highest priority among its up to [d] children, the lowest position
    among equals; it is exchanged with that child while the child's
    priority is strictly greater; and it stops where no child exceeds it
    or none is stored. *)
Theorem Top_pushDown_descent (fuel : nat) (q : PriorityQueue T) :
  wf q → len q <= GoInt.half_range →
  (2 <= length (pairs q))%nat → (length (pairs q) < fuel)%nat →
  no_nan (pairs q) = true →
  ∃ root last q1,
    pairs q !! 0%nat = Some root
    ∧ pairs q !! (length (pairs q) - 1)%nat = Some last
    ∧ pushDown fuel (mkPQ (<[0%nat := last]> (take (length (pairs q) - 1) (pairs q)))
                          (sizeD q)
                          (<[value last := 0]> (delete (value last) (indexMap q)))) = Done q1
    ∧ Top fuel q = Done (map_delete q1 (value root), (root, None))
    ∧ descent (sizeD q) (<[0%nat := last]> (take (length (pairs q) - 1) (pairs q))) 0
              (pairs q1).
Proof.
  intros Hwf Hhalf H2 Hfuel Hnan. pose proof Hwf as [Hd Hlen].
  apply no_nan_nan_free in Hnan.
  destruct (lookup_lt_is_Some_2 (pairs q) 0) as [root Hroot]; [lia|].
  destruct (lookup_lt_is_Some_2 (pairs q) (length (pairs q) - 1)) as [last Hlast]; [lia|].
  set (l2 := <[0%nat := last]> (take (length (pairs q) - 1) (pairs q))).
  set (q2 := mkPQ l2 (sizeD q) (<[value last := 0]> (delete (value last) (indexMap q)))).
  assert (length l2 = (length (pairs q) - 1)%nat) as Hl2.
  { unfold l2. rewrite length_insert, length_take. lia. }
  assert (wf q2) as Hwf2.
  { unfold wf, len. cbn [q2 pairs sizeD]. rewrite Hl2. unfold len in *. split; [exact Hd|lia]. }
  assert (nan_free l2) as Hnan2.
  { intros p Hp. unfold l2 in Hp. apply list_elem_of_lookup in Hp as [i Hp].
    destruct (decide (i = 0%nat)) as [->|Hi].
    - rewrite list_lookup_insert_eq in Hp by (rewrite length_take; lia).
      injection Hp as <-. eapply nan_free_lookup; eauto.
    - rewrite list_lookup_insert_ne in Hp by congruence.
      apply lookup_take_Some in Hp as [Hp _]. eapply nan_free_lookup; eauto. }
  destruct (pushDownIndex_descent fuel q2 0 Hwf2) as (q1 & Epd & Hdesc).
  - unfold len in *. cbn [q2 pairs]. lia.
  - unfold len. cbn [q2 pairs]. lia.
  - cbn [q2 pairs]. lia.
  - exact Hnan2.
  - exists root, last, q1. split; [exact Hroot|]. split; [exact Hlast|].
    split; [exact Epd|]. split; [|exact Hdesc].
    rewrite (Top_unfold fuel q root last Hwf H2 Hroot Hlast).
    fold l2. fold q2. unfold pushDown. rewrite Epd. reflexivity.
Qed.

End Descent.

Module DescentFacts.

Import Scenario.

(** [Top] on [(10,A), (5,B), (8,C), (1,D)]: (1,D) goes to the root, meets
    (8,C) as its highest child and changes places with it. *)
Lemma Top_pushDown_descent_witness :
  wf four_entries
  ∧ len four_entries <= GoInt.half_range
  ∧ (2 <= length (pairs four_entries))%nat
  ∧ (length (pairs four_entries) < fuel)%nat
  ∧ no_nan (pairs four_entries) = true
  ∧ ∃ root last q1,
      pairs four_entries !! 0%nat = Some root
      ∧ pairs four_entries !! (length (pairs four_entries) - 1)%nat = Some last
      ∧ pushDown fuel
          (mkPQ (<[0%nat := last]> (take (length (pairs four_entries) - 1) (pairs four_entries)))
                (sizeD four_entries)
                (<[value last := 0]> (delete (value last) (indexMap four_entries)))) = Done q1
      ∧ Top fuel four_entries = Done (map_delete q1 (value root), (root, None))
      ∧ descent (sizeD four_entries)
                (<[0%nat := last]> (take (length (pairs four_entries) - 1) (pairs four_entries)))
                0 (pairs q1).
Proof.
  assert (wf four_entries) as H0 by (unfold wf, len; cbn; int_range).
  assert (len four_entries <= GoInt.half_range) as H1 by (unfold len; cbn; int_range).
  assert (2 <= length (pairs four_entries))%nat as H2 by (cbn; lia).
  assert (length (pairs four_entries) < fuel)%nat as H3 by (cbn; unfold fuel; lia).
  assert (no_nan (pairs four_entries) = true) as H4 by (vm_compute; reflexivity).
  split; [exact H0|]. split; [exact H1|]. split; [exact H2|]. split; [exact H3|].
  split; [exact H4|].
  exact (Top_pushDown_descent fuel four_entries H0 H1 H2 H3 H4).
Defined.

(** With a NaN among the children the descent is not the one described.
    [Insert(D,100)], [Insert(B,NaN)], [Insert(C,7)], [Insert(A,1)] on a new
    queue build [nan_child], storage [(100,D), (NaN,B), (7,C), (1,A)].
    [Top] returns (100,D) and lets (1,A) descend from the root of
    [(1,A), (NaN,B), (7,C)]. The scan keeps (NaN,B) as its candidate, since
    7 > NaN does not hold, and the entry stays at the root, since NaN > 1
    does not hold, below the child (7,C) that exceeds it. *)
Lemma descent_stops_below_a_higher_child :
  run fuel q0 nan_calls = Done nan_child
  ∧ wf nan_child
  ∧ len nan_child <= GoInt.half_range
  ∧ (2 <= length (pairs nan_child))%nat
  ∧ (length (pairs nan_child) < fuel)%nat
  ∧ (∃ q', Top fuel nan_child = Done (q', (mkPair (f32 100) D, None))
           ∧ pairs q' = [mkPair (f32 1) A; mkPair S754_nan B; mkPair (f32 7) C])
  ∧ ¬ ∃ root last q1,
        pairs nan_child !! 0%nat = Some root
        ∧ pairs nan_child !! (length (pairs nan_child) - 1)%nat = Some last
        ∧ pushDown fuel
            (mkPQ (<[0%nat := last]> (take (length (pairs nan_child) - 1) (pairs nan_child)))
                  (sizeD nan_child)
                  (<[value last := 0]> (delete (value last) (indexMap nan_child)))) = Done q1
        ∧ Top fuel nan_child = Done (map_delete q1 (value root), (root, None))
        ∧ descent (sizeD nan_child)
                  (<[0%nat := last]> (take (length (pairs nan_child) - 1) (pairs nan_child)))
                  0 (pairs q1).
Proof.
  split; [vm_compute; reflexivity|].
  split; [unfold wf, len; cbn; int_range|].
  split; [unfold len; cbn; int_range|].
  split; [cbn; lia|]. split; [cbn; unfold fuel; lia|].
  split.
  { eexists. split; vm_compute; reflexivity. }
  intros (root & last & q1 & Hroot & Hlast & Epd & _ & Hdesc).
  cbn in Hroot, Hlast. injection Hroot as <-. injection Hlast as <-.
  vm_compute in Epd. injection Epd as <-.
  cbn [pairs sizeD nan_child length Nat.sub take insert list_insert] in Hdesc.
  inversion Hdesc as [l i entry Hentry Hstop|l i entry c child l' Hentry Hhc Hgt Hrest];
    subst.
  - cbn in Hentry. injection Hentry as <-.
    specialize (Hstop 2%nat (mkPair (f32 7) C) ltac:(unfold children_of; lia) eq_refl).
    vm_compute in Hstop. discriminate.
  - cbn in Hentry. injection Hentry as <-.
    destruct Hhc as (Hc & Hchild & _ & Hfirst). unfold children_of in Hc.
    destruct c as [|[|[|c]]]; try lia.
    + cbn in Hchild. injection Hchild as <-. vm_compute in Hgt. discriminate.
    + specialize (Hfirst 1%nat (mkPair S754_nan B) ltac:(unfold children_of; lia)
                         ltac:(lia) eq_refl).
      vm_compute in Hfirst. discriminate.
Qed.

End DescentFacts.
